(** * Gunpla Guide: filter matching, match scoring and URL filter state

    A shallow embedding of [js/filter.js] (module [Filter]), of the scoring
    part of [js/recommendation.js] (module [Recommendation]) and of
    [I18n.getName] from [js/i18n.js], with the properties of the
    specification that concern them.  It is followed by the code around
    them: the ranking of [sortByScore], the listing, the favourites, the
    compare list and the recently viewed products of [js/app.js], the
    language and the theme of [I18n], the search by initial consonants and
    the search history of the later [Filter] module, and [parseCSV] of the
    mapping script.

    Conventions of the embedding.
    - JavaScript objects used as dictionaries ([activeFilters], a product,
      its [filterData], the weight table) are finite maps over strings: the
      map holds the own properties.  A read of the weight table or of
      [activeFilters] under a category id that is no own property finds the
      member that [Object.prototype] defines under that name, if any
      ([JS.inherited]): a function, or an object for [__proto__].  The
      documents (a product, its [filterData], a name, the taxonomy) are
      read by their own properties only, and an assignment to the name
      [__proto__] is taken as any other assignment.  The loops over
      [Object.entries] run over [map_to_list].  The order of enumeration
      shows in the order of the URL parameters; the match predicate is a
      conjunction over the entries, and the sums of the score do not
      depend on the order as long as they are exact (lemma
      [foldl_scoreStep_perm]).
    - Numbers are exact rationals extended with [NaN] and the two
      infinities.  Binary rounding, overflow and the negative zero of IEEE
      doubles are not modelled: where a quotient of the score is not a
      binary fraction, the double that the code computes can fall on the
      other side of a half and the rounded score differ by one from the
      exact one, also with the order of the entries.
    - Strings are sequences of bytes; [toLowerCase] and [trim] act on the
      ASCII letters and the ASCII white space.  Where the code counts or
      inspects UTF-16 code units (modules [Hangul] and [History]) a string
      is the list of its code units.
    - [URLSearchParams] is the ordered list of its (name, value) pairs.  Its
      percent-encoding ([toString]) and decoding (the constructor) are the
      browser's and are inverse to each other, so the query string is
      identified with that list.
    - A thrown [TypeError] is the result [None]; where a function has
      changed variables before it throws (module [App]), the result tells
      the variables it leaves ([Thrown]). *)

From Stdlib Require Import ZArith QArith Qround Lia Lqa List FinFun Ascii String.
From Stdlib Require Import DecimalString DecimalN DecimalPos.
From stdpp Require Import base option list gmap strings fin_maps sorting.

#[local] Set Warnings "-register-all".
#[local] Open Scope string_scope.

(** ** The JavaScript values and built-in operations the two modules use *)

Module JS.

(** A number: a double, idealised as an exact rational. *)
Inductive num :=
  | NaN
  | Fin (q : Q)
  | Inf (neg : bool).

(** Primitive values. *)
Inductive prim :=
  | PUndef
  | PNull
  | PBool (b : bool)
  | PNum (n : num)
  | PStr (s : string).

(** Values of the JSON documents: primitives, arrays and plain objects. *)
Inductive jsval :=
  | VPrim (p : prim)
  | VArr (l : list jsval)
  | VObj (o : gmap string jsval).

Definition undefined : jsval := VPrim PUndef.

Definition num_of_nat (n : nat) : num := Fin (inject_Z (Z.of_nat n)).

(** *** Arithmetic on numbers *)

Definition Qlt_bool (a b : Q) : bool := negb (Qle_bool b a).

Definition num_add (a b : num) : num :=
  match a, b with
  | NaN, _ | _, NaN => NaN
  | Fin x, Fin y => Fin (x + y)%Q
  | Inf s, Fin _ | Fin _, Inf s => Inf s
  | Inf s, Inf t => if Bool.eqb s t then Inf s else NaN
  end.

Definition num_mul (a b : num) : num :=
  match a, b with
  | NaN, _ | _, NaN => NaN
  | Fin x, Fin y => Fin (x * y)%Q
  | Inf s, Fin y | Fin y, Inf s =>
      if Qeq_bool y 0 then NaN else Inf (xorb s (Qlt_bool y 0))
  | Inf s, Inf t => Inf (xorb s t)
  end.

Definition num_div (a b : num) : num :=
  match a, b with
  | NaN, _ | _, NaN => NaN
  | Fin x, Fin y =>
      if Qeq_bool y 0
      then (if Qeq_bool x 0 then NaN else Inf (Qlt_bool x 0))
      else Fin (x / y)%Q
  | Fin _, Inf _ => Fin 0
  | Inf s, Fin y => Inf (xorb s (Qlt_bool y 0))
  | Inf _, Inf _ => NaN
  end.

(** [Math.round]: the nearest integer, halves rounded up. *)
Definition Math_round (a : num) : num :=
  match a with
  | Fin x => Fin (inject_Z (Qfloor (x + (1 # 2))%Q))
  | _ => a
  end.

(** Numeric [<]; [None] is the "undefined" outcome on a [NaN] operand. *)
Definition num_lt (a b : num) : option bool :=
  match a, b with
  | NaN, _ | _, NaN => None
  | Fin x, Fin y => Some (Qlt_bool x y)
  | Fin _, Inf s => Some (negb s)
  | Inf s, Fin _ => Some s
  | Inf s, Inf t => Some (s && negb t)
  end.

(** Numeric equality as [===] sees it ([NaN] differs from itself), and as
    [Array.prototype.includes] sees it (SameValueZero: [NaN] equals itself). *)
Definition num_strict_eq (a b : num) : bool :=
  match a, b with
  | Fin x, Fin y => Qeq_bool x y
  | Inf s, Inf t => Bool.eqb s t
  | _, _ => false
  end.

Definition num_same_value_zero (a b : num) : bool :=
  match a, b with
  | NaN, NaN => true
  | _, _ => num_strict_eq a b
  end.

(** *** Strings *)

Definition lower_ascii (c : ascii) : ascii :=
  let n := nat_of_ascii c in
  if (65 <=? n)%nat && (n <=? 90)%nat then ascii_of_nat (n + 32) else c.

(** [String.prototype.toLowerCase] *)
Fixpoint toLowerCase (s : string) : string :=
  match s with
  | EmptyString => EmptyString
  | String c t => String (lower_ascii c) (toLowerCase t)
  end.

(** [String.prototype.includes] *)
Fixpoint includes (s needle : string) : bool :=
  String.prefix needle s ||
  match s with
  | EmptyString => false
  | String _ t => includes t needle
  end.

(** [String.prototype.split] with a one-character separator. *)
Fixpoint split (sep : ascii) (s : string) : list string :=
  match s with
  | EmptyString => [EmptyString]
  | String c t =>
      if Ascii.eqb c sep then EmptyString :: split sep t
      else match split sep t with
           | h :: r => String c h :: r
           | [] => [String c EmptyString]
           end
  end.

(** [Array.prototype.join] on an array of strings. *)
Fixpoint join (sep : string) (l : list string) : string :=
  match l with
  | [] => EmptyString
  | [x] => x
  | x :: r => x ++ sep ++ join sep r
  end.

Definition is_space (c : ascii) : bool :=
  let n := nat_of_ascii c in
  ((9 <=? n)%nat && (n <=? 13)%nat) || (n =? 32)%nat.

Fixpoint trimStart (s : string) : string :=
  match s with
  | String c t => if is_space c then trimStart t else s
  | EmptyString => EmptyString
  end.

Fixpoint trimEnd (s : string) : string :=
  match s with
  | EmptyString => EmptyString
  | String c t =>
      match trimEnd t with
      | EmptyString => if is_space c then EmptyString else String c EmptyString
      | t' => String c t'
      end
  end.

(** [String.prototype.trim] *)
Definition trim (s : string) : string := trimEnd (trimStart s).

(** *** Numbers and strings *)

Definition is_digit (c : ascii) : bool :=
  let n := nat_of_ascii c in (48 <=? n)%nat && (n <=? 57)%nat.

Definition digits_of_N (n : N) : string := NilEmpty.string_of_uint (N.to_uint n).

(** The value of a string of decimal digits. *)
Definition digits_value (s : string) : N :=
  match NilEmpty.uint_of_string s with
  | Some u => N.of_uint u
  | None => 0%N
  end.

Fixpoint frac_digits (fuel : nat) (r d : N) : string :=
  match fuel with
  | O => EmptyString
  | S f =>
      if (r =? 0)%N then EmptyString
      else String (ascii_of_N (48 + (r * 10) / d)) (frac_digits f ((r * 10) mod d) d)
  end.

(** [Number.prototype.toString], in positional decimal notation: the sign,
    the integer part and, for a non-integer, the decimal expansion (cut
    after 20 places).  This is what JavaScript prints for every integer
    below 10^21 and for decimals of magnitude at least 10^-6 with up to 15
    significant digits; the exponent notation of the other numbers is not
    modelled. *)
Definition NumberToString (a : num) : string :=
  match a with
  | NaN => "NaN"
  | Inf false => "Infinity"
  | Inf true => "-Infinity"
  | Fin q =>
      let q' := Qred q in
      let n := Z.abs_N (Qnum q') in
      let d := Npos (Qden q') in
      let body :=
        digits_of_N (n / d) ++
        (if (n mod d =? 0)%N then "" else "." ++ frac_digits 20 (n mod d) d) in
      if (Qnum q' <? 0)%Z then "-" ++ body else body
  end.

Fixpoint span_digits (s : string) : string * string :=
  match s with
  | String c t =>
      if is_digit c
      then let '(d, r) := span_digits t in (String c d, r)
      else (EmptyString, s)
  | EmptyString => (EmptyString, EmptyString)
  end.

(** The exponent part of a decimal literal: nothing, or [e] or [E] followed
    by an optionally signed, non-empty string of digits. *)
Definition exponent_part (s : string) : option Z :=
  match s with
  | EmptyString => Some 0%Z
  | String c t =>
      if Ascii.eqb c "e" || Ascii.eqb c "E" then
        let '(neg, ds) :=
          match t with
          | String "+" r => (false, r)
          | String "-" r => (true, r)
          | _ => (false, t)
          end in
        match span_digits ds with
        | (String _ _ as d, EmptyString) =>
            let v := Z.of_N (digits_value d) in Some (if neg then (- v)%Z else v)
        | _ => None
        end
      else None
  end.

(** An unsigned decimal literal: digits, an optional fraction, an optional
    exponent, with a digit on at least one side of the point. *)
Definition unsigned_decimal (s : string) : option Q :=
  let '(ip, r1) := span_digits s in
  let '(fp, r2) :=
    match r1 with
    | String "." t => span_digits t
    | _ => (EmptyString, r1)
    end in
  if String.eqb ip "" && String.eqb fp "" then None
  else match exponent_part r2 with
       | Some e =>
           Some ((inject_Z (Z.of_N (digits_value ip))
                  + inject_Z (Z.of_N (digits_value fp))
                    / inject_Z (10 ^ Z.of_nat (String.length fp)))
                 * Qpower (10 # 1) e)%Q
       | None => None
       end.

Definition radix_digit (radix : N) (c : ascii) : option N :=
  let n := N_of_ascii c in
  let v :=
    if (48 <=? n)%N && (n <=? 57)%N then Some (n - 48)%N
    else if (97 <=? n)%N && (n <=? 102)%N then Some (n - 87)%N
    else if (65 <=? n)%N && (n <=? 70)%N then Some (n - 55)%N
    else None in
  match v with
  | Some d => if (d <? radix)%N then Some d else None
  | None => None
  end.

Fixpoint radix_value (radix : N) (s : string) (acc : N) : option N :=
  match s with
  | EmptyString => Some acc
  | String c t =>
      match radix_digit radix c with
      | Some d => radix_value radix t (acc * radix + d)%N
      | None => None
      end
  end.

Definition radix_literal (radix : N) (digits : string) : num :=
  match digits with
  | EmptyString => NaN
  | _ => match radix_value radix digits 0%N with
         | Some v => Fin (inject_Z (Z.of_N v))
         | None => NaN
         end
  end.

Definition signed_decimal (neg : bool) (s : string) : num :=
  if String.eqb s "Infinity" then Inf neg
  else match unsigned_decimal s with
       | Some q => Fin (if neg then (- q)%Q else q)
       | None => NaN
       end.

(** [strip_prefix p s] is the rest of [s] after its prefix [p], if [s]
    starts with [p]. *)
Fixpoint strip_prefix (p s : string) : option string :=
  match p, s with
  | EmptyString, _ => Some s
  | String a p', String b s' => if Ascii.eqb a b then strip_prefix p' s' else None
  | String _ _, EmptyString => None
  end.

(** The prefixes of the integer literals that are not decimal. *)
Definition radix_prefixes : list (string * N) :=
  [ ("0x", 16%N); ("0X", 16%N); ("0o", 8%N); ("0O", 8%N); ("0b", 2%N); ("0B", 2%N) ].

Fixpoint radix_prefixed (prefixes : list (string * N)) (t : string) : option num :=
  match prefixes with
  | [] => None
  | (p, radix) :: rest =>
      match strip_prefix p t with
      | Some digits => Some (radix_literal radix digits)
      | None => radix_prefixed rest t
      end
  end.

(** [Number(s)] on a string (StringToNumber): white space is trimmed, the
    empty string is 0, then a hexadecimal, octal or binary integer, or a
    signed decimal literal or [Infinity]; anything else is [NaN]. *)
Definition StringToNumber (s : string) : num :=
  let t := trim s in
  match t with
  | EmptyString => Fin 0
  | String c r =>
      match radix_prefixed radix_prefixes t with
      | Some n => n
      | None =>
          if Ascii.eqb c "+" then signed_decimal false r
          else if Ascii.eqb c "-" then signed_decimal true r
          else signed_decimal false t
      end
  end.

(** *** Conversions and comparisons *)

(** ToString on a primitive, as in a template literal. *)
Definition prim_toString (p : prim) : string :=
  match p with
  | PUndef => "undefined"
  | PNull => "null"
  | PBool true => "true"
  | PBool false => "false"
  | PNum n => NumberToString n
  | PStr s => s
  end.

(** ToNumber on a primitive. *)
Definition ToNumber (p : prim) : num :=
  match p with
  | PUndef => NaN
  | PNull => Fin 0
  | PBool true => Fin 1
  | PBool false => Fin 0
  | PNum n => n
  | PStr s => StringToNumber s
  end.

(** ToString on any value: an array is the comma-joined strings of its
    elements ([undefined] and [null] giving the empty string). *)
Fixpoint js_toString (v : jsval) : string :=
  match v with
  | VPrim p => prim_toString p
  | VArr l =>
      join "," (List.map (fun e => match e with
                                   | VPrim PUndef | VPrim PNull => ""
                                   | _ => js_toString e
                                   end) l)
  | VObj _ => "[object Object]"
  end.

Definition ToPrimitive (v : jsval) : prim :=
  match v with
  | VPrim p => p
  | _ => PStr (js_toString v)
  end.

(** The abstract relational comparison [x < y] on primitives; [None] is its
    "undefined" outcome. *)
Definition lt_raw (x y : prim) : option bool :=
  match x, y with
  | PStr a, PStr b => Some (String.ltb a b)
  | _, _ => num_lt (ToNumber x) (ToNumber y)
  end.

Definition is_some_bool (b : bool) (o : option bool) : bool :=
  match o with
  | Some c => Bool.eqb b c
  | None => false
  end.

(** [x < y], [x > y], [x <= y], [x >= y] *)
Definition js_lt (x y : jsval) : bool := is_some_bool true (lt_raw (ToPrimitive x) (ToPrimitive y)).
Definition js_gt (x y : jsval) : bool := is_some_bool true (lt_raw (ToPrimitive y) (ToPrimitive x)).
Definition js_le (x y : jsval) : bool := is_some_bool false (lt_raw (ToPrimitive y) (ToPrimitive x)).
Definition js_ge (x y : jsval) : bool := is_some_bool false (lt_raw (ToPrimitive x) (ToPrimitive y)).

(** [===] and SameValueZero on primitives. *)
Definition prim_strict_eq (x y : prim) : bool :=
  match x, y with
  | PUndef, PUndef | PNull, PNull => true
  | PBool a, PBool b => Bool.eqb a b
  | PNum a, PNum b => num_strict_eq a b
  | PStr a, PStr b => String.eqb a b
  | _, _ => false
  end.

Definition prim_same_value_zero (x y : prim) : bool :=
  match x, y with
  | PNum a, PNum b => num_same_value_zero a b
  | _, _ => prim_strict_eq x y
  end.

(** A value of a document against a primitive: an array or an object is
    never equal to a primitive. *)
Definition strict_eq (v : jsval) (p : prim) : bool :=
  match v with
  | VPrim x => prim_strict_eq x p
  | _ => false
  end.

Definition same_value_zero (v : jsval) (p : prim) : bool :=
  match v with
  | VPrim x => prim_same_value_zero x p
  | _ => false
  end.

(** [arr.includes(v)] for an array [arr] of primitives. *)
Definition array_includes (arr : list prim) (v : jsval) : bool :=
  existsb (same_value_zero v) arr.

(** ToBoolean *)
Definition truthy (v : jsval) : bool :=
  match v with
  | VPrim PUndef | VPrim PNull => false
  | VPrim (PBool b) => b
  | VPrim (PNum NaN) => false
  | VPrim (PNum (Fin q)) => negb (Qeq_bool q 0)
  | VPrim (PNum (Inf _)) => true
  | VPrim (PStr s) => negb (String.eqb s "")
  | VArr _ | VObj _ => true
  end.

(** [a || b] *)
Definition js_or (a b : jsval) : jsval := if truthy a then a else b.

Definition nullish (v : jsval) : bool :=
  match v with
  | VPrim PUndef | VPrim PNull => true
  | _ => false
  end.

(** [a ?? b] *)
Definition js_coalesce (a b : jsval) : jsval := if nullish a then b else a.

(** [o[k]] on an object of a document; [undefined] when [k] is absent.
    Properties of other values (the length and the indices of arrays and
    strings) are not modelled and read as [undefined]. *)
Definition get_prop (v : jsval) (k : string) : jsval :=
  match v with
  | VObj o => default undefined (o !! k)
  | _ => undefined
  end.

(** The names of the members of [Object.prototype], which every plain
    object inherits: functions, and the accessor [__proto__]. *)
Definition Object_prototype : list string :=
  [ "constructor"; "__defineGetter__"; "__defineSetter__"; "hasOwnProperty";
    "__lookupGetter__"; "__lookupSetter__"; "isPrototypeOf";
    "propertyIsEnumerable"; "toString"; "valueOf"; "__proto__";
    "toLocaleString" ].

(** [inherited k]: a plain object without an own property [k] has a member
    [k] all the same. *)
Definition inherited (k : string) : bool := existsb (String.eqb k) Object_prototype.

(** [o?.[k]] *)
Definition get_prop_opt (v : jsval) (k : string) : jsval :=
  if nullish v then undefined else get_prop v k.

End JS.

(** ** [I18n.getName] *)

Module I18n.
Import JS.

(** [getName(obj)]: the empty string for a falsy [obj], [obj] itself when it
    is a string, else its entry for the current language, for [ko], for
    [en], or the empty string. *)
Definition getName (currentLang : string) (obj : jsval) : jsval :=
  if negb (truthy obj) then VPrim (PStr "")
  else match obj with
       | VPrim (PStr _) => obj
       | _ =>
           js_or (js_or (js_or (get_prop obj currentLang) (get_prop obj "ko"))
                        (get_prop obj "en"))
                 (VPrim (PStr ""))
       end.

End I18n.

(** ** Module [Filter]

    The embedding follows [js/filter.js].  A later copy of the module in
    the repository lower-cases the query once more inside [matchesFilters]
    and adds a second way for a query to match, on the leading consonants
    of the Korean name; the rest of the two copies is the same text. *)

Module Filter.
Import JS.

(** A category of the taxonomy document; only [id] and [type] are read by
    the code below. *)
Record category := Category { cat_id : string; cat_type : string }.

(** A value of [activeFilters]: the array built by [setFilter] and by
    [restoreFromURL], or the object [{min, max}] built by [setRangeFilter]
    and by [restoreFromURL]. *)
Inductive selection :=
  | SArr (values : list prim)
  | SRange (min max : prim).

(** The module's variables.  [taxonomy] is [None] while the document is not
    loaded or has no [categories]. *)
Record state := State {
  taxonomy : option (list category);
  activeFilters : gmap string selection;
  searchQuery : string
}.

(** The module as it is loaded, with the taxonomy [init] fetches. *)
Definition initial (tax : option (list category)) : state :=
  {| taxonomy := tax; activeFilters := ∅; searchQuery := "" |}.

(** [taxonomy?.categories?.find(c => c.id === key)] *)
Definition find_category (tax : option (list category)) (key : string) : option category :=
  match tax with
  | Some cats => List.find (fun c => String.eqb (cat_id c) key) cats
  | None => None
  end.

Definition setSearchQuery (query : string) (st : state) : state :=
  {| taxonomy := taxonomy st;
     activeFilters := activeFilters st;
     searchQuery := toLowerCase (trim query) |}.

Definition with_filters (st : state) (af : gmap string selection) : state :=
  {| taxonomy := taxonomy st; activeFilters := af; searchQuery := searchQuery st |}.

(** [setFilter(categoryId, value, isActive)].  On a category that holds a
    [{min, max}] object the calls of [includes] and [filter] throw, before
    anything is changed.  So they do under an id that is no own property
    and names a member of [Object.prototype]: [activeFilters[categoryId]]
    is then that member, which is truthy, and no array is created. *)
Definition setFilter (categoryId : string) (value : prim) (isActive : bool)
    (st : state) : option state :=
  let af :=
    match activeFilters st !! categoryId with
    | None =>
        if inherited categoryId then activeFilters st
        else <[categoryId := SArr []]> (activeFilters st)
    | Some _ => activeFilters st
    end in
  match af !! categoryId with
  | Some (SArr l) =>
      if isActive then
        if array_includes l (VPrim value) then Some (with_filters st af)
        else Some (with_filters st (<[categoryId := SArr (l ++ [value])]> af))
      else
        let l' := List.filter (fun v => negb (prim_strict_eq v value)) l in
        if (List.length l' =? 0)%nat
        then Some (with_filters st (delete categoryId af))
        else Some (with_filters st (<[categoryId := SArr l']> af))
  | _ => None
  end.

(** [toggleFilter(categoryId, value)]; [?.includes] throws on a
    [{min, max}] object and on an inherited member, which have no
    [includes]. *)
Definition toggleFilter (categoryId : string) (value : prim) (st : state) : option state :=
  match activeFilters st !! categoryId with
  | None => if inherited categoryId then None else setFilter categoryId value true st
  | Some (SArr l) => setFilter categoryId value (negb (array_includes l (VPrim value))) st
  | Some (SRange _ _) => None
  end.

(** [setRangeFilter(categoryId, min, max)] *)
Definition setRangeFilter (categoryId : string) (min max : prim) (st : state) : state :=
  with_filters st (<[categoryId := SRange min max]> (activeFilters st)).

(** [removeFilter(categoryId, value)]; [value] is [PUndef] when the argument
    is left out. *)
Definition removeFilter (categoryId : string) (value : prim) (st : state) : option state :=
  if negb (prim_strict_eq value PUndef) then setFilter categoryId value false st
  else Some (with_filters st (delete categoryId (activeFilters st))).

(** [clearAllFilters()] *)
Definition clearAllFilters (st : state) : state :=
  {| taxonomy := taxonomy st; activeFilters := ∅; searchQuery := "" |}.

(** [product[categoryId] ?? product.filterData?.[categoryId]] *)
Definition productValue (product : gmap string jsval) (categoryId : string) : jsval :=
  js_coalesce (get_prop (VObj product) categoryId)
              (get_prop_opt (get_prop (VObj product) "filterData") categoryId).

(** [(s || '').toLowerCase()]: a truthy value that is not a string has no
    such method. *)
Definition lowerField (s : jsval) : option string :=
  match js_or s (VPrim (PStr "")) with
  | VPrim (PStr x) => Some (toLowerCase x)
  | _ => None
  end.

Definition searchFields (currentLang : string) (product : gmap string jsval)
    : option (list string) :=
  mapM lowerField
    [ I18n.getName currentLang (get_prop (VObj product) "name");
      get_prop (VObj product) "id";
      js_or (get_prop (VObj product) "modelNumber") (VPrim (PStr ""));
      get_prop (VObj product) "grade";
      get_prop (VObj product) "series" ].

(** One turn of the loop of [matchesFilters] over [activeFilters]: [false]
    where the loop returns [false], [true] where it goes on. *)
Definition matchesCategory (tax : option (list category)) (product : gmap string jsval)
    (categoryId : string) (values : selection) : bool :=
  match find_category tax categoryId with
  | None => true
  | Some category =>
      let productValue := productValue product categoryId in
      if String.eqb (cat_type category) "range" then
        match values with
        | SRange min max =>
            if negb (prim_strict_eq min PUndef)
            then negb (js_lt productValue (VPrim min) || js_gt productValue (VPrim max))
            else true
        | SArr _ => true
        end
      else if String.eqb (cat_type category) "boolean" then
        let filterValue :=
          match values with
          | SArr (v :: _) => v
          | _ => PUndef
          end in
        negb (negb (prim_strict_eq filterValue PUndef)
              && negb (strict_eq productValue filterValue))
      else
        match values with
        | SArr ((_ :: _) as l) =>
            match productValue with
            | VArr pl => existsb (array_includes l) pl
            | _ => array_includes l productValue
            end
        | _ => true
        end
  end.

(** [matchesFilters(product)] *)
Definition matchesFilters (currentLang : string) (st : state)
    (product : gmap string jsval) : option bool :=
  let categories :=
    forallb (fun kv => matchesCategory (taxonomy st) product kv.1 kv.2)
            (map_to_list (activeFilters st)) in
  if negb (String.eqb (searchQuery st) "") then
    match searchFields currentLang product with
    | None => None
    | Some fields =>
        if existsb (fun field => includes field (searchQuery st)) fields
        then Some categories
        else Some false
    end
  else Some categories.

(** [URLSearchParams.prototype.set] *)
Fixpoint params_set (name value : string) (params : list (string * string))
    : list (string * string) :=
  match params with
  | [] => [(name, value)]
  | (n, v) :: r =>
      if String.eqb n name
      then (name, value) :: List.filter (fun p => negb (String.eqb p.1 name)) r
      else (n, v) :: params_set name value r
  end.

(** The string of an array element under [join]. *)
Definition join_element (p : prim) : string :=
  match p with
  | PUndef | PNull => ""
  | _ => prim_toString p
  end.

(** What [updateURL] writes for one entry, if anything. *)
Definition serialize (values : selection) : option string :=
  match values with
  | SArr [] => None
  | SArr l => Some (join "," (List.map join_element l))
  | SRange min max =>
      if negb (prim_strict_eq min PUndef)
      then Some (prim_toString min ++ "-" ++ prim_toString max)
      else None
  end.

(** [updateURL()]: the parameters it passes to [history.replaceState]. *)
Definition updateURL (st : state) : list (string * string) :=
  foldl (fun params kv =>
           match serialize kv.2 with
           | Some s => params_set kv.1 s params
           | None => params
           end)
        (if negb (String.eqb (searchQuery st) "") then [("q", searchQuery st)] else [])
        (map_to_list (activeFilters st)).

(** The value [restoreFromURL] stores for one parameter of a known category. *)
Definition parse_value (category : category) (value : string) : selection :=
  if String.eqb (cat_type category) "range" && includes value "-" then
    match List.map StringToNumber (split "-" value) with
    | min :: max :: _ => SRange (PNum min) (PNum max)
    | [min] => SRange (PNum min) PUndef
    | [] => SRange PUndef PUndef
    end
  else SArr (List.map PStr (split "," value)).

(** The callback of [params.forEach] in [restoreFromURL], on
    [activeFilters]. *)
Definition restoreParam (tax : option (list category)) (af : gmap string selection)
    (p : string * string) : gmap string selection :=
  if String.eqb p.1 "q" then af
  else match find_category tax p.1 with
       | None => af
       | Some category => <[p.1 := parse_value category p.2]> af
       end.

(** [restoreFromURL()], reading the parameters [params] of the location. *)
Definition restoreFromURL (params : list (string * string)) (st : state) : state :=
  {| taxonomy := taxonomy st;
     activeFilters := foldl (restoreParam (taxonomy st)) (activeFilters st) params;
     searchQuery :=
       match List.find (fun p => String.eqb p.1 "q") params with
       | Some p => p.2
       | None => searchQuery st
       end |}.

(** The count one entry adds in [getActiveFilterCount]. *)
Definition activeCount (values : selection) : nat :=
  match values with
  | SArr l => List.length l
  | SRange _ _ => 1
  end.

(** [getActiveFilterCount()] *)
Definition getActiveFilterCount (st : state) : nat :=
  foldl (fun count kv => (count + activeCount kv.2)%nat) 0%nat (map_to_list (activeFilters st)).

End Filter.

(** ** Module [Recommendation]: the match score *)

Module Recommendation.
Import JS.

(** The table [categoryWeights]. *)
Definition categoryWeights : gmap string Q :=
  list_to_map
    [ ("difficulty", 3%Q); ("mobility", (5 # 2)%Q); ("grade", 2%Q);
      ("recommendedUser", (5 # 2)%Q); ("weaponCount", (3 # 2)%Q);
      ("frameType", (3 # 2)%Q); ("transformation", (3 # 2)%Q);
      ("colorSeparation", 1%Q); ("sealDependency", 1%Q);
      ("clearParts", (1 # 2)%Q); ("coatingParts", (1 # 2)%Q) ].

(** [categoryWeights[categoryId] || 1].  Under a name of a member of
    [Object.prototype] the table yields that member, a function (an object
    for [__proto__]), which is truthy and is the weight.  With such a
    weight [totalWeight += weight] makes [totalWeight] a string that is no
    numeral, and so it stays; [weight * ...] is [NaN]; [totalWeight === 0]
    is false and the quotient by [totalWeight] is [NaN].  The weight is
    written [NaN] here, which gives these results. *)
Definition weightOf (categoryId : string) : num :=
  match categoryWeights !! categoryId with
  | Some w => if Qeq_bool w 0 then Fin 1 else Fin w
  | None => if inherited categoryId then NaN else Fin 1
  end.

(** One turn of the loop of [calculateMatchScore], on the pair
    [(totalWeight, matchedWeight)].  [filters] holds the values of
    [Filter.activeFilters] ([app.js] passes [Filter.getActiveFilters()]):
    arrays and [{min, max}] objects.  For such an object without [min] the
    last test of the source, [productValue === filterValues], compares a
    value of the product with that object and fails. *)
Definition scoreStep (product : gmap string jsval) (acc : num * num)
    (entry : string * Filter.selection) : num * num :=
  let weight := weightOf entry.1 in
  let totalWeight := num_add acc.1 weight in
  let matchedWeight := acc.2 in
  let productValue := Filter.productValue product entry.1 in
  if strict_eq productValue PUndef then (totalWeight, matchedWeight)
  else
    match entry.2 with
    | Filter.SArr filterValues =>
        match productValue with
        | VArr pl =>
            let overlap := List.filter (array_includes filterValues) pl in
            (totalWeight,
             num_add matchedWeight
               (num_mul weight (num_div (num_of_nat (List.length overlap))
                                        (num_of_nat (List.length filterValues)))))
        | _ =>
            if array_includes filterValues productValue
            then (totalWeight, num_add matchedWeight weight)
            else (totalWeight, matchedWeight)
        end
    | Filter.SRange min max =>
        if negb (prim_strict_eq min PUndef) then
          if js_ge productValue (VPrim min) && js_le productValue (VPrim max)
          then (totalWeight, num_add matchedWeight weight)
          else (totalWeight, matchedWeight)
        else (totalWeight, matchedWeight)
    end.

(** [totalWeight] and [matchedWeight] after the loop. *)
Definition weights (product : gmap string jsval) (filters : gmap string Filter.selection)
    : num * num :=
  foldl (scoreStep product) (Fin 0, Fin 0) (map_to_list filters).

(** The end of [calculateMatchScore]: 0 for a [totalWeight] of 0, else
    [Math.round((matchedWeight / totalWeight) * 100)]. *)
Definition percentage (w : num * num) : num :=
  let '(totalWeight, matchedWeight) := w in
  if num_strict_eq totalWeight (Fin 0) then Fin 0
  else Math_round (num_mul (num_div matchedWeight totalWeight) (Fin 100)).

(** [calculateMatchScore(product, filters)] *)
Definition calculateMatchScore (product : gmap string jsval)
    (filters : gmap string Filter.selection) : num :=
  if (List.length (map_to_list filters) =? 0)%nat then Fin 0
  else percentage (weights product filters).

End Recommendation.

(** ** Sessions of the [Filter] module, and the notions the properties use *)

Module Session.
Import JS Filter.

(** The public operations that change the module's variables.  [init] calls
    [restoreFromURL] with the parameters of the location. *)
Inductive op :=
  | OpSetSearchQuery (query : string)
  | OpSetFilter (categoryId : string) (value : prim) (isActive : bool)
  | OpToggleFilter (categoryId : string) (value : prim)
  | OpSetRangeFilter (categoryId : string) (min max : prim)
  | OpRemoveFilter (categoryId : string) (value : prim)
  | OpClearAllFilters
  | OpRestoreFromURL (params : list (string * string)).

(** One call.  A call that throws leaves the variables as they were. *)
Definition exec (o : op) (st : state) : state :=
  match o with
  | OpSetSearchQuery q => setSearchQuery q st
  | OpSetFilter c v a => default st (setFilter c v a st)
  | OpToggleFilter c v => default st (toggleFilter c v st)
  | OpSetRangeFilter c lo hi => setRangeFilter c lo hi st
  | OpRemoveFilter c v => default st (removeFilter c v st)
  | OpClearAllFilters => clearAllFilters st
  | OpRestoreFromURL params => restoreFromURL params st
  end.

(** A sequence of calls, from the module as loaded. *)
Definition run (tax : option (list category)) (ops : list op) : state :=
  foldl (fun st o => exec o st) (initial tax) ops.

(** Numbers, primitives and selections that differ at most in the way a
    rational is written. *)
Definition num_eqv (a b : num) : Prop :=
  match a, b with
  | NaN, NaN => True
  | Fin x, Fin y => (x == y)%Q
  | Inf s, Inf t => s = t
  | _, _ => False
  end.

Definition prim_eqv (x y : prim) : Prop :=
  match x, y with
  | PNum a, PNum b => num_eqv a b
  | _, _ => x = y
  end.

Definition selection_eqv (x y : selection) : Prop :=
  match x, y with
  | SArr l1, SArr l2 => Forall2 prim_eqv l1 l2
  | SRange a b, SRange c d => prim_eqv a c /\ prim_eqv b d
  | _, _ => False
  end.

(** Two pairs [(totalWeight, matchedWeight)] of equivalent numbers. *)
Definition weights_eqv (a b : num * num) : Prop :=
  num_eqv a.1 b.1 /\ num_eqv a.2 b.2.

(** Two states of the module with the same query, the same active
    category ids and equivalent selections. *)
Definition state_eqv (s1 s2 : state) : Prop :=
  searchQuery s1 = searchQuery s2 /\
  forall k, option_Forall2 selection_eqv (activeFilters s1 !! k) (activeFilters s2 !! k).

(** The state a page load restores from the URL that [updateURL] wrote for
    [st], under the taxonomy of [st]. *)
Definition reload (st : state) : state :=
  restoreFromURL (updateURL st) (initial (taxonomy st)).

(** [has_char c s]: the character [c] occurs in [s]. *)
Fixpoint has_char (c : ascii) (s : string) : bool :=
  match s with
  | EmptyString => false
  | String d t => Ascii.eqb d c || has_char c t
  end.

(** [all_digits s]: [s] is made of decimal digits. *)
Fixpoint all_digits (s : string) : bool :=
  match s with
  | EmptyString => true
  | String c t => is_digit c && all_digits t
  end.

(** A number that is a non-negative integer. *)
Definition natural (p : prim) : Prop :=
  exists n : N, prim_eqv p (PNum (Fin (inject_Z (Z.of_N n)))).

(** A selection that survives the URL under a category of type [type]: an
    array of strings without commas (and without [-] on a range category),
    or, on a range category, bounds that are non-negative integers. *)
Definition url_safe (type : string) (values : selection) : Prop :=
  match values with
  | SArr l =>
      l <> [] /\
      Forall (fun p => exists s, p = PStr s /\ has_char "," s = false /\
                                 (type = "range" -> has_char "-" s = false)) l
  | SRange lo hi => type = "range" /\ natural lo /\ natural hi
  end.

(** A state all of whose entries survive the URL: each category id is in
    the taxonomy, differs from the name [q] of the query parameter, and
    holds a [url_safe] selection. *)
Definition url_safe_state (st : state) : Prop :=
  forall k values, activeFilters st !! k = Some values ->
    k <> "q" /\
    exists category, find_category (taxonomy st) k = Some category /\
                     url_safe (cat_type category) values.

(** The parameter [updateURL] writes for an entry that it serializes. *)
Definition written (kv : string * selection) : string * string :=
  (kv.1, default "" (serialize kv.2)).

(** No category id holds an empty array: every entry counts for at least
    one in [getActiveFilterCount]. *)
Definition nonempty_selections (filters : gmap string selection) : Prop :=
  map_Forall (fun _ values => (1 <= activeCount values)%nat) filters.

(** A value of a product that is not an array, or is an array of pairwise
    distinct strings. *)
Definition distinct_strings (v : jsval) : Prop :=
  match v with
  | VArr pl => exists l : list string, pl = List.map (fun s => VPrim (PStr s)) l /\ NoDup l
  | _ => True
  end.

End Session.

(** ** The data of the examples *)

Module Examples.
Import JS Filter.

Definition str (s : string) : jsval := VPrim (PStr s).
Definition number (z : Z) : jsval := VPrim (PNum (Fin (inject_Z z))).

Definition tax : option (list category) :=
  Some [ Category "grade" "single"; Category "difficulty" "single";
         Category "mobility" "range"; Category "weaponCount" "multi";
         Category "ledUnit" "boolean" ].

(** The selection of the scenario: difficulty beginner, mobility 3 to 5. *)
Definition filters : gmap string selection :=
  list_to_map [ ("difficulty", SArr [PStr "beginner"]);
                ("mobility", SRange (PNum (Fin 3)) (PNum (Fin 5))) ].

Definition productA : gmap string jsval :=
  list_to_map [ ("difficulty", str "beginner"); ("mobility", number 4) ].

Definition productB : gmap string jsval :=
  list_to_map [ ("difficulty", str "advanced"); ("mobility", number 4) ].

(** A product without a difficulty. *)
Definition productC : gmap string jsval :=
  list_to_map [ ("id", str "hg-zaku"); ("mobility", number 4) ].

(** A product without a mobility. *)
Definition productD : gmap string jsval :=
  list_to_map [ ("id", str "hg-zaku");
                ("filterData", VObj (list_to_map [ ("difficulty", str "beginner") ])) ].

Definition weapons (l : list string) : gmap string jsval :=
  list_to_map [ ("id", str "hg-zaku");
                ("filterData", VObj (list_to_map [ ("weaponCount", VArr (List.map str l)) ])) ].

Definition rx78 : gmap string jsval :=
  list_to_map [ ("id", str "hg-rx-78-2-revive");
                ("name", VObj (list_to_map [ ("ko", str "RX-78-2 건담");
                                             ("en", str "RX-78-2 Gundam") ]));
                ("modelNumber", str "RX-78-2");
                ("grade", str "HG");
                ("series", str "Mobile Suit Gundam") ].

End Examples.


(** ** Notions on strings the properties use *)

Module Text.
Import JS.

(** An ASCII capital letter. *)
Definition is_upper (c : ascii) : bool :=
  let n := nat_of_ascii c in (65 <=? n)%nat && (n <=? 90)%nat.

(** [has_upper s]: an ASCII capital letter occurs in [s]. *)
Fixpoint has_upper (s : string) : bool :=
  match s with
  | EmptyString => false
  | String c t => is_upper c || has_upper t
  end.

(** A string that does not start with white space. *)
Definition head_no_space (s : string) : Prop :=
  match s with
  | EmptyString => True
  | String c _ => is_space c = false
  end.

End Text.

(** ** Notions on the filter state the properties use *)

Module Selections.
Import JS Filter Session.

(** The operations other than [restoreFromURL]: the setters that the
    controls of the page call. *)
Definition is_setter (o : op) : bool :=
  match o with
  | OpRestoreFromURL _ => false
  | _ => true
  end.

(** No value of the array is found again later in it by [includes]. *)
Fixpoint distinct_values (l : list prim) : bool :=
  match l with
  | [] => true
  | x :: r => negb (array_includes r (VPrim x)) && distinct_values r
  end.

Definition distinct_selections (filters : gmap string selection) : Prop :=
  forall k l, filters !! k = Some (SArr l) -> distinct_values l = true.

(** An entry of [activeFilters] of the kind the page builds for a category
    of the taxonomy, against a product that has a single value for it: the
    id names no member of [Object.prototype], and the entry is an array of
    strings on a category that is not a range, or numeric bounds on a range
    category against a numeric value. *)
Definition typed_entry (tax : option (list category)) (product : gmap string jsval)
    (k : string) (values : selection) : Prop :=
  inherited k = false /\
  exists category, find_category tax k = Some category /\
    match values with
    | SArr l =>
        cat_type category <> "range" /\
        (exists fs, l = List.map PStr fs /\ fs <> []) /\
        exists p, productValue product k = VPrim p /\ p <> PUndef
    | SRange lo hi =>
        cat_type category = "range" /\
        exists a b x, lo = PNum (Fin a) /\ hi = PNum (Fin b) /\
                      productValue product k = VPrim (PNum (Fin x))
    end.

End Selections.

(** ** [Array.prototype.sort] and [Recommendation.sortByScore] *)

Module Ranking.
Import JS Filter Recommendation.

(** [-a] and [a - b] *)
Definition num_neg (a : num) : num :=
  match a with
  | NaN => NaN
  | Fin x => Fin (- x)%Q
  | Inf s => Inf (negb s)
  end.

Definition num_sub (a b : num) : num := num_add a (num_neg b).

(** [a > 0], the test [sort] makes on the result of its comparator; a
    [NaN] counts as 0. *)
Definition positive (a : num) : bool :=
  match a with
  | NaN => false
  | Fin x => Qlt_bool 0 x
  | Inf s => negb s
  end.

(** [arr.sort(compareFn)] as a stable insertion sort: each element goes
    after the elements that the comparator puts before it, and before the
    others.  The standard requires a stable sort, and for a consistent
    comparator that fixes the result; for another comparator the order is
    left to the implementation, and this is one of the orders. *)
Fixpoint sort_insert {A} (compareFn : A -> A -> num) (x : A) (sorted : list A) : list A :=
  match sorted with
  | [] => [x]
  | y :: r =>
      if positive (compareFn x y) then y :: sort_insert compareFn x r
      else x :: y :: r
  end.

Definition Array_sort {A} (compareFn : A -> A -> num) (l : list A) : list A :=
  foldr (sort_insert compareFn) [] l.

(** [{...product, matchScore: calculateMatchScore(product, filters)}] *)
Definition withScore (filters : gmap string selection) (product : gmap string jsval)
    : gmap string jsval :=
  <["matchScore" := VPrim (PNum (calculateMatchScore product filters))]> product.

(** The number [a.matchScore] stands for in [b.matchScore - a.matchScore]. *)
Definition matchScore (product : gmap string jsval) : num :=
  ToNumber (ToPrimitive (get_prop (VObj product) "matchScore")).

(** [sortByScore(products, filters)] *)
Definition sortByScore (products : list (gmap string jsval))
    (filters : gmap string selection) : list (gmap string jsval) :=
  Array_sort (fun a b => num_sub (matchScore b) (matchScore a))
             (List.map (withScore filters) products).

(** The comparator orders the elements of [l] by decreasing [key]. *)
Definition keyed {A} (compareFn : A -> A -> num) (key : A -> Q) (l : list A) : Prop :=
  forall x y, x ∈ l -> y ∈ l -> positive (compareFn x y) = Qlt_bool (key x) (key y).

End Ranking.

(** ** The listing, the favourites, the compare list and the recently viewed
       products of [js/app.js]

    Product ids are strings, as in the product documents. *)

Module App.
Import JS Filter Recommendation Ranking.

Definition ITEMS_PER_PAGE : nat := 24.
Definition MAX_COMPARE : nat := 4.
Definition MAX_RECENT : nat := 10.

(** [arr.indexOf(x)] on an array of strings; [None] stands for -1. *)
Fixpoint indexOf (arr : list string) (x : string) : option nat :=
  match arr with
  | [] => None
  | y :: r => if String.eqb y x then Some 0%nat else S <$> indexOf r x
  end.

(** [toggleFavorite(productId)], on [favorites]. *)
Definition toggleFavorite (productId : string) (favorites : list string) : list string :=
  match indexOf favorites productId with
  | Some index => delete index favorites
  | None => favorites ++ [productId]
  end.

(** [toggleCompare(productId)], on [compareList]; on a full list a new id
    raises the alert and changes nothing. *)
Definition toggleCompare (productId : string) (compareList : list string) : list string :=
  match indexOf compareList productId with
  | Some index => delete index compareList
  | None =>
      if (MAX_COMPARE <=? List.length compareList)%nat then compareList
      else compareList ++ [productId]
  end.

(** [addToRecent(productId)], on the list that [getRecentProducts] reads
    and that is stored back. *)
Definition addToRecent (productId : string) (recent : list string) : list string :=
  take MAX_RECENT
       (productId :: List.filter (fun id => negb (String.eqb id productId)) recent).

(** [arr.slice(start, end)] for indices within the array or past its end. *)
Definition slice {A} (start end_ : nat) (arr : list A) : list A :=
  take (end_ - start) (drop start arr).

(** What a call leaves behind: the variables after it returned, or the
    variables as they are when it throws. *)
Inductive outcome (A : Type) :=
  | Returned (a : A)
  | Thrown (a : A).
Arguments Returned {A} a.
Arguments Thrown {A} a.

Definition variables {A} (o : outcome A) : A :=
  match o with
  | Returned a => a
  | Thrown a => a
  end.

(** [products.filter(p => Filter.matchesFilters(p))]: it throws when the
    predicate does. *)
Fixpoint filterProducts (currentLang : string) (st : Filter.state)
    (l : list (gmap string jsval)) : option (list (gmap string jsval)) :=
  match l with
  | [] => Some []
  | p :: r =>
      match matchesFilters currentLang st p with
      | None => None
      | Some b =>
          match filterProducts currentLang st r with
          | None => None
          | Some r' => Some (if b then p :: r' else r')
          end
      end
  end.

Section Listing.

(** The cards of the grid, and [createProductCard(product, template)] in
    the current language, taxonomy, favourites and compare list: [None]
    where it throws, as it does on a product whose [tags] are no strings. *)
Context {card : Type} (createProductCard : gmap string jsval -> option card).

(** The variables of the page that the listing uses: [grid] holds the
    cards that the element [productGrid] shows, in order. *)
Record page := Page {
  products : list (gmap string jsval);
  filteredProducts : list (gmap string jsval);
  displayedCount : nat;
  grid : list card
}.

(** [itemsToRender.forEach(product => grid.appendChild(createProductCard(...)))]:
    the cards are appended one by one, up to the product on which
    [createProductCard] throws. *)
Fixpoint appendCards (items : list (gmap string jsval)) (cards : list card)
    : outcome (list card) :=
  match items with
  | [] => Returned cards
  | product :: rest =>
      match createProductCard product with
      | Some c => appendCards rest (cards ++ [c])
      | None => Thrown cards
      end
  end.

(** [renderProducts()], in a document that has the grid, the template and
    the two containers.  When a card throws the grid keeps the cards
    appended so far and [displayedCount] is not updated. *)
Definition renderProducts (pg : page) : outcome page :=
  if (List.length (filteredProducts pg) =? 0)%nat then
    Returned {| products := products pg; filteredProducts := filteredProducts pg;
                displayedCount := displayedCount pg; grid := [] |}
  else
    let startIndex := displayedCount pg in
    let endIndex := Nat.min (startIndex + ITEMS_PER_PAGE) (List.length (filteredProducts pg)) in
    let itemsToRender := slice startIndex endIndex (filteredProducts pg) in
    match appendCards itemsToRender (if (startIndex =? 0)%nat then [] else grid pg) with
    | Returned cards =>
        Returned {| products := products pg; filteredProducts := filteredProducts pg;
                    displayedCount := endIndex; grid := cards |}
    | Thrown cards =>
        Thrown {| products := products pg; filteredProducts := filteredProducts pg;
                  displayedCount := displayedCount pg; grid := cards |}
    end.

(** The variables after [n] calls of [renderProducts], the first call
    and the clicks on the button that loads more: each call starts from
    the variables that the call before it left. *)
Definition afterCalls (n : nat) (pg : page) : page :=
  Nat.iter n (fun pg => variables (renderProducts pg)) pg.

(** Whether the button that loads more is shown after [renderProducts]
    returned. *)
Definition loadMoreShown (pg : page) : bool :=
  negb (List.length (filteredProducts pg) =? 0)%nat
  && (displayedCount pg <? List.length (filteredProducts pg))%nat.

(** [applyFiltersAndRender()], in a document that has the elements it
    updates.  [sortProducts] stands for the in-place sort of the function
    of that name, which the branch without active filters calls: it
    depends on the sort controls and on [localeCompare], and it throws on a
    name that is no string, leaving the array as the sort has it by then.
    [updateRecommendationPanel] stands for the function of that name,
    which writes the panel from the taxonomy and the translations: [None]
    where it throws, as it does on a category whose [options] are no
    array.  When [matchesFilters] throws no variable has been assigned;
    when one of the other two throws [filteredProducts] is assigned and
    [displayedCount] is not reset. *)
Definition applyFiltersAndRender
    (sortProducts : list (gmap string jsval) -> outcome (list (gmap string jsval)))
    (updateRecommendationPanel : gmap string selection -> option unit)
    (currentLang : string) (st : Filter.state) (pg : page) : outcome page :=
  match filterProducts currentLang st (products pg) with
  | None => Thrown pg
  | Some passing =>
      if (0 <? List.length (map_to_list (activeFilters st)))%nat then
        let ranked := sortByScore passing (activeFilters st) in
        match updateRecommendationPanel (activeFilters st) with
        | Some _ =>
            renderProducts
              {| products := products pg; filteredProducts := ranked;
                 displayedCount := 0; grid := grid pg |}
        | None =>
            Thrown {| products := products pg; filteredProducts := ranked;
                      displayedCount := displayedCount pg; grid := grid pg |}
        end
      else
        match sortProducts passing with
        | Returned sorted =>
            renderProducts
              {| products := products pg; filteredProducts := sorted;
                 displayedCount := 0; grid := grid pg |}
        | Thrown unsorted =>
            Thrown {| products := products pg; filteredProducts := unsorted;
                      displayedCount := displayedCount pg; grid := grid pg |}
        end
  end.

End Listing.

Arguments Page {card} products filteredProducts displayedCount grid.
Arguments products {card} p.
Arguments filteredProducts {card} p.
Arguments displayedCount {card} p.
Arguments grid {card} p.
Arguments loadMoreShown {card} pg.

End App.

(** A page of fifty products, with cards that stand for the ids. *)
Module ExamplePage.
Import JS.

Definition idCard (product : gmap string jsval) : option jsval := product !! "id".

Definition fifty :=
  App.Page (card := jsval) []
    (List.map (fun n => {[ "id" := Examples.number (Z.of_nat n) ]}) (seq 0 50)) 0 [].

End ExamplePage.

(** ** The language of [I18n]: [init], [setLang], [toggleLang] *)

Module Language.

(** The variable [currentLang] and the item [gunpla-lang] of the local
    storage ([None] while nothing is stored). *)
Record state := State {
  currentLang : string;
  savedLang : option string
}.

(** The module as it is loaded, in a browser whose storage holds
    [stored]. *)
Definition initial (stored : option string) : state :=
  {| currentLang := "ko"; savedLang := stored |}.

(** [init()], once the translations are fetched, in a browser whose
    [navigator.language] is [language]. *)
Definition init (language : string) (st : state) : state :=
  let browserLang := if String.prefix "ko" language then "ko" else "en" in
  {| currentLang :=
       match savedLang st with
       | Some s => if String.eqb s "" then browserLang else s
       | None => browserLang
       end;
     savedLang := savedLang st |}.

(** [setLang(lang)]: the variables it leaves.  With [storageThrows] the
    call of [setItem] throws, after [currentLang] is assigned. *)
Definition setLang (storageThrows : bool) (lang : string) (st : state) : state :=
  if negb (String.eqb lang "ko") && negb (String.eqb lang "en") then st
  else {| currentLang := lang;
          savedLang := if storageThrows then savedLang st else Some lang |}.

(** [toggleLang()] *)
Definition toggleLang (storageThrows : bool) (st : state) : state :=
  setLang storageThrows (if String.eqb (currentLang st) "ko" then "en" else "ko") st.

Inductive op :=
  | OpInit (language : string)
  | OpSetLang (storageThrows : bool) (lang : string)
  | OpToggleLang (storageThrows : bool).

Definition exec (o : op) (st : state) : state :=
  match o with
  | OpInit language => init language st
  | OpSetLang storageThrows lang => setLang storageThrows lang st
  | OpToggleLang storageThrows => toggleLang storageThrows st
  end.

(** A sequence of calls, from the module as loaded over the storage
    [stored]. *)
Definition run (stored : option string) (ops : list op) : state :=
  foldl (fun st o => exec o st) (initial stored) ops.

(** A stored language that [setLang] can have written, or none. *)
Definition valid_stored (stored : option string) : Prop :=
  forall s, stored = Some s -> s = "ko" \/ s = "en".

End Language.

(** ** The theme of [I18n]: [getTheme], [setTheme], [initTheme] *)

Module Theme.

Definition DEFAULT_THEME : string := "dark".
Definition VALID_THEMES : list string := ["dark"; "light"; "rx78"; "char"; "zeon"].

(** [VALID_THEMES.includes(theme)], for a string or [null]. *)
Definition valid (theme : option string) : bool :=
  match theme with
  | Some t => existsb (String.eqb t) VALID_THEMES
  | None => false
  end.

(** The item [gunpla-theme] of the local storage and the attribute
    [data-theme] of the document element. *)
Record state := State {
  saved : option string;
  attribute : option string
}.

(** [getTheme()]; [storageThrows] tells whether the access to the local
    storage throws. *)
Definition getTheme (storageThrows : bool) (st : state) : string :=
  if storageThrows then DEFAULT_THEME
  else if valid (saved st) then default DEFAULT_THEME (saved st) else DEFAULT_THEME.

(** [setTheme(theme)] *)
Definition setTheme (storageThrows : bool) (theme : option string) (st : state) : state :=
  let theme := if negb (valid theme) then DEFAULT_THEME else default DEFAULT_THEME theme in
  {| saved := if storageThrows then saved st else Some theme;
     attribute := if String.eqb theme "dark" then None else Some theme |}.

(** [initTheme()], without the listeners it installs. *)
Definition initTheme (storageThrows : bool) (st : state) : state :=
  setTheme storageThrows (Some (getTheme storageThrows st)) st.

End Theme.

(** ** The search by initial consonants of the later [Filter] module

    A character is its UTF-16 code unit, as [charCodeAt] returns it and as
    [split('')] cuts a string. *)

Module Hangul.

(** The consonants of the table [CHOSEONG], from U+3131 to U+314E. *)
Definition CHOSEONG : list N :=
  [ 0x3131; 0x3132; 0x3134; 0x3137; 0x3138; 0x3139; 0x3141; 0x3142; 0x3143; 0x3145;
    0x3146; 0x3147; 0x3148; 0x3149; 0x314A; 0x314B; 0x314C; 0x314D; 0x314E ]%N.
Definition HANGUL_START : N := 0xAC00.
Definition HANGUL_END : N := 0xD7A3.
Definition CHOSEONG_BASE : N := 588.

(** [isChoseong(char)] *)
Definition isChoseong (char : N) : bool := existsb (N.eqb char) CHOSEONG.

(** [code >= HANGUL_START && code <= HANGUL_END] *)
Definition isSyllable (code : N) : bool :=
  (HANGUL_START <=? code)%N && (code <=? HANGUL_END)%N.

(** [getChoseong(char)]; [None] is the [undefined] of an index outside the
    table. *)
Definition getChoseong (char : N) : option N :=
  let code := char in
  if isSyllable code then
    let index := ((code - HANGUL_START) / CHOSEONG_BASE)%N in
    CHOSEONG !! N.to_nat index
  else Some char.

(** [extractChoseong(str)]; [join] writes nothing for [undefined]. *)
Definition extractChoseong (str : list N) : list N :=
  List.flat_map
    (fun char =>
       let code := char in
       if isSyllable code then
         match getChoseong char with
         | Some c => [c]
         | None => []
         end
       else [char])
    str.

(** [isChoseongQuery(query)] *)
Definition isChoseongQuery (query : list N) : bool :=
  forallb (fun char => isChoseong char || (char =? 32)%N) query.

End Hangul.

(** ** The search history of the later [Filter] module *)

Module History.



(** [removeFromHistory(query)] *)
Definition removeFromHistory (query : list N) (history : list (list N)) : list (list N) :=
  List.filter (fun h => negb (bool_decide (h = query))) history.

End History.

(** ** The mapping script *)

Module Mapping.
Import JS.




End Mapping.
(** ** Properties of the match score *)

Section Score.
Import JS Filter Recommendation Session Examples.

(** The weight of a category whose id names no member of
    [Object.prototype] is a positive rational. *)
Lemma weightOf_positive (categoryId : string) :
  inherited categoryId = false ->
  exists w : Q, weightOf categoryId = Fin w /\ (0 < w)%Q.
Proof.
  intros Hown. unfold weightOf. rewrite Hown.
  destruct (categoryWeights !! categoryId) as [w|] eqn:E.
  - assert (Hw : (0 < w)%Q).
    { apply elem_of_list_to_map_2 in E.
      repeat (apply elem_of_cons in E as [E|E];
              [injection E as _ ->; reflexivity|]).
      inversion E. }
    destruct (Qeq_bool w 0) eqn:Hz.
    + exists 1%Q. split; reflexivity.
    + exists w. split; [reflexivity|exact Hw].
  - exists 1%Q. split; reflexivity.
Qed.

(** No name of the weight table is a name of [Object.prototype], so under
    such a name the weight is the inherited member. *)
Lemma weightOf_inherited (categoryId : string) :
  inherited categoryId = true ->
  categoryWeights !! categoryId = None /\ weightOf categoryId = NaN.
Proof.
  intros Hin.
  assert (Habsent : categoryWeights !! categoryId = None).
  { destruct (categoryWeights !! categoryId) as [w|] eqn:E; [|reflexivity].
    apply elem_of_list_to_map_2 in E.
    repeat (apply elem_of_cons in E as [E|E];
            [injection E as -> _; vm_compute in Hin; discriminate Hin|]).
    inversion E. }
  split; [exact Habsent|]. unfold weightOf. rewrite Habsent, Hin. reflexivity.
Qed.

(** The first component of a turn of the loop: the weight is added to
    [totalWeight] whatever the product holds. *)
Lemma scoreStep_totalWeight product acc entry :
  (scoreStep product acc entry).1 = num_add acc.1 (weightOf entry.1).
Proof.
  unfold scoreStep.
  destruct (strict_eq _ _); [reflexivity|].
  destruct entry.2 as [fl|lo hi].
  - destruct (Filter.productValue product entry.1); try reflexivity;
      destruct (array_includes _ _); reflexivity.
  - destruct (negb _); [|reflexivity].
    destruct (_ && _); reflexivity.
Qed.

Lemma same_value_zero_str (s : string) (p : prim) :
  prim_same_value_zero (PStr s) p = true -> p = PStr s.
Proof.
  destruct p; simpl; try discriminate.
  intros H. apply String.eqb_eq in H. congruence.
Qed.

Lemma array_includes_strings (fs : list string) (s : string) :
  array_includes (List.map PStr fs) (VPrim (PStr s)) = true <-> s ∈ fs.
Proof.
  unfold array_includes. rewrite List.existsb_exists. split.
  - intros (p & Hp & Heq). simpl in Heq. apply same_value_zero_str in Heq. subst p.
    apply List.in_map_iff in Hp as (s' & [= ->] & Hs). apply list_elem_of_In, Hs.
  - intros Hs. exists (PStr s). split.
    + apply List.in_map, list_elem_of_In, Hs.
    + simpl. apply String.eqb_refl.
Qed.

(** What the loop adds for an array against an array: the weight times the
    number of elements of the product's array that occur in the selection,
    over the length of the selection. *)
Lemma array_credit product categoryId filterValues pl acc :
  Filter.productValue product categoryId = VArr pl ->
  (scoreStep product acc (categoryId, SArr filterValues)).2
  = num_add acc.2
      (num_mul (weightOf categoryId)
         (num_div (num_of_nat (List.length (List.filter (array_includes filterValues) pl)))
                  (num_of_nat (List.length filterValues)))).
Proof. intros Hv. unfold scoreStep. simpl. rewrite Hv. reflexivity. Qed.

(** The example of the specification: [['many', 'standard']] against
    [['standard', 'few']] earns half of the weight 1.5. *)
Example weapon_overlap_half :
  num_eqv (scoreStep (weapons ["many"; "standard"]) (Fin 0, Fin 0)
             ("weaponCount", SArr [PStr "standard"; PStr "few"])).2
          (num_mul (weightOf "weaponCount") (Fin (1 # 2))).
Proof. vm_compute. reflexivity. Qed.

Lemma size_add (s : string) (X : gset string) :
  s ∉ X -> size ({[s]} ∪ X) = S (size X).
Proof.
  intros Hs. rewrite size_union.
  - rewrite size_singleton. reflexivity.
  - intros x Hx. apply elem_of_singleton in Hx. subst x. exact Hs.
Qed.

(** On arrays of pairwise distinct strings the two lengths of the quotient
    are the sizes of the intersection and of the selection. *)
Lemma overlap_is_intersection (l fs : list string) :
  NoDup l -> NoDup fs ->
  List.length (List.filter (array_includes (List.map PStr fs))
                           (List.map (fun s => VPrim (PStr s)) l))
  = size (list_to_set l ∩ list_to_set fs : gset string) /\
  List.length (List.map PStr fs) = size (list_to_set fs : gset string).
Proof.
  intros Hl Hfs. split.
  - rewrite List.filter_map_swap, List.length_map.
    induction Hl as [|s l Hs Hl IH].
    + rewrite list_to_set_nil, intersection_empty_l_L, size_empty. reflexivity.
    + rewrite list_to_set_cons. cbn [List.filter].
      destruct (array_includes _ _) eqn:E.
      * apply array_includes_strings in E. cbn [List.length]. rewrite IH.
        replace (({[s]} ∪ list_to_set l) ∩ list_to_set fs : gset string)
          with ({[s]} ∪ (list_to_set l ∩ list_to_set fs) : gset string).
        -- rewrite size_add; [reflexivity|].
           rewrite elem_of_intersection, elem_of_list_to_set. tauto.
        -- apply set_eq. intros x.
           rewrite elem_of_union, !elem_of_intersection, elem_of_union,
             elem_of_singleton, !elem_of_list_to_set.
           split; [intros [->|[? ?]]; tauto|tauto].
      * assert (Hn : s ∉ fs).
        { intros Hin. apply array_includes_strings in Hin. congruence. }
        rewrite IH. f_equal. apply set_eq. intros x.
        rewrite !elem_of_intersection, elem_of_union, elem_of_singleton,
          !elem_of_list_to_set.
        split; [tauto|]. intros [[->|?] ?]; [contradiction|tauto].
  - rewrite List.length_map. symmetry. apply size_list_to_set, Hfs.
Qed.

Lemma overlap_distinct_le (fl : list prim) (l : list string) :
  NoDup l ->
  (List.length (List.filter (array_includes fl) (List.map (fun s => VPrim (PStr s)) l))
   <= List.length fl)%nat.
Proof.
  intros Hnd. apply NoDup_ListNoDup in Hnd.
  rewrite List.filter_map_swap, List.length_map.
  set (l' := List.filter _ l).
  rewrite <- (List.length_map PStr l').
  apply List.NoDup_incl_length.
  - apply Injective_map_NoDup; [intros x y; congruence|].
    apply List.NoDup_filter, Hnd.
  - intros p Hp. apply List.in_map_iff in Hp as (s & <- & Hs).
    apply List.filter_In in Hs as [_ Hs].
    unfold array_includes in Hs. apply List.existsb_exists in Hs as (q & Hq & Heq).
    simpl in Heq. apply same_value_zero_str in Heq. subst q. exact Hq.
Qed.

Lemma Qeq_bool_0_pos (w : Q) : (0 < w)%Q -> Qeq_bool w 0 = false.
Proof.
  intros H. destruct (Qeq_bool w 0) eqn:E; [|reflexivity].
  apply Qeq_bool_eq in E. rewrite E in H. discriminate.
Qed.

(** A turn of the loop keeps [0 <= matchedWeight <= totalWeight] and makes
    [totalWeight] grow, when the id names no member of [Object.prototype],
    the selection is not an empty array and the product's value is not an
    array with a repeated value. *)
Lemma scoreStep_invariant product (tw mw : Q) (k : string) (values : selection) :
  inherited k = false ->
  (1 <= activeCount values)%nat ->
  distinct_strings (Filter.productValue product k) ->
  (0 <= mw)%Q -> (mw <= tw)%Q ->
  exists tw' mw' : Q,
    scoreStep product (Fin tw, Fin mw) (k, values) = (Fin tw', Fin mw') /\
    (0 <= mw')%Q /\ (mw' <= tw')%Q /\ (tw < tw')%Q.
Proof.
  intros Hown Hne Hd H0 Hle.
  destruct (weightOf_positive k Hown) as (w & Hw & Hpos).
  unfold scoreStep. simpl. rewrite Hw.
  destruct (strict_eq _ _).
  { exists (tw + w)%Q, mw. repeat split; try lra. }
  destruct values as [fl|lo hi].
  - destruct (Filter.productValue product k) as [p|pl|o] eqn:Hv.
    + destruct (array_includes _ _).
      * exists (tw + w)%Q, (mw + w)%Q. repeat split; try lra; reflexivity.
      * exists (tw + w)%Q, mw. repeat split; try lra; reflexivity.
    + destruct Hd as (l & -> & Hnd).
      pose proof (overlap_distinct_le fl l Hnd) as Hk.
      set (kk := List.length (List.filter _ _)) in *.
      simpl in Hne.
      unfold num_of_nat, num_div, num_mul, num_add.
      assert (Hn : (0 < inject_Z (Z.of_nat (List.length fl)))%Q).
      { unfold Qlt. simpl. lia. }
      rewrite (Qeq_bool_0_pos _ Hn).
      eexists _, _. split; [reflexivity|].
      assert (Hfrac : (0 <= inject_Z (Z.of_nat kk) / inject_Z (Z.of_nat (List.length fl)) <= 1)%Q).
      { split.
        - apply Qle_shift_div_l; [exact Hn|]. rewrite Qmult_0_l. unfold Qle. simpl. lia.
        - apply Qle_shift_div_r; [exact Hn|]. rewrite Qmult_1_l. unfold Qle. simpl. lia. }
      set (f := (inject_Z (Z.of_nat kk) / inject_Z (Z.of_nat (List.length fl)))%Q) in *.
      assert (0 <= w * f)%Q by (apply Qmult_le_0_compat; lra).
      assert (w * f <= w)%Q.
      { rewrite <- (Qmult_1_r w) at 2. apply Qmult_le_l; lra. }
      repeat split; lra.
    + destruct (array_includes _ _).
      * exists (tw + w)%Q, (mw + w)%Q. repeat split; try lra; reflexivity.
      * exists (tw + w)%Q, mw. repeat split; try lra; reflexivity.
  - destruct (negb _).
    + destruct (_ && _).
      * exists (tw + w)%Q, (mw + w)%Q. repeat split; try lra; reflexivity.
      * exists (tw + w)%Q, mw. repeat split; try lra; reflexivity.
    + exists (tw + w)%Q, mw. repeat split; try lra; reflexivity.
Qed.

Lemma weights_invariant product (l : list (string * selection)) :
  forall tw mw : Q,
  List.Forall (fun e => inherited e.1 = false /\
                        (1 <= activeCount e.2)%nat /\
                        distinct_strings (Filter.productValue product e.1)) l ->
  (0 <= mw)%Q -> (mw <= tw)%Q ->
  exists tw' mw' : Q,
    foldl (scoreStep product) (Fin tw, Fin mw) l = (Fin tw', Fin mw') /\
    (0 <= mw')%Q /\ (mw' <= tw')%Q /\ (tw <= tw')%Q /\ (l <> [] -> (tw < tw')%Q).
Proof.
  induction l as [|[k values] l IH]; intros tw mw Hall H0 Hle.
  - exists tw, mw. split; [reflexivity|]. repeat split; try lra. congruence.
  - inversion Hall as [|e l' (Hown & Hne & Hd) Hrest]; subst.
    destruct (scoreStep_invariant product tw mw k values Hown Hne Hd H0 Hle)
      as (tw1 & mw1 & Hstep & H0' & Hle' & Hgrow).
    destruct (IH tw1 mw1 Hrest H0' Hle') as (tw2 & mw2 & Hfold & ? & ? & ? & _).
    exists tw2, mw2. simpl. rewrite Hstep, Hfold.
    repeat split; try lra; reflexivity.
Qed.

(** With a weight that is an inherited member, [totalWeight] is no number
    from that turn of the loop on. *)
Lemma totalWeight_NaN product (l : list (string * selection)) :
  forall acc : num * num,
  (acc.1 = NaN \/ exists e, e ∈ l /\ inherited e.1 = true) ->
  (foldl (scoreStep product) acc l).1 = NaN.
Proof.
  induction l as [|e l IH]; intros acc H; simpl.
  - destruct H as [H|(e & He & _)]; [exact H|inversion He].
  - apply IH. rewrite scoreStep_totalWeight.
    destruct H as [H|(e' & He' & Hin)].
    + left. rewrite H. reflexivity.
    + apply elem_of_cons in He' as [->|He'].
      * left. rewrite (proj2 (weightOf_inherited _ Hin)).
        destruct acc.1; reflexivity.
      * right. exists e'. split; assumption.
Qed.

(** An active category whose id names a member of [Object.prototype]
    makes the score [NaN], whatever the product and the other filters. *)
Lemma inherited_name_scores_NaN (product : gmap string jsval)
    (filters : gmap string selection) (k : string) :
  is_Some (filters !! k) -> inherited k = true ->
  calculateMatchScore product filters = NaN.
Proof.
  intros [values Hk] Hin. unfold calculateMatchScore.
  assert (Hmem : (k, values) ∈ map_to_list filters) by (apply elem_of_map_to_list, Hk).
  destruct (map_to_list filters) as [|e l] eqn:E; [inversion Hmem|].
  cbn [List.length Nat.eqb]. unfold weights. rewrite E.
  pose proof (totalWeight_NaN product (e :: l) (Fin 0, Fin 0)) as Ht.
  destruct (foldl (scoreStep product) (Fin 0, Fin 0) (e :: l)) as [tw mw].
  simpl in Ht. rewrite Ht.
  - unfold percentage. cbn [num_strict_eq]. destruct mw; reflexivity.
  - right. exists (k, values). split; [exact Hmem|exact Hin].
Qed.

(** X15.  Where no product array repeats a value and no selection is an
    empty array, the score is an integer from 0 to 100, unless the id of
    an active category names a member of [Object.prototype]: the score is
    then [NaN]. *)
Theorem score_bounded (product : gmap string jsval) (filters : gmap string selection) :
  nonempty_selections filters ->
  (forall k values, filters !! k = Some values ->
     distinct_strings (Filter.productValue product k)) ->
  ((forall k, is_Some (filters !! k) -> inherited k = false) ->
   exists z : Z, calculateMatchScore product filters = Fin (inject_Z z) /\ (0 <= z <= 100)%Z) /\
  ((exists k, is_Some (filters !! k) /\ inherited k = true) ->
   calculateMatchScore product filters = NaN).
Proof.
  intros Hne Hd. split.
  2:{ intros (k & Hk & Hin). exact (inherited_name_scores_NaN product filters k Hk Hin). }
  intros Hown. unfold calculateMatchScore.
  destruct (List.length (map_to_list filters) =? 0)%nat eqn:Hlen.
  { exists 0%Z. split; [reflexivity|lia]. }
  assert (Hall : List.Forall (fun e => inherited e.1 = false /\
                   (1 <= activeCount e.2)%nat /\
                   distinct_strings (Filter.productValue product e.1)) (map_to_list filters)).
  { apply List.Forall_forall. intros [k values] Hin.
    apply list_elem_of_In, elem_of_map_to_list in Hin. split; [|split].
    - apply Hown. exists values. exact Hin.
    - exact (Hne k values Hin).
    - exact (Hd k values Hin). }
  destruct (weights_invariant product _ 0%Q 0%Q Hall) as (tw & mw & Hfold & H0 & Hle & _ & Hpos);
    [lra|lra|].
  assert (Htw : (0 < tw)%Q).
  { apply Hpos. intros E. rewrite E in Hlen. discriminate. }
  unfold weights. rewrite Hfold.
  cbv [percentage num_strict_eq num_div num_mul Math_round].
  rewrite (Qeq_bool_0_pos tw Htw).
  eexists. split; [reflexivity|].
  assert (Hr : (0 <= mw / tw <= 1)%Q).
  { split.
    - apply Qle_shift_div_l; [exact Htw|]. lra.
    - apply Qle_shift_div_r; [exact Htw|]. lra. }
  set (r := (mw / tw)%Q) in *. clearbody r. destruct Hr as [Hr0 Hr1].
  split.
  - apply (Z.le_trans _ (Qfloor (1 # 2))); [discriminate|].
    apply Qfloor_resp_le. lra.
  - apply (Z.le_trans _ (Qfloor (201 # 2))); [|discriminate].
    apply Qfloor_resp_le. lra.
Qed.

Lemma num_eqv_refl (a : num) : num_eqv a a.
Proof. destruct a; simpl; [exact I|reflexivity|reflexivity]. Qed.

Lemma num_eqv_sym (a b : num) : num_eqv a b -> num_eqv b a.
Proof. destruct a, b; simpl; try tauto; intros H; symmetry; exact H. Qed.

Lemma num_eqv_trans (a b c : num) : num_eqv a b -> num_eqv b c -> num_eqv a c.
Proof.
  destruct a, b, c; simpl; try tauto; intros H1 H2.
  - rewrite H1. exact H2.
  - congruence.
Qed.

Lemma num_add_proper (a a' b : num) : num_eqv a a' -> num_eqv (num_add a b) (num_add a' b).
Proof.
  destruct a as [|x|s], a' as [|x'|s'], b as [|y|t]; simpl; try tauto; intros H.
  - rewrite H. reflexivity.
  - subst. destruct (Bool.eqb _ _); simpl; [reflexivity|exact I].
Qed.

Lemma num_add_swap (a b c : num) :
  num_eqv (num_add (num_add a b) c) (num_add (num_add a c) b).
Proof.
  destruct a as [|x|[]], b as [|y|[]], c as [|z|[]]; simpl; try exact I; try reflexivity.
  ring.
Qed.

Lemma weights_eqv_refl a : weights_eqv a a.
Proof. split; apply num_eqv_refl. Qed.

Lemma weights_eqv_trans a b c : weights_eqv a b -> weights_eqv b c -> weights_eqv a c.
Proof. intros [H1 H2] [H3 H4]. split; eapply num_eqv_trans; eassumption. Qed.

(** A turn of the loop adds the weight to [totalWeight] and either leaves
    [matchedWeight] or adds to it a number that does not depend on the two
    sums. *)
Lemma scoreStep_delta product entry :
  exists c : option num, forall acc,
    scoreStep product acc entry
    = (num_add acc.1 (weightOf entry.1),
       match c with Some x => num_add acc.2 x | None => acc.2 end).
Proof.
  unfold scoreStep.
  destruct (strict_eq _ _); [exists None; reflexivity|].
  destruct entry.2 as [fl|lo hi].
  - destruct (Filter.productValue product entry.1) as [p|pl|o].
    + destruct (array_includes _ _); [eexists (Some _)|exists None]; reflexivity.
    + eexists (Some _). reflexivity.
    + destruct (array_includes _ _); [eexists (Some _)|exists None]; reflexivity.
  - destruct (negb _); [|exists None; reflexivity].
    destruct (_ && _); [eexists (Some _)|exists None]; reflexivity.
Qed.

Lemma scoreStep_proper product entry a a' :
  weights_eqv a a' -> weights_eqv (scoreStep product a entry) (scoreStep product a' entry).
Proof.
  intros [H1 H2]. destruct (scoreStep_delta product entry) as [c Hc].
  rewrite !Hc. split; simpl.
  - apply num_add_proper, H1.
  - destruct c; [apply num_add_proper, H2|exact H2].
Qed.

(** Two turns of the loop commute, and so the sums do not depend on the
    order in which [Object.entries] lists the filters. *)
Lemma scoreStep_swap product e1 e2 a :
  weights_eqv (scoreStep product (scoreStep product a e1) e2)
              (scoreStep product (scoreStep product a e2) e1).
Proof.
  destruct (scoreStep_delta product e1) as [c1 H1].
  destruct (scoreStep_delta product e2) as [c2 H2].
  repeat (rewrite H1 || rewrite H2). split; simpl.
  - apply num_add_swap.
  - destruct c1, c2; try apply num_eqv_refl. apply num_add_swap.
Qed.

Lemma foldl_scoreStep_proper product l :
  forall a a', weights_eqv a a' ->
    weights_eqv (foldl (scoreStep product) a l) (foldl (scoreStep product) a' l).
Proof.
  induction l as [|e l IH]; intros a a' H; simpl; [exact H|].
  apply IH, scoreStep_proper, H.
Qed.

Lemma foldl_scoreStep_perm product l1 l2 :
  l1 ≡ₚ l2 ->
  forall a, weights_eqv (foldl (scoreStep product) a l1) (foldl (scoreStep product) a l2).
Proof.
  induction 1 as [|e l1 l2 _ IH|e1 e2 l|l1 l2 l3 _ IH1 _ IH2]; intros a; simpl.
  - apply weights_eqv_refl.
  - apply IH.
  - apply foldl_scoreStep_proper, scoreStep_swap.
  - eapply weights_eqv_trans; [apply IH1|apply IH2].
Qed.

Lemma foldl_scoreStep_shift product l :
  forall a w,
    weights_eqv (foldl (scoreStep product) (num_add a.1 w, a.2) l)
                (num_add (foldl (scoreStep product) a l).1 w,
                 (foldl (scoreStep product) a l).2).
Proof.
  induction l as [|e l IH]; intros a w; simpl; [apply weights_eqv_refl|].
  eapply weights_eqv_trans; [|apply (IH (scoreStep product a e) w)].
  apply foldl_scoreStep_proper.
  destruct (scoreStep_delta product e) as [c Hc]. rewrite !Hc. simpl.
  split; simpl; [apply num_add_swap|apply num_eqv_refl].
Qed.

Lemma percentage_proper a b : weights_eqv a b -> percentage a = percentage b.
Proof.
  destruct a as [t m], b as [t' m']. intros [Ht Hm]. simpl in Ht, Hm.
  unfold percentage.
  destruct t as [|t|s], t' as [|t'|s']; simpl in Ht; try contradiction; subst;
    cbn [num_strict_eq].
  - destruct m as [|m|r], m' as [|m'|r']; simpl in Hm; try contradiction; reflexivity.
  - rewrite (Qeqb_comp _ _ Ht 0%Q 0%Q (Qeq_refl 0)).
    destruct (Qeq_bool t' 0) eqn:Hz; [reflexivity|].
    destruct m as [|m|r], m' as [|m'|r']; simpl in Hm; try contradiction; subst;
      cbn [num_div num_mul Math_round]; try reflexivity.
    + rewrite (Qeqb_comp _ _ Ht 0%Q 0%Q (Qeq_refl 0)), Hz.
      cbn [num_mul Math_round].
      do 2 f_equal. apply Qfloor_comp. rewrite Ht, Hm. reflexivity.
    + unfold Qlt_bool. rewrite (Qleb_comp 0%Q 0%Q (Qeq_refl 0) _ _ Ht). reflexivity.
  - destruct m as [|m|r], m' as [|m'|r']; simpl in Hm; try contradiction; subst;
      cbn [num_div num_mul Math_round]; reflexivity.
Qed.

(** C6.  With the built-in weights (difficulty 3, mobility 2.5) and the
    selection [{difficulty: ['beginner'], mobility: {min: 3, max: 5}}], a
    product with difficulty beginner and mobility 4 scores 100, and one with
    difficulty advanced and mobility 4 scores 45, from a matched weight of
    2.5 out of a total weight of 5.5. *)
Theorem scenario_scores :
  weightOf "difficulty" = Fin 3 /\
  weightOf "mobility" = Fin (5 # 2) /\
  calculateMatchScore productA filters = Fin 100 /\
  calculateMatchScore productB filters = Fin 45 /\
  num_eqv (weights productB filters).1 (Fin (11 # 2)) /\
  num_eqv (weights productB filters).2 (Fin (5 # 2)).
Proof. vm_compute. repeat split; reflexivity. Qed.




(** C2, as stated, fails.  The product [productC] has no difficulty, yet the
    difficulty filter takes its score from 100 down to 45: the weight 3 went
    into [totalWeight]. *)
Lemma missing_value_lowers_score :
  Filter.productValue productC "difficulty" = undefined /\
  calculateMatchScore productC filters = Fin 45 /\
  calculateMatchScore productC (delete "difficulty" filters) = Fin 100 /\
  calculateMatchScore productC filters
  <> calculateMatchScore productC (delete "difficulty" filters).
Proof. vm_compute. repeat split; try reflexivity. discriminate. Qed.

(** C2, amended.  When the product has no value for an active category,
    the turn of the loop for that category adds the category's weight to
    [totalWeight] and leaves [matchedWeight] as it is: the category counts
    as a mismatch.  The sums with the category are those without it, with
    the weight added to [totalWeight], and the score is their percentage. *)
Theorem missing_value_counts_in_total
    (product : gmap string jsval) (filters : gmap string selection)
    (categoryId : string) (values : selection) :
  filters !! categoryId = None ->
  Filter.productValue product categoryId = undefined ->
  (forall acc, scoreStep product acc (categoryId, values)
               = (num_add acc.1 (weightOf categoryId), acc.2)) /\
  weights_eqv (weights product (<[categoryId := values]> filters))
              (num_add (weights product filters).1 (weightOf categoryId),
               (weights product filters).2) /\
  calculateMatchScore product (<[categoryId := values]> filters)
  = percentage (num_add (weights product filters).1 (weightOf categoryId),
                (weights product filters).2).
Proof.
  intros Hfresh Hmissing.
  assert (Hstep : forall acc, scoreStep product acc (categoryId, values)
                              = (num_add acc.1 (weightOf categoryId), acc.2)).
  { intros acc. unfold scoreStep. simpl. rewrite Hmissing. reflexivity. }
  pose proof (map_to_list_insert filters categoryId values Hfresh) as Hperm.
  assert (Hweights : weights_eqv (weights product (<[categoryId := values]> filters))
                       (num_add (weights product filters).1 (weightOf categoryId),
                        (weights product filters).2)).
  { unfold weights.
    eapply weights_eqv_trans; [apply (foldl_scoreStep_perm product _ _ Hperm)|].
    simpl. rewrite Hstep.
    apply (foldl_scoreStep_shift product _ (Fin 0, Fin 0)). }
  split; [exact Hstep|]. split; [exact Hweights|].
  unfold calculateMatchScore.
  rewrite (Permutation_length Hperm). cbn [List.length Nat.eqb].
  apply percentage_proper, Hweights.
Qed.

(** The theorem above, at a concrete input. *)
Lemma missing_value_counts_in_total_witness :
  (forall acc, scoreStep productC acc ("difficulty", SArr [PStr "beginner"])
               = (num_add acc.1 (weightOf "difficulty"), acc.2)) /\
  weights_eqv
    (weights productC (<["difficulty" := SArr [PStr "beginner"]]> (delete "difficulty" filters)))
    (num_add (weights productC (delete "difficulty" filters)).1 (weightOf "difficulty"),
     (weights productC (delete "difficulty" filters)).2) /\
  calculateMatchScore productC
    (<["difficulty" := SArr [PStr "beginner"]]> (delete "difficulty" filters))
  = percentage (num_add (weights productC (delete "difficulty" filters)).1
                        (weightOf "difficulty"),
                (weights productC (delete "difficulty" filters)).2).
Proof.
  apply (missing_value_counts_in_total productC (delete "difficulty" filters)
           "difficulty" (SArr [PStr "beginner"])).
  - vm_compute. reflexivity.
  - vm_compute. reflexivity.
Defined.

(** C4 fails on the code.  A product whose [weaponCount] array repeats a
    value scores 200 against the selection [{weaponCount: ['many']}]: both
    copies are counted in [overlap]. *)
Theorem repeated_value_scores_200 :
  calculateMatchScore (weapons ["many"; "many"])
                      (list_to_map [("weaponCount", SArr [PStr "many"])])
  = Fin 200.
Proof. vm_compute. reflexivity. Qed.

(** C5 fails on the code.  The same repeated value, against the selection
    [['many', 'few']], earns the whole weight 1.5 where the intersection
    [{many}] out of a selection of two gives half of it. *)
Theorem repeated_value_earns_full_weight :
  List.length (List.filter (array_includes [PStr "many"; PStr "few"])
                           (List.map str ["many"; "many"])) = 2%nat /\
  num_eqv (scoreStep (weapons ["many"; "many"]) (Fin 0, Fin 0)
             ("weaponCount", SArr [PStr "many"; PStr "few"])).2
          (Fin (3 # 2)) /\
  num_eqv (scoreStep (weapons ["many"]) (Fin 0, Fin 0)
             ("weaponCount", SArr [PStr "many"; PStr "few"])).2
          (Fin (3 # 4)).
Proof. vm_compute. repeat split; reflexivity. Qed.

End Score.

(** ** Properties of the match predicate *)

Section Match.
Import JS Filter Session Examples.

Lemma append_cons (c : ascii) (a b : string) : String c a ++ b = String c (a ++ b).
Proof. reflexivity. Qed.

Lemma append_nil (b : string) : "" ++ b = b.
Proof. reflexivity. Qed.

Lemma prefix_spec (n s : string) :
  String.prefix n s = true <-> exists b, s = n ++ b.
Proof.
  revert s. induction n as [|c n IH]; intros s.
  - split; [intros _; exists s; reflexivity|intros _; destruct s; reflexivity].
  - destruct s as [|d s]; simpl.
    + split; [discriminate|intros [b Hb]; discriminate].
    + destruct (ascii_dec c d) as [->|Hne].
      * rewrite IH. split; intros [b Hb]; exists b;
          rewrite append_cons in *; congruence.
      * split; [discriminate|]. intros [b Hb]. rewrite append_cons in Hb. congruence.
Qed.

Lemma includes_nil (n : string) : includes "" n = String.prefix n "" || false.
Proof. reflexivity. Qed.

Lemma includes_cons (c : ascii) (s n : string) :
  includes (String c s) n = String.prefix n (String c s) || includes s n.
Proof. reflexivity. Qed.

(** [includes] is the substring test. *)
Lemma includes_spec (s n : string) :
  includes s n = true <-> exists a b, s = a ++ n ++ b.
Proof.
  split.
  - induction s as [|c s IH].
    + rewrite includes_nil, orb_true_iff. intros [H|H]; [|discriminate].
      apply prefix_spec in H as [b Hb]. exists "", b. exact Hb.
    + rewrite includes_cons, orb_true_iff. intros [H|H].
      * apply prefix_spec in H as [b Hb]. exists "", b. exact Hb.
      * destruct (IH H) as (a & b & ->). exists (String c a), b. reflexivity.
  - intros (a & b & ->). induction a as [|c a IH].
    + rewrite append_nil.
      assert (Hp : String.prefix n (n ++ b) = true) by (apply prefix_spec; exists b; reflexivity).
      destruct (n ++ b); [rewrite includes_nil|rewrite includes_cons]; rewrite Hp; reflexivity.
    + rewrite append_cons, includes_cons, IH. apply orb_true_r.
Qed.

(** With no text query, the predicate is the conjunction of the tests of
    the active categories. *)
Lemma matchesFilters_categories (currentLang : string) (st : state)
    (product : gmap string jsval) :
  searchQuery st = "" ->
  (matchesFilters currentLang st product = Some true <->
   forall k values, activeFilters st !! k = Some values ->
     matchesCategory (taxonomy st) product k values = true).
Proof.
  intros Hq. unfold matchesFilters. rewrite Hq. simpl.
  split.
  - intros [= H] k values Hk.
    rewrite List.forallb_forall in H.
    apply (H (k, values)), list_elem_of_In, elem_of_map_to_list, Hk.
  - intros H. f_equal. apply List.forallb_forall. intros [k values] Hin.
    apply H, elem_of_map_to_list, list_elem_of_In, Hin.
Qed.

(** A range filter with numeric bounds against a numeric product value is
    the test [min <= value <= max], both ends included. *)
Lemma range_filter_on_numbers tax product k category (a b v : Q) :
  find_category tax k = Some category ->
  cat_type category = "range" ->
  productValue product k = VPrim (PNum (Fin v)) ->
  (matchesCategory tax product k (SRange (PNum (Fin a)) (PNum (Fin b))) = true
   <-> (a <= v)%Q /\ (v <= b)%Q).
Proof.
  intros Hc Ht Hv. unfold matchesCategory. rewrite Hc, Ht, Hv. simpl.
  unfold js_lt, js_gt. simpl. unfold Qlt_bool.
  rewrite negb_true_iff, orb_false_iff, <- !Qle_bool_iff.
  destruct (Qle_bool a v), (Qle_bool v b); simpl; intuition congruence.
Qed.

Lemma js_lt_undefined (p : prim) : js_lt undefined (VPrim p) = false.
Proof. unfold js_lt. simpl. destruct p; reflexivity. Qed.

Lemma js_gt_undefined (p : prim) : js_gt undefined (VPrim p) = false.
Proof.
  unfold js_gt. simpl. destruct p as [| |[]|n|s]; simpl; try reflexivity.
  - destruct n; reflexivity.
  - destruct (StringToNumber s); reflexivity.
Qed.

(** A range filter lets a product without a value through: both
    comparisons with [undefined] are false. *)
Lemma range_filter_on_missing_value tax product k category (lo hi : prim) :
  find_category tax k = Some category ->
  cat_type category = "range" ->
  productValue product k = undefined ->
  matchesCategory tax product k (SRange lo hi) = true.
Proof.
  intros Hc Ht Hv. unfold matchesCategory.
  rewrite Hc, Ht, Hv, String.eqb_refl, js_lt_undefined, js_gt_undefined.
  destruct (negb _); reflexivity.
Qed.

(** C1 fails on the code.  The product [productD] has no mobility, and the
    range filter [{min: 3, max: 5}] on mobility keeps it: [matchesFilters]
    returns [true] where the claim has [false]. *)
Theorem range_filter_keeps_missing_value :
  productValue productD "mobility" = undefined /\
  activeFilters (setRangeFilter "mobility" (PNum (Fin 3)) (PNum (Fin 5)) (initial tax))
    !! "mobility" = Some (SRange (PNum (Fin 3)) (PNum (Fin 5))) /\
  matchesFilters "ko"
    (setRangeFilter "mobility" (PNum (Fin 3)) (PNum (Fin 5)) (initial tax))
    productD = Some true.
Proof. vm_compute. repeat split; reflexivity. Qed.

(** C9, as stated, fails.  The query [rx78] is not a substring of the id
    [hg-rx-78-2-revive], nor of the other fields of [rx78], and the product
    is excluded. *)
Lemma rx78_query_excludes_rx_78_2 :
  get_prop (VObj rx78) "id" = str "hg-rx-78-2-revive" /\
  searchQuery (setSearchQuery "rx78" (initial tax)) = "rx78" /\
  includes "hg-rx-78-2-revive" "rx78" = false /\
  matchesFilters "ko" (setSearchQuery "rx78" (initial tax)) rx78 = Some false.
Proof. vm_compute. repeat split; reflexivity. Qed.

(** C9, amended.  With a non-empty query and a product whose name, id,
    model number, grade and series are strings (or missing), the product
    passes if and only if the stored query is a substring of one of these
    fields in lower case and every active category passes; when no field
    contains the query the product is excluded whatever the categories.
    In particular the query [rx-78] matches the product whose id is
    [hg-rx-78-2-revive], and the query [rx78] does not. *)
Theorem text_query_is_substring_match (currentLang : string) (st : state)
    (product : gmap string jsval) (fields : list string) :
  searchQuery st <> "" ->
  searchFields currentLang product = Some fields ->
  (matchesFilters currentLang st product = Some true <->
   (exists field a b, field ∈ fields /\ field = a ++ searchQuery st ++ b) /\
   (forall k values, activeFilters st !! k = Some values ->
      matchesCategory (taxonomy st) product k values = true)) /\
  ((forall field a b, field ∈ fields -> field <> a ++ searchQuery st ++ b) ->
   matchesFilters currentLang st product = Some false) /\
  matchesFilters "ko" (setSearchQuery "rx-78" (initial tax)) rx78 = Some true /\
  matchesFilters "ko" (setSearchQuery "rx78" (initial tax)) rx78 = Some false.
Proof.
  intros Hq Hf.
  assert (Hne : negb (String.eqb (searchQuery st) "") = true).
  { apply negb_true_iff, String.eqb_neq, Hq. }
  assert (Hex : existsb (fun field => includes field (searchQuery st)) fields = true
                <-> exists field a b, field ∈ fields /\ field = a ++ searchQuery st ++ b).
  { rewrite List.existsb_exists. split.
    - intros (f & Hin & Hinc). apply includes_spec in Hinc as (a & b & E).
      exists f, a, b. split; [apply list_elem_of_In, Hin|exact E].
    - intros (f & a & b & Hin & E). exists f. split; [apply list_elem_of_In, Hin|].
      apply includes_spec. exists a, b. exact E. }
  split; [|split; [|split; vm_compute; reflexivity]].
  - unfold matchesFilters. rewrite Hne, Hf.
    destruct (existsb _ fields) eqn:E.
    + split.
      * intros [= H]. split; [apply Hex; reflexivity|].
        intros k values Hk. rewrite List.forallb_forall in H.
        apply (H (k, values)), list_elem_of_In, elem_of_map_to_list, Hk.
      * intros [_ H]. f_equal. apply List.forallb_forall. intros [k values] Hin.
        apply H, elem_of_map_to_list, list_elem_of_In, Hin.
    + split; [discriminate|]. intros [H _]. apply Hex in H. discriminate.
  - intros Hnone. unfold matchesFilters. rewrite Hne, Hf.
    destruct (existsb _ fields) eqn:E; [|reflexivity].
    destruct (proj1 Hex eq_refl) as (f & a & b & Hin & Heq).
    destruct (Hnone f a b Hin Heq).
Qed.

(** The theorem above, at a concrete input. *)
Lemma text_query_is_substring_match_witness :
  (matchesFilters "en" (setSearchQuery " RX-78" (initial tax)) rx78 = Some true <->
   (exists field a b,
      field ∈ ["rx-78-2 gundam"; "hg-rx-78-2-revive"; "rx-78-2"; "hg"; "mobile suit gundam"] /\
      field = a ++ searchQuery (setSearchQuery " RX-78" (initial tax)) ++ b) /\
   (forall k values,
      activeFilters (setSearchQuery " RX-78" (initial tax)) !! k = Some values ->
      matchesCategory (taxonomy (setSearchQuery " RX-78" (initial tax))) rx78 k values
      = true)) /\
  ((forall field a b,
      field ∈ ["rx-78-2 gundam"; "hg-rx-78-2-revive"; "rx-78-2"; "hg"; "mobile suit gundam"] ->
      field <> a ++ searchQuery (setSearchQuery " RX-78" (initial tax)) ++ b) ->
   matchesFilters "en" (setSearchQuery " RX-78" (initial tax)) rx78 = Some false) /\
  matchesFilters "ko" (setSearchQuery "rx-78" (initial tax)) rx78 = Some true /\
  matchesFilters "ko" (setSearchQuery "rx78" (initial tax)) rx78 = Some false.
Proof.
  apply (text_query_is_substring_match "en" (setSearchQuery " RX-78" (initial tax)) rx78).
  - vm_compute. discriminate.
  - vm_compute. reflexivity.
Defined.

End Match.

(** ** Properties of the filter state *)

Section State.
Import JS Filter Session Examples.

Lemma split_nonempty (sep : ascii) (s : string) : split sep s <> [].
Proof.
  destruct s as [|c t]; simpl; [discriminate|].
  destruct (Ascii.eqb c sep); [discriminate|].
  destruct (split sep t); discriminate.
Qed.

Lemma parse_value_counts (category : category) (value : string) :
  (1 <= activeCount (parse_value category value))%nat.
Proof.
  unfold parse_value.
  destruct (String.eqb (cat_type category) "range" && includes value "-").
  - destruct (List.map StringToNumber (split "-" value)) as [|lo [|hi rest]]; simpl; lia.
  - simpl. rewrite List.length_map.
    pose proof (split_nonempty "," value) as H.
    destruct (split "," value); [contradiction|simpl; lia].
Qed.

Lemma setFilter_nonempty categoryId value isActive st st' :
  nonempty_selections (activeFilters st) ->
  setFilter categoryId value isActive st = Some st' ->
  nonempty_selections (activeFilters st').
Proof.
  unfold nonempty_selections, setFilter. intros Hinv.
  destruct (activeFilters st !! categoryId) as [[l|lo hi]|] eqn:Hk.
  - rewrite Hk. destruct isActive.
    + destruct (array_includes l (VPrim value)); intros [= <-]; simpl; [exact Hinv|].
      apply map_Forall_insert_2; [|exact Hinv].
      simpl. rewrite List.length_app. simpl. lia.
    + destruct (List.length _ =? 0)%nat eqn:Hlen; intros [= <-]; simpl.
      * apply map_Forall_delete, Hinv.
      * apply map_Forall_insert_2; [|exact Hinv].
        simpl. apply Nat.eqb_neq in Hlen. lia.
  - rewrite Hk. discriminate.
  - destruct (inherited categoryId); [rewrite Hk; discriminate|].
    rewrite lookup_insert_eq. destruct isActive; simpl.
    + intros [= <-]. simpl. rewrite insert_insert_eq.
      apply map_Forall_insert_2; [simpl; lia|exact Hinv].
    + intros [= <-]. simpl. rewrite delete_insert_eq.
      apply map_Forall_delete, Hinv.
Qed.

Lemma restoreFromURL_nonempty params st :
  nonempty_selections (activeFilters st) ->
  nonempty_selections (activeFilters (restoreFromURL params st)).
Proof.
  unfold restoreFromURL. simpl. generalize (activeFilters st) as af.
  induction params as [|[key value] params IH]; intros af Hinv; simpl; [exact Hinv|].
  apply IH. unfold restoreParam. simpl. destruct (String.eqb key "q"); [exact Hinv|].
  destruct (find_category (taxonomy st) key); [|exact Hinv].
  apply map_Forall_insert_2; [apply parse_value_counts|exact Hinv].
Qed.

(** Every public operation keeps the selections non-empty. *)
Lemma exec_nonempty (o : op) (st : state) :
  nonempty_selections (activeFilters st) ->
  nonempty_selections (activeFilters (exec o st)).
Proof.
  intros Hinv. destruct o as [q|c v a|c v|c lo hi|c v| |params]; simpl.
  - exact Hinv.
  - destruct (setFilter c v a st) eqn:E; simpl; [|exact Hinv].
    exact (setFilter_nonempty _ _ _ _ _ Hinv E).
  - unfold toggleFilter.
    destruct (activeFilters st !! c) as [[l|? ?]|]; [| |destruct (inherited c)];
      try (destruct (setFilter c v _ st) eqn:E; simpl; [|exact Hinv];
           exact (setFilter_nonempty _ _ _ _ _ Hinv E));
      exact Hinv.
  - apply map_Forall_insert_2; [simpl; lia|exact Hinv].
  - unfold removeFilter. destruct (negb _).
    + destruct (setFilter c v false st) eqn:E; simpl; [|exact Hinv].
      exact (setFilter_nonempty _ _ _ _ _ Hinv E).
    + simpl. apply map_Forall_delete, Hinv.
  - apply map_Forall_empty.
  - apply restoreFromURL_nonempty, Hinv.
Qed.

Lemma run_nonempty (tax : option (list category)) (ops : list op) :
  nonempty_selections (activeFilters (run tax ops)).
Proof.
  unfold run.
  assert (H0 : nonempty_selections (activeFilters (initial tax))) by apply map_Forall_empty.
  revert H0. generalize (initial tax) as st.
  induction ops as [|o ops IH]; intros st Hinv; simpl; [exact Hinv|].
  apply IH, exec_nonempty, Hinv.
Qed.

(** Removing the value that all the entries of an array are equal to
    deletes the category. *)
Lemma setFilter_removes_last categoryId value l st :
  activeFilters st !! categoryId = Some (SArr l) ->
  (forall v, In v l -> prim_strict_eq v value = true) ->
  exists st', setFilter categoryId value false st = Some st' /\
              activeFilters st' !! categoryId = None.
Proof.
  intros Hk Hall. unfold setFilter. rewrite Hk, Hk.
  assert (Hnil : List.filter (fun v => negb (prim_strict_eq v value)) l = []).
  { clear Hk. induction l as [|v l IH]; [reflexivity|]. simpl.
    rewrite (Hall v (or_introl eq_refl)). simpl.
    apply IH. intros w Hw. apply Hall. right. exact Hw. }
  rewrite Hnil. simpl. eexists. split; [reflexivity|].
  simpl. apply lookup_delete_eq.
Qed.

(** C8.  After any sequence of the public operations, a category id that
    is present in [activeFilters] holds at least one value: it is never
    mapped to an empty array.  Removing its last value, by [setFilter] or
    by [removeFilter], deletes the id from the map. *)
Theorem selections_stay_nonempty (tax : option (list category)) (ops : list op)
    (categoryId : string) (values : selection) :
  activeFilters (run tax ops) !! categoryId = Some values ->
  (1 <= activeCount values)%nat /\
  values <> SArr [] /\
  (forall value l,
     values = SArr l ->
     (forall v, In v l -> prim_strict_eq v value = true) ->
     exists st1 st2,
       setFilter categoryId value false (run tax ops) = Some st1 /\
       activeFilters st1 !! categoryId = None /\
       removeFilter categoryId value (run tax ops) = Some st2 /\
       activeFilters st2 !! categoryId = None).
Proof.
  intros Hk.
  pose proof (run_nonempty tax ops categoryId values Hk) as Hcount.
  split; [exact Hcount|]. split.
  - intros ->. simpl in Hcount. lia.
  - intros value l -> Hall.
    destruct (setFilter_removes_last categoryId value l _ Hk Hall) as (st1 & Hset & Hgone).
    unfold removeFilter. destruct (negb (prim_strict_eq value PUndef)).
    + exists st1, st1. repeat split; assumption.
    + exists st1. eexists. repeat split; try eassumption.
      simpl. apply lookup_delete_eq.
Qed.

(** The theorem above, at a concrete input. *)
Lemma selections_stay_nonempty_witness :
  (1 <= activeCount (SArr [PStr "HG"]))%nat /\
  SArr [PStr "HG"] <> SArr [] /\
  (forall value l,
     SArr [PStr "HG"] = SArr l ->
     (forall v, In v l -> prim_strict_eq v value = true) ->
     exists st1 st2,
       setFilter "grade" value false
         (run tax [OpSetFilter "grade" (PStr "HG") true;
                   OpSetRangeFilter "mobility" (PNum (Fin 3)) (PNum (Fin 5));
                   OpRestoreFromURL [("difficulty", "beginner")]]) = Some st1 /\
       activeFilters st1 !! "grade" = None /\
       removeFilter "grade" value
         (run tax [OpSetFilter "grade" (PStr "HG") true;
                   OpSetRangeFilter "mobility" (PNum (Fin 3)) (PNum (Fin 5));
                   OpRestoreFromURL [("difficulty", "beginner")]]) = Some st2 /\
       activeFilters st2 !! "grade" = None).
Proof.
  apply (selections_stay_nonempty tax
           [OpSetFilter "grade" (PStr "HG") true;
            OpSetRangeFilter "mobility" (PNum (Fin 3)) (PNum (Fin 5));
            OpRestoreFromURL [("difficulty", "beginner")]]
           "grade" (SArr [PStr "HG"])).
  vm_compute. reflexivity.
Defined.

End State.

(** ** Properties of the URL state *)

Section URL.
Import JS Filter Session Examples.

Lemma restoreParam_other tax af (p : string * string) (k : string) :
  k <> p.1 -> restoreParam tax af p !! k = af !! k.
Proof.
  intros Hk. unfold restoreParam.
  destruct (String.eqb p.1 "q"); [reflexivity|].
  destruct (find_category tax p.1); [|reflexivity].
  apply lookup_insert_ne. congruence.
Qed.


Lemma restore_untouched tax (key : string) (l : list (string * string)) :
  key ∉ l.*1 ->
  forall af : gmap string selection,
    foldl (restoreParam tax) af l !! key = af !! key.
Proof.
  induction l as [|p l IH]; intros Hnotin af; simpl; [reflexivity|].
  rewrite fmap_cons, not_elem_of_cons in Hnotin. destruct Hnotin as [Hp Hl].
  rewrite (IH Hl). apply restoreParam_other, Hp.
Qed.






End URL.

(** ** The round trip through the URL *)

Section RoundTrip.
Import JS Filter Session Examples.

(** *** Digits *)

Lemma digit_differs (c d : ascii) :
  is_digit c = true -> is_digit d = false -> Ascii.eqb d c = false.
Proof.
  intros Hc Hd. apply Ascii.eqb_neq. intros ->. congruence.
Qed.

Lemma digit_differs_r (c d : ascii) :
  is_digit c = true -> is_digit d = false -> Ascii.eqb c d = false.
Proof.
  intros Hc Hd. apply Ascii.eqb_neq. intros ->. congruence.
Qed.

Lemma digit_is_no_space (c : ascii) : is_digit c = true -> is_space c = false.
Proof.
  unfold is_digit, is_space. generalize (nat_of_ascii c) as n. intros n H.
  apply andb_true_iff in H as [H1 H2].
  apply Nat.leb_le in H1. apply Nat.leb_le in H2.
  apply orb_false_iff. split.
  - apply andb_false_iff. right. apply Nat.leb_gt. lia.
  - apply Nat.eqb_neq. lia.
Qed.

Lemma string_of_uint_digits (u : Decimal.uint) :
  all_digits (NilEmpty.string_of_uint u) = true.
Proof. induction u; simpl; try reflexivity; exact IHu. Qed.

Lemma digits_of_N_all (n : N) : all_digits (digits_of_N n) = true.
Proof. apply string_of_uint_digits. Qed.

Lemma digits_of_N_nonempty (n : N) : digits_of_N n <> "".
Proof.
  unfold digits_of_N. destruct n as [|p]; [discriminate|]. simpl.
  pose proof (Unsigned.to_uint_nonnil p) as H.
  destruct (Pos.to_uint p); simpl; try discriminate. contradiction.
Qed.

Lemma digits_value_of_N (n : N) : digits_value (digits_of_N n) = n.
Proof.
  unfold digits_value, digits_of_N. rewrite NilEmpty.usu.
  apply DecimalN.Unsigned.of_to.
Qed.

Lemma has_char_digits (c : ascii) (s : string) :
  is_digit c = false -> all_digits s = true -> has_char c s = false.
Proof.
  intros Hc. induction s as [|d s IH]; simpl; [reflexivity|].
  intros H. apply andb_true_iff in H as [Hd Hs].
  rewrite (digit_differs_r d c Hd Hc). simpl. apply IH, Hs.
Qed.

Lemma trimEnd_digits (s : string) : all_digits s = true -> trimEnd s = s.
Proof.
  induction s as [|c s IH]; simpl; [reflexivity|].
  intros H. apply andb_true_iff in H as [Hc Hs].
  rewrite (IH Hs). destruct s; [|reflexivity].
  rewrite (digit_is_no_space c Hc). reflexivity.
Qed.

Lemma trim_digits (s : string) : all_digits s = true -> trim s = s.
Proof.
  intros H. unfold trim.
  assert (Hs : trimStart s = s).
  { destruct s as [|c s]; [reflexivity|]. simpl in *.
    apply andb_true_iff in H as [Hc _]. rewrite (digit_is_no_space c Hc). reflexivity. }
  rewrite Hs. apply trimEnd_digits, H.
Qed.

Lemma span_digits_all (s : string) : all_digits s = true -> span_digits s = (s, "").
Proof.
  induction s as [|c s IH]; simpl; [reflexivity|].
  intros H. apply andb_true_iff in H as [Hc Hs].
  rewrite Hc, (IH Hs). reflexivity.
Qed.

Lemma strip_prefix_digits (a b : ascii) (s : string) :
  is_digit b = false -> all_digits s = true ->
  strip_prefix (String a (String b "")) s = None.
Proof.
  intros Hb Hs. destruct s as [|c [|d s]]; simpl; try reflexivity.
  - destruct (Ascii.eqb a c); reflexivity.
  - simpl in Hs. apply andb_true_iff in Hs as [_ Hs].
    apply andb_true_iff in Hs as [Hd _].
    destruct (Ascii.eqb a c); [|reflexivity].
    rewrite (digit_differs d b Hd Hb). reflexivity.
Qed.

Lemma radix_prefixed_digits (s : string) :
  all_digits s = true -> radix_prefixed radix_prefixes s = None.
Proof.
  intros H. unfold radix_prefixes. cbn [radix_prefixed].
  rewrite (strip_prefix_digits "0" "x" s eq_refl H),
          (strip_prefix_digits "0" "X" s eq_refl H),
          (strip_prefix_digits "0" "o" s eq_refl H),
          (strip_prefix_digits "0" "O" s eq_refl H),
          (strip_prefix_digits "0" "b" s eq_refl H),
          (strip_prefix_digits "0" "B" s eq_refl H).
  reflexivity.
Qed.

(** [Number] reads back the decimal digits of a natural number. *)
Lemma StringToNumber_digits (n : N) :
  exists q : Q, StringToNumber (digits_of_N n) = Fin q /\ (q == inject_Z (Z.of_N n))%Q.
Proof.
  pose proof (digits_of_N_all n) as Hall.
  pose proof (digits_of_N_nonempty n) as Hne.
  pose proof (digits_value_of_N n) as Hval.
  unfold StringToNumber. rewrite (trim_digits _ Hall).
  destruct (digits_of_N n) as [|c t] eqn:E; [contradiction|].
  assert (Hc : is_digit c = true) by (simpl in Hall; apply andb_true_iff in Hall; tauto).
  rewrite (radix_prefixed_digits _ Hall).
  rewrite (digit_differs_r c "+" Hc eq_refl), (digit_differs_r c "-" Hc eq_refl).
  unfold signed_decimal.
  assert (Hinf : String.eqb (String c t) "Infinity" = false).
  { simpl. rewrite (digit_differs_r c "I" Hc eq_refl). reflexivity. }
  rewrite Hinf. unfold unsigned_decimal. rewrite (span_digits_all _ Hall).
  simpl. rewrite Hval.
  eexists. split; [reflexivity|].
  unfold Qeq. simpl. lia.
Qed.

Lemma Qred_inject_Z (z : Z) : Qred (inject_Z z) = inject_Z z.
Proof.
  unfold Qred, inject_Z.
  pose proof (Z.ggcd_gcd z 1) as Hg.
  pose proof (Z.ggcd_correct_divisors z 1) as Hd.
  destruct (Z.ggcd z 1) as [g [aa bb]]. simpl in Hg.
  rewrite Z.gcd_1_r in Hg. subst g. destruct Hd as [Ha Hb].
  rewrite Z.mul_1_l in Ha, Hb. subst aa bb. reflexivity.
Qed.

Lemma append_nil_r (s : string) : s ++ "" = s.
Proof. induction s as [|c s IH]; [reflexivity|]. rewrite append_cons, IH. reflexivity. Qed.

(** A natural number is printed as its decimal digits. *)
Lemma NumberToString_natural (q : Q) (n : N) :
  (q == inject_Z (Z.of_N n))%Q -> NumberToString (Fin q) = digits_of_N n.
Proof.
  intros Hq. unfold NumberToString.
  rewrite (Qred_complete _ _ Hq), Qred_inject_Z.
  cbv zeta. unfold inject_Z. cbn [Qnum Qden].
  rewrite Zabs2N.id, N.div_1_r, N.mod_1_r, N.eqb_refl, append_nil_r.
  destruct (Z.of_N n <? 0)%Z eqn:E; [|reflexivity].
  apply Z.ltb_lt in E. lia.
Qed.

(** *** Splitting and joining *)

Lemma has_char_app (c : ascii) (a b : string) :
  has_char c (a ++ b) = has_char c a || has_char c b.
Proof.
  induction a as [|d a IH]; [reflexivity|].
  rewrite append_cons. simpl. rewrite IH. apply orb_assoc.
Qed.

Lemma includes_char (s : string) (c : ascii) :
  includes s (String c "") = has_char c s.
Proof.
  induction s as [|d s IH]; [reflexivity|].
  rewrite includes_cons, IH. simpl. f_equal.
  destruct (ascii_dec c d) as [->|Hne].
  - rewrite Ascii.eqb_refl. destruct s; reflexivity.
  - symmetry. apply Ascii.eqb_neq. congruence.
Qed.

Lemma split_without_sep (sep : ascii) (s : string) :
  has_char sep s = false -> split sep s = [s].
Proof.
  induction s as [|c s IH]; simpl; [reflexivity|].
  intros H. apply orb_false_iff in H as [Hc Hs].
  rewrite Hc, (IH Hs). reflexivity.
Qed.

Lemma split_at_sep (sep : ascii) (a b : string) :
  has_char sep a = false -> split sep (a ++ String sep b) = a :: split sep b.
Proof.
  induction a as [|c a IH]; intros H.
  - rewrite append_nil. simpl. rewrite Ascii.eqb_refl. reflexivity.
  - simpl in H. apply orb_false_iff in H as [Hc Ha].
    rewrite append_cons. simpl. rewrite Hc, (IH Ha). reflexivity.
Qed.

Lemma split_join (sep : ascii) (l : list string) :
  l <> [] ->
  List.Forall (fun s => has_char sep s = false) l ->
  split sep (join (String sep "") l) = l.
Proof.
  intros Hne Hall. induction Hall as [|x l Hx Hall IH]; [contradiction|].
  destruct l as [|y r].
  - simpl. apply split_without_sep, Hx.
  - change (join (String sep "") (x :: y :: r))
      with (x ++ String sep (join (String sep "") (y :: r))).
    rewrite (split_at_sep _ _ _ Hx), IH; [reflexivity|discriminate].
Qed.

Lemma has_char_join (c sep : ascii) (l : list string) :
  Ascii.eqb sep c = false ->
  List.Forall (fun s => has_char c s = false) l ->
  has_char c (join (String sep "") l) = false.
Proof.
  intros Hsep Hall. induction Hall as [|x l Hx Hall IH]; [reflexivity|].
  destruct l as [|y r]; [exact Hx|].
  change (join (String sep "") (x :: y :: r))
    with (x ++ String sep (join (String sep "") (y :: r))).
  rewrite has_char_app, Hx. cbn [has_char orb]. rewrite Hsep, IH. reflexivity.
Qed.

(** *** Equivalence of selections *)

Lemma prim_eqv_refl (p : prim) : prim_eqv p p.
Proof. destruct p; simpl; try reflexivity. apply num_eqv_refl. Qed.

Lemma selection_eqv_refl (v : selection) : selection_eqv v v.
Proof.
  destruct v as [l|lo hi]; simpl.
  - induction l; constructor; [apply prim_eqv_refl|assumption].
  - split; apply prim_eqv_refl.
Qed.

(** A natural bound is printed as digits and read back as the same number. *)
Lemma natural_bound (p : prim) :
  natural p ->
  exists s q, prim_toString p = s /\ has_char "-" s = false /\
              prim_strict_eq p PUndef = false /\
              StringToNumber s = Fin q /\ prim_eqv (PNum (Fin q)) p.
Proof.
  intros [n Hn]. destruct p as [| | |a|]; simpl in Hn; try discriminate.
  destruct a as [|q|]; simpl in Hn; try contradiction.
  destruct (StringToNumber_digits n) as (q' & Hread & Hq').
  exists (digits_of_N n), q'. split; [|split; [|split; [|split]]].
  - exact (NumberToString_natural q n Hn).
  - apply has_char_digits; [reflexivity|apply digits_of_N_all].
  - reflexivity.
  - exact Hread.
  - cbn [prim_eqv num_eqv]. rewrite Hq', Hn. reflexivity.
Qed.

(** What [updateURL] writes for a [url_safe] selection is read back by
    [restoreFromURL] as an equivalent selection. *)
Lemma parse_serialize (category : category) (values : selection) :
  url_safe (cat_type category) values ->
  exists s, serialize values = Some s /\ selection_eqv (parse_value category s) values.
Proof.
  destruct values as [l|lo hi]; simpl.
  - intros [Hne Hall].
    assert (Hl : exists ss, l = List.map PStr ss /\
                   List.Forall (fun s => has_char "," s = false) ss /\
                   (cat_type category = "range" ->
                    List.Forall (fun s => has_char "-" s = false) ss)).
    { clear Hne. induction Hall as [|p l (s & -> & Hc & Hd) Hall (ss & -> & Hcs & Hds)].
      - exists []. repeat split; constructor.
      - exists (s :: ss). repeat split.
        + constructor; assumption.
        + intros Ht. constructor; [apply Hd, Ht|apply Hds, Ht]. }
    destruct Hl as (ss & -> & Hcs & Hds).
    assert (Hss : ss <> []) by (intros ->; apply Hne; reflexivity).
    exists (join "," ss). split.
    + destruct ss as [|x r]; [contradiction|].
      cbn [List.map serialize]. f_equal. f_equal.
      rewrite List.map_map. simpl.
      change (x :: List.map (fun s => s) r) with (List.map (fun s : string => s) (x :: r)).
      apply List.map_id.
    + unfold parse_value.
      assert (Hrange : String.eqb (cat_type category) "range" && includes (join "," ss) "-" = false).
      { destruct (String.eqb (cat_type category) "range") eqn:Ht; [|reflexivity].
        apply String.eqb_eq in Ht. simpl.
        rewrite includes_char. apply has_char_join; [reflexivity|apply Hds, Ht]. }
      rewrite Hrange, (split_join "," ss Hss Hcs). apply selection_eqv_refl.
  - intros (Ht & Hlo & Hhi).
    destruct (natural_bound lo Hlo) as (s1 & q1 & <- & Hc1 & Hu1 & Hr1 & He1).
    destruct (natural_bound hi Hhi) as (s2 & q2 & <- & Hc2 & _ & Hr2 & He2).
    rewrite Hu1. simpl. eexists. split; [reflexivity|].
    unfold parse_value. rewrite Ht.
    assert (Hinc : includes (prim_toString lo ++ "-" ++ prim_toString hi) "-" = true).
    { apply includes_spec. exists (prim_toString lo), (prim_toString hi). reflexivity. }
    rewrite Hinc. simpl.
    change ("-" ++ prim_toString hi) with (String "-" (prim_toString hi)).
    rewrite (split_at_sep _ _ _ Hc1), (split_without_sep _ _ Hc2). simpl.
    rewrite Hr1, Hr2. split; assumption.
Qed.

(** *** Writing and reading the parameters *)

Lemma params_set_fresh (name value : string) (params : list (string * string)) :
  name ∉ params.*1 -> params_set name value params = (params ++ [(name, value)])%list.
Proof.
  induction params as [|[n v] params IH]; intros Hfresh; [reflexivity|].
  rewrite fmap_cons, not_elem_of_cons in Hfresh. destruct Hfresh as [Hn Hrest].
  simpl in *. assert (Hneq : String.eqb n name = false) by (apply String.eqb_neq; congruence).
  rewrite Hneq, (IH Hrest). reflexivity.
Qed.

Lemma written_keys (l : list (string * selection)) : (List.map written l).*1 = l.*1.
Proof.
  induction l as [|kv l IH]; [reflexivity|].
  cbn [List.map]. rewrite !fmap_cons, IH. reflexivity.
Qed.

Lemma updateURL_entries (l : list (string * selection)) :
  forall acc : list (string * string),
  NoDup l.*1 ->
  (forall kv, kv ∈ l -> kv.1 ∉ acc.*1) ->
  (forall kv, kv ∈ l -> exists s, serialize kv.2 = Some s) ->
  foldl (fun params kv =>
           match serialize kv.2 with
           | Some s => params_set kv.1 s params
           | None => params
           end) acc l
  = (acc ++ List.map written l)%list.
Proof.
  induction l as [|kv l IH]; intros acc Hnd Hfresh Hser; simpl.
  - rewrite app_nil_r. reflexivity.
  - rewrite fmap_cons in Hnd. apply NoDup_cons in Hnd as [Hkv Hnd].
    destruct (Hser kv) as [s Hs]; [left|].
    rewrite Hs, params_set_fresh by (apply Hfresh; left).
    rewrite IH.
    + rewrite <- app_assoc. simpl. unfold written at 2. rewrite Hs. reflexivity.
    + exact Hnd.
    + intros kv' Hin. rewrite fmap_app, elem_of_app. intros [H|H].
      * apply (Hfresh kv'); [right; exact Hin|exact H].
      * simpl in H. apply list_elem_of_singleton in H.
        apply Hkv. rewrite <- H. apply list_elem_of_fmap_2. exact Hin.
    + intros kv' Hin. apply Hser. right. exact Hin.
Qed.

Lemma restore_written tax (l : list (string * selection)) :
  forall (af : gmap string selection) (k : string) (values : selection),
  NoDup l.*1 ->
  (forall kv, kv ∈ l ->
     kv.1 <> "q" /\
     exists category, find_category tax kv.1 = Some category /\
                      url_safe (cat_type category) kv.2) ->
  (k, values) ∈ l ->
  exists values',
    foldl (restoreParam tax) af (List.map written l) !! k = Some values' /\
    selection_eqv values' values.
Proof.
  induction l as [|kv l IH]; intros af k values Hnd Hgood Hin; [inversion Hin|].
  rewrite fmap_cons in Hnd. apply NoDup_cons in Hnd as [Hkv Hnd].
  apply elem_of_cons in Hin as [<-|Hin].
  - simpl. rewrite restore_untouched by (rewrite written_keys; exact Hkv).
    destruct (Hgood (k, values)) as (Hq & category & Hcat & Hsafe); [left|].
    simpl in *. destruct (parse_serialize category values Hsafe) as (s & Hs & Heqv).
    unfold restoreParam, written. simpl.
    apply String.eqb_neq in Hq. rewrite Hq, Hcat, Hs. simpl.
    rewrite lookup_insert_eq. eexists. split; [reflexivity|exact Heqv].
  - simpl. apply IH; [exact Hnd| |exact Hin].
    intros kv' Hin'. apply Hgood. right. exact Hin'.
Qed.

(** Evaluates the two sides of a pointwise comparison of states at one
    category id. *)
Ltac at_key H k :=
  specialize (H k);
  match type of H with
  | option_Forall2 ?R ?a ?b =>
      let a' := eval vm_compute in a in
      let b' := eval vm_compute in b in
      change (option_Forall2 R a' b') in H
  end.

(** C3, as stated, fails, on each of these states built by the setters:
    a range with a negative bound is read back as another range; a
    category that the taxonomy does not list is lost; a boolean value comes
    back as a string; a value with a comma comes back as two values; a
    range on a category that is no range comes back as an array; a value
    with a hyphen on a range category comes back as a range; and a category
    named [q] takes the place of the query. *)
Lemma reload_changes_state :
  ~ state_eqv (reload (run tax [OpSetRangeFilter "mobility" (PNum (Fin (-1))) (PNum (Fin 5))]))
              (run tax [OpSetRangeFilter "mobility" (PNum (Fin (-1))) (PNum (Fin 5))]) /\
  ~ state_eqv (reload (run tax [OpSetFilter "series" (PStr "UC") true]))
              (run tax [OpSetFilter "series" (PStr "UC") true]) /\
  ~ state_eqv (reload (run tax [OpToggleFilter "ledUnit" (PBool true)]))
              (run tax [OpToggleFilter "ledUnit" (PBool true)]) /\
  ~ state_eqv (reload (run tax [OpSetFilter "grade" (PStr "HG,MG") true]))
              (run tax [OpSetFilter "grade" (PStr "HG,MG") true]) /\
  ~ state_eqv (reload (run tax [OpSetRangeFilter "grade" (PNum (Fin 1)) (PNum (Fin 3))]))
              (run tax [OpSetRangeFilter "grade" (PNum (Fin 1)) (PNum (Fin 3))]) /\
  ~ state_eqv (reload (run tax [OpSetFilter "mobility" (PStr "3-5") true]))
              (run tax [OpSetFilter "mobility" (PStr "3-5") true]) /\
  ~ state_eqv (reload (run (Some [Category "q" "single"])
                           [OpSetSearchQuery "zaku"; OpSetFilter "q" (PStr "x") true]))
              (run (Some [Category "q" "single"])
                   [OpSetSearchQuery "zaku"; OpSetFilter "q" (PStr "x") true]).
Proof.
  repeat apply conj; unfold state_eqv; intros [Hq H].
  - at_key H "mobility". inversion H as [? ? Hs|].
    destruct Hs as [Hlo _]. vm_compute in Hlo. discriminate Hlo.
  - at_key H "series". inversion H.
  - at_key H "ledUnit". inversion H as [? ? Hs|].
    inversion Hs as [|? ? ? ? Hp]. discriminate Hp.
  - at_key H "grade". inversion H as [? ? Hs|].
    inversion Hs as [|? ? ? ? Hp]. discriminate Hp.
  - at_key H "grade". inversion H as [? ? Hs|]. exact Hs.
  - at_key H "mobility". inversion H as [? ? Hs|]. exact Hs.
  - vm_compute in Hq. discriminate Hq.
Qed.

(** C3, amended.  A state in which every active category is listed in the
    taxonomy and is not named [q], every array selection holds strings
    without commas (and without hyphens on a range category), and every
    range selection sits on a range category with non-negative integer
    bounds, is restored from the URL that [updateURL] writes for it: the
    same query, the same active category ids, equivalent selections. *)
Theorem reload_restores_url_safe_state (st : state) :
  url_safe_state st -> state_eqv (reload st) st.
Proof.
  intros Hsafe. unfold reload, updateURL.
  set (l := map_to_list (activeFilters st)).
  assert (Hnd : NoDup l.*1) by apply NoDup_fst_map_to_list.
  assert (Hgood : forall kv, kv ∈ l ->
            kv.1 <> "q" /\
            exists category, find_category (taxonomy st) kv.1 = Some category /\
                             url_safe (cat_type category) kv.2).
  { intros [k values] Hin. apply elem_of_map_to_list in Hin. apply (Hsafe k values Hin). }
  set (params0 := if negb (String.eqb (searchQuery st) "")
                  then [("q", searchQuery st)] else []).
  assert (Hshape : foldl (fun params kv =>
                     match serialize kv.2 with
                     | Some s => params_set kv.1 s params
                     | None => params
                     end) params0 l = (params0 ++ List.map written l)%list).
  { apply updateURL_entries; [exact Hnd| |].
    - intros kv Hin Hq. destruct (Hgood kv Hin) as [Hne _]. apply Hne.
      unfold params0 in Hq. destruct (negb _); simpl in Hq.
      + apply list_elem_of_singleton in Hq. exact Hq.
      + inversion Hq.
    - intros kv Hin. destruct (Hgood kv Hin) as (_ & category & _ & Hs).
      destruct (parse_serialize category kv.2 Hs) as (s & Hser & _).
      exists s. exact Hser. }
  rewrite Hshape. split.
  - simpl. unfold params0. destruct (String.eqb (searchQuery st) "") eqn:Hq; simpl.
    + apply String.eqb_eq in Hq.
      destruct (List.find _ (List.map written l)) as [p|] eqn:Hfind; [|symmetry; exact Hq].
      apply List.find_some in Hfind as [Hin Hp].
      apply List.in_map_iff in Hin as (kv & <- & Hin).
      destruct (Hgood kv) as [Hne _]; [apply list_elem_of_In, Hin|].
      apply String.eqb_eq in Hp. simpl in Hp. contradiction.
    + reflexivity.
  - intros k. simpl. rewrite foldl_app.
    assert (H0 : foldl (restoreParam (taxonomy st)) ∅ params0 = ∅).
    { unfold params0. destruct (negb _); reflexivity. }
    rewrite H0.
    destruct (activeFilters st !! k) as [values|] eqn:Hk.
    + destruct (restore_written (taxonomy st) l ∅ k values Hnd Hgood) as (values' & -> & Heqv).
      * apply elem_of_map_to_list, Hk.
      * constructor. exact Heqv.
    + rewrite restore_untouched.
      * rewrite lookup_empty. constructor.
      * rewrite written_keys. intros Hin.
        apply list_elem_of_fmap in Hin as ([k' values] & -> & Hin).
        apply elem_of_map_to_list in Hin. simpl in Hk. congruence.
Qed.

(** The theorem above, at a concrete input. *)
Lemma reload_restores_url_safe_state_witness :
  state_eqv
    (reload (run tax [OpSetSearchQuery " Zaku "; OpSetFilter "grade" (PStr "HG") true;
                      OpSetFilter "grade" (PStr "MG") true;
                      OpSetRangeFilter "mobility" (PNum (Fin 3)) (PNum (Fin 5))]))
    (run tax [OpSetSearchQuery " Zaku "; OpSetFilter "grade" (PStr "HG") true;
              OpSetFilter "grade" (PStr "MG") true;
              OpSetRangeFilter "mobility" (PNum (Fin 3)) (PNum (Fin 5))]).
Proof.
  apply reload_restores_url_safe_state.
  intros k values Hk. apply elem_of_map_to_list in Hk.
  match type of Hk with
  | _ ∈ ?l => let l' := eval vm_compute in l in change (_ ∈ l) with ((k, values) ∈ l') in Hk
  end.
  apply elem_of_cons in Hk as [Hk|Hk]; [|apply elem_of_cons in Hk as [Hk|Hk]].
  - injection Hk as -> ->. split; [discriminate|].
    exists (Category "grade" "single"). split; [reflexivity|].
    split; [discriminate|].
    repeat constructor; eexists; (split; [reflexivity|]); (split; [reflexivity|discriminate]).
  - injection Hk as -> ->. split; [discriminate|].
    exists (Category "mobility" "range"). split; [reflexivity|].
    split; [reflexivity|]. split; [exists 3%N|exists 5%N]; reflexivity.
  - inversion Hk.
Defined.

End RoundTrip.

(** ** More on the match predicate *)

Section MatchMore.
Import JS Filter Session Text Examples.

Lemma forallb_perm {A} (f : A -> bool) (l1 l2 : list A) :
  l1 ≡ₚ l2 -> forallb f l1 = forallb f l2.
Proof.
  induction 1 as [|x l1 l2 _ IH|x y l|l1 l2 l3 _ IH1 _ IH2]; simpl.
  - reflexivity.
  - rewrite IH. reflexivity.
  - destruct (f x), (f y); reflexivity.
  - congruence.
Qed.

Lemma forallb_map_to_list_insert {A} (f : string * A -> bool) (m : gmap string A)
    (k : string) (v : A) :
  forallb f (map_to_list (<[k := v]> m)) = f (k, v) && forallb f (map_to_list (delete k m)).
Proof.
  rewrite <- (insert_delete_eq m k v).
  rewrite (forallb_perm f _ _ (map_to_list_insert (delete k m) k v (lookup_delete_eq m k))).
  reflexivity.
Qed.

(** X1.  The categories are combined by a conjunction: a selection added
    for a category that has none leaves the verdict of [matchesFilters] as
    it was where the product fails already, and otherwise makes it the
    verdict on the added category.  A query that throws still throws. *)
Theorem matchesFilters_add_category (currentLang : string) (st : state)
    (product : gmap string jsval) (k : string) (values : selection) :
  activeFilters st !! k = None ->
  matchesFilters currentLang (with_filters st (<[k := values]> (activeFilters st))) product
  = (fun b => matchesCategory (taxonomy st) product k values && b)
      <$> matchesFilters currentLang st product.
Proof.
  intros Hfresh. unfold matchesFilters. simpl.
  rewrite forallb_map_to_list_insert, (delete_id _ _ Hfresh). simpl.
  destruct (negb (String.eqb (searchQuery st) "")); [|reflexivity].
  destruct (searchFields currentLang product) as [fields|]; [|reflexivity].
  destruct (existsb _ fields); simpl; [reflexivity|].
  rewrite andb_false_r. reflexivity.
Qed.

(** The theorem above, at a concrete input. *)
Lemma matchesFilters_add_category_witness :
  matchesFilters "en"
    (with_filters (setSearchQuery "gundam" (initial tax))
       (<["grade" := SArr [PStr "MG"]]> (activeFilters (setSearchQuery "gundam" (initial tax)))))
    rx78
  = (fun b => matchesCategory (taxonomy (setSearchQuery "gundam" (initial tax))) rx78
                "grade" (SArr [PStr "MG"]) && b)
      <$> matchesFilters "en" (setSearchQuery "gundam" (initial tax)) rx78.
Proof.
  apply (matchesFilters_add_category "en" (setSearchQuery "gundam" (initial tax)) rx78
           "grade" (SArr [PStr "MG"])).
  reflexivity.
Defined.

(** X2.  A selection under an id that the taxonomy does not list never
    excludes a product: the verdict is the one without that entry. *)
Theorem unknown_category_is_ignored (currentLang : string) (st : state)
    (product : gmap string jsval) (k : string) (values : selection) :
  find_category (taxonomy st) k = None ->
  matchesFilters currentLang (with_filters st (<[k := values]> (activeFilters st))) product
  = matchesFilters currentLang (with_filters st (delete k (activeFilters st))) product.
Proof.
  intros Hunknown. unfold matchesFilters. simpl.
  assert (Hc : matchesCategory (taxonomy st) product k values = true).
  { unfold matchesCategory. rewrite Hunknown. reflexivity. }
  rewrite forallb_map_to_list_insert. cbn [fst snd]. rewrite Hc. reflexivity.
Qed.

(** The theorem above, at a concrete input. *)
Lemma unknown_category_is_ignored_witness :
  matchesFilters "en"
    (with_filters (initial tax) (<["scale" := SArr [PStr "1/100"]]> (activeFilters (initial tax))))
    rx78
  = matchesFilters "en"
      (with_filters (initial tax) (delete "scale" (activeFilters (initial tax)))) rx78.
Proof.
  apply (unknown_category_is_ignored "en" (initial tax) rx78 "scale" (SArr [PStr "1/100"])).
  reflexivity.
Defined.

(** X3.  On a category that is neither a range nor a boolean, a selection
    of strings keeps a product with a string value when the value is
    selected, keeps a product with an array of strings when one of its
    elements is selected, and excludes a product without a value. *)
Theorem enum_filter_is_membership (tax : option (list category))
    (product : gmap string jsval) (k : string) (category : category)
    (fs : list string) :
  find_category tax k = Some category ->
  cat_type category <> "range" ->
  cat_type category <> "boolean" ->
  fs <> [] ->
  (forall s, productValue product k = VPrim (PStr s) ->
     (matchesCategory tax product k (SArr (List.map PStr fs)) = true <-> s ∈ fs)) /\
  (forall l, productValue product k = VArr (List.map (fun s => VPrim (PStr s)) l) ->
     (matchesCategory tax product k (SArr (List.map PStr fs)) = true
      <-> exists s, s ∈ l /\ s ∈ fs)) /\
  (productValue product k = undefined ->
     matchesCategory tax product k (SArr (List.map PStr fs)) = false).
Proof.
  intros Hc Hr Hb Hne.
  apply String.eqb_neq in Hr. apply String.eqb_neq in Hb.
  assert (Hcat : matchesCategory tax product k (SArr (List.map PStr fs))
                 = match productValue product k with
                   | VArr pl => existsb (array_includes (List.map PStr fs)) pl
                   | v => array_includes (List.map PStr fs) v
                   end).
  { unfold matchesCategory. rewrite Hc, Hr, Hb.
    destruct fs as [|x r]; [contradiction|]. cbn [List.map].
    destruct (productValue product k); reflexivity. }
  rewrite Hcat. clear Hcat.
  split; [|split].
  - intros s ->. apply array_includes_strings.
  - intros l ->. rewrite List.existsb_exists. split.
    + intros (v & Hin & Hv). apply List.in_map_iff in Hin as (s & <- & Hs).
      exists s. split; [apply list_elem_of_In, Hs|apply array_includes_strings, Hv].
    + intros (s & Hl & Hf). exists (VPrim (PStr s)). split.
      * apply (List.in_map (fun s => VPrim (PStr s))), list_elem_of_In, Hl.
      * apply array_includes_strings, Hf.
  - intros ->. unfold array_includes, undefined.
    clear. induction fs as [|x r IH]; [reflexivity|]. simpl. exact IH.
Qed.

(** The theorem above, at a concrete input. *)
Lemma enum_filter_is_membership_witness :
  (forall s, productValue (weapons ["few"; "many"]) "weaponCount" = VPrim (PStr s) ->
     (matchesCategory Examples.tax (weapons ["few"; "many"]) "weaponCount"
        (SArr (List.map PStr ["many"; "standard"])) = true <-> s ∈ ["many"; "standard"])) /\
  (forall l, productValue (weapons ["few"; "many"]) "weaponCount"
             = VArr (List.map (fun s => VPrim (PStr s)) l) ->
     (matchesCategory Examples.tax (weapons ["few"; "many"]) "weaponCount"
        (SArr (List.map PStr ["many"; "standard"])) = true
      <-> exists s, s ∈ l /\ s ∈ ["many"; "standard"])) /\
  (productValue (weapons ["few"; "many"]) "weaponCount" = undefined ->
     matchesCategory Examples.tax (weapons ["few"; "many"]) "weaponCount"
       (SArr (List.map PStr ["many"; "standard"])) = false).
Proof.
  apply (enum_filter_is_membership Examples.tax (weapons ["few"; "many"]) "weaponCount"
           (Category "weaponCount" "multi") ["many"; "standard"]).
  - reflexivity.
  - discriminate.
  - discriminate.
  - discriminate.
Defined.

(** X4.  A boolean category restored from the URL holds strings, and the
    comparison is strict: the product passes exactly when its value is the
    first string of the parameter.  A product whose value is a boolean
    never passes. *)
Theorem restored_boolean_filter_compares_strings (tax : option (list category))
    (product : gmap string jsval) (k : string) (category : category) (value : string) :
  find_category tax k = Some category ->
  cat_type category = "boolean" ->
  (matchesCategory tax product k (parse_value category value) = true
   <-> productValue product k = VPrim (PStr (List.hd "" (split "," value)))) /\
  (forall b, productValue product k = VPrim (PBool b) ->
     matchesCategory tax product k (parse_value category value) = false).
Proof.
  intros Hc Ht. unfold matchesCategory, parse_value. rewrite Hc, Ht. simpl.
  pose proof (split_nonempty "," value) as Hne.
  destruct (split "," value) as [|s r]; [contradiction|]. simpl.
  split.
  - rewrite negb_true_iff, negb_false_iff.
    destruct (productValue product k) as [[| |b|n|x]|l|o]; simpl; split; try discriminate.
    + intros H. apply String.eqb_eq in H. congruence.
    + intros [= ->]. apply String.eqb_refl.
  - intros b ->. reflexivity.
Qed.

(** The theorem above, at a concrete input. *)
Lemma restored_boolean_filter_compares_strings_witness :
  (matchesCategory Examples.tax (<["ledUnit" := VPrim (PBool true)]> rx78) "ledUnit"
     (parse_value (Category "ledUnit" "boolean") "true") = true
   <-> productValue (<["ledUnit" := VPrim (PBool true)]> rx78) "ledUnit"
       = VPrim (PStr (List.hd "" (split "," "true")))) /\
  (forall b, productValue (<["ledUnit" := VPrim (PBool true)]> rx78) "ledUnit" = VPrim (PBool b) ->
     matchesCategory Examples.tax (<["ledUnit" := VPrim (PBool true)]> rx78) "ledUnit"
       (parse_value (Category "ledUnit" "boolean") "true") = false).
Proof.
  apply (restored_boolean_filter_compares_strings Examples.tax
           (<["ledUnit" := VPrim (PBool true)]> rx78) "ledUnit"
           (Category "ledUnit" "boolean") "true").
  - reflexivity.
  - reflexivity.
Defined.

(** *** The query *)

Lemma lower_ascii_not_upper (c : ascii) : is_upper (lower_ascii c) = false.
Proof. destruct c as [[] [] [] [] [] [] [] []]; reflexivity. Qed.

Lemma lower_ascii_space (c : ascii) : is_space (lower_ascii c) = is_space c.
Proof. destruct c as [[] [] [] [] [] [] [] []]; reflexivity. Qed.

Lemma lower_ascii_idem (c : ascii) : lower_ascii (lower_ascii c) = lower_ascii c.
Proof. destruct c as [[] [] [] [] [] [] [] []]; reflexivity. Qed.

Lemma toLowerCase_no_upper (s : string) : has_upper (toLowerCase s) = false.
Proof.
  induction s as [|c s IH]; [reflexivity|]. simpl.
  rewrite lower_ascii_not_upper, IH. reflexivity.
Qed.

Lemma toLowerCase_idem (s : string) : toLowerCase (toLowerCase s) = toLowerCase s.
Proof.
  induction s as [|c s IH]; [reflexivity|]. simpl.
  rewrite lower_ascii_idem, IH. reflexivity.
Qed.

Lemma has_upper_app (a b : string) : has_upper (a ++ b) = has_upper a || has_upper b.
Proof.
  induction a as [|c a IH]; [reflexivity|].
  rewrite append_cons. simpl. rewrite IH. apply orb_assoc.
Qed.

Lemma includes_lower (f q : string) :
  includes (toLowerCase f) q = true -> has_upper q = false.
Proof.
  intros H. apply includes_spec in H as (a & b & E).
  pose proof (toLowerCase_no_upper f) as Hl. rewrite E, !has_upper_app in Hl.
  apply orb_false_iff in Hl as [_ Hl]. apply orb_false_iff in Hl as [Hl _]. exact Hl.
Qed.

Lemma lowerField_lower (v : jsval) (f : string) :
  lowerField v = Some f -> exists x, f = toLowerCase x.
Proof.
  unfold lowerField. destruct (js_or v _) as [[| | | |x]| |]; try discriminate.
  intros [= <-]. exists x. reflexivity.
Qed.

Lemma searchFields_lower lang product fields :
  searchFields lang product = Some fields ->
  forall f, In f fields -> exists x, f = toLowerCase x.
Proof.
  unfold searchFields. intros H. apply mapM_Some in H.
  induction H as [|v f' vs fs Hv _ IH]; intros f Hin; [destruct Hin|].
  destruct Hin as [<-|Hin]; [exact (lowerField_lower v f' Hv)|exact (IH f Hin)].
Qed.

(** The fields are lowered, the stored query is not: a query with a capital
    letter is found in no field. *)
Lemma upper_case_query_matches_nothing (currentLang : string) (st : state)
    (product : gmap string jsval) :
  has_upper (searchQuery st) = true ->
  matchesFilters currentLang st product <> Some true.
Proof.
  intros Hup. unfold matchesFilters.
  assert (Hne : negb (String.eqb (searchQuery st) "") = true).
  { apply negb_true_iff, String.eqb_neq. intros E. rewrite E in Hup. discriminate. }
  rewrite Hne.
  destruct (searchFields currentLang product) as [fields|] eqn:Hf; [|discriminate].
  destruct (existsb _ fields) eqn:Hex; [|discriminate].
  apply List.existsb_exists in Hex as (f & Hin & Hinc).
  destruct (searchFields_lower _ _ _ Hf f Hin) as [x ->].
  apply includes_lower in Hinc. congruence.
Qed.

(** X5.  [restoreFromURL] stores the parameter [q] as it is written, while
    [setSearchQuery] lowers it: after a page load with a capital letter in
    [q], no product passes. *)
Theorem restored_upper_case_query_matches_nothing (currentLang : string) (st : state)
    (params : list (string * string)) (q : string) (product : gmap string jsval) :
  has_upper q = true ->
  searchQuery (restoreFromURL (("q", q) :: params) st) = q /\
  matchesFilters currentLang (restoreFromURL (("q", q) :: params) st) product <> Some true.
Proof.
  intros Hup. split; [reflexivity|].
  apply upper_case_query_matches_nothing. exact Hup.
Qed.

(** The theorem above, at a concrete input. *)
Lemma restored_upper_case_query_matches_nothing_witness :
  searchQuery (restoreFromURL [("q", "Gundam")] (initial tax)) = "Gundam" /\
  matchesFilters "en" (restoreFromURL [("q", "Gundam")] (initial tax)) rx78 <> Some true.
Proof.
  apply (restored_upper_case_query_matches_nothing "en" (initial tax) [] "Gundam" rx78).
  reflexivity.
Defined.

Lemma trimStart_lower (s : string) : trimStart (toLowerCase s) = toLowerCase (trimStart s).
Proof.
  induction s as [|c s IH]; [reflexivity|]. simpl.
  rewrite lower_ascii_space. destruct (is_space c); [exact IH|reflexivity].
Qed.

Lemma trimEnd_lower (s : string) : trimEnd (toLowerCase s) = toLowerCase (trimEnd s).
Proof.
  induction s as [|c s IH]; [reflexivity|]. simpl.
  rewrite IH, lower_ascii_space.
  destruct (trimEnd s); simpl; [destruct (is_space c); reflexivity|reflexivity].
Qed.

Lemma trim_lower (s : string) : trim (toLowerCase s) = toLowerCase (trim s).
Proof. unfold trim. rewrite trimStart_lower, trimEnd_lower. reflexivity. Qed.

Lemma trimStart_head (s : string) : head_no_space (trimStart s).
Proof.
  induction s as [|c s IH]; simpl; [exact I|].
  destruct (is_space c) eqn:E; [exact IH|exact E].
Qed.

Lemma trimStart_fixed (s : string) : head_no_space s -> trimStart s = s.
Proof. destruct s as [|c s]; simpl; [reflexivity|]. intros ->. reflexivity. Qed.

Lemma trimEnd_head (s : string) : head_no_space s -> head_no_space (trimEnd s).
Proof.
  destruct s as [|c s]; simpl; [exact id|]. intros H.
  destruct (trimEnd s); [rewrite H|]; exact H.
Qed.

Lemma trimEnd_idem (s : string) : trimEnd (trimEnd s) = trimEnd s.
Proof.
  induction s as [|c s IH]; [reflexivity|]. simpl.
  destruct (trimEnd s) as [|d t] eqn:E.
  - destruct (is_space c) eqn:Hc; [reflexivity|]. simpl. rewrite Hc. reflexivity.
  - change (trimEnd (String c (String d t))) with
      (match trimEnd (String d t) with
       | "" => if is_space c then "" else String c ""
       | t' => String c t'
       end).
    rewrite IH. reflexivity.
Qed.

Lemma trim_idem (s : string) : trim (trim s) = trim s.
Proof.
  unfold trim.
  rewrite (trimStart_fixed (trimEnd (trimStart s))) by apply trimEnd_head, trimStart_head.
  apply trimEnd_idem.
Qed.

(** X6.  The query [setSearchQuery] stores is in normal form: it has no
    capital letter and no white space around it, and storing it again
    leaves the state as it is. *)
Theorem setSearchQuery_normal_form (query : string) (st : state) :
  has_upper (searchQuery (setSearchQuery query st)) = false /\
  trim (searchQuery (setSearchQuery query st)) = searchQuery (setSearchQuery query st) /\
  setSearchQuery (searchQuery (setSearchQuery query st)) (setSearchQuery query st)
  = setSearchQuery query st.
Proof.
  unfold setSearchQuery. simpl. split; [apply toLowerCase_no_upper|].
  split.
  - rewrite trim_lower, trim_idem. reflexivity.
  - rewrite trim_lower, trim_idem, toLowerCase_idem. reflexivity.
Qed.

(** *** What makes the predicate throw *)

Lemma lowerField_None (v : jsval) :
  lowerField v = None <-> truthy v = true /\ forall s, v <> VPrim (PStr s).
Proof.
  unfold lowerField, js_or. destruct (truthy v) eqn:Ht.
  - destruct v as [[| |b|n|x]|l|o]; try discriminate Ht;
      try (split; [intros _; split; [reflexivity|discriminate]|intros _; reflexivity]).
    split; [discriminate|]. intros [_ H]. destruct (H x eq_refl).
  - split; [discriminate|]. intros [H _]. discriminate.
Qed.

Lemma mapM_None {A B} (f : A -> option B) (l : list A) :
  mapM f l = None <-> exists x, x ∈ l /\ f x = None.
Proof.
  induction l as [|a l IH]; simpl.
  - split; [discriminate|]. intros (x & Hx & _). inversion Hx.
  - destruct (f a) as [b|] eqn:Ha; simpl.
    + destruct (mapM f l) as [bs|]; simpl.
      * split; [discriminate|]. intros (x & Hx & Hf).
        apply elem_of_cons in Hx as [->|Hx]; [congruence|].
        assert (H : Some bs = None) by (apply IH; eauto). discriminate.
      * split; [|reflexivity]. intros _.
        destruct (proj1 IH eq_refl) as (x & Hx & Hf).
        exists x. split; [right; exact Hx|exact Hf].
    + split; [|reflexivity]. intros _. exists a. split; [left|exact Ha].
Qed.

Lemma js_or_empty_twice (v : jsval) :
  lowerField (js_or v (VPrim (PStr ""))) = lowerField v.
Proof.
  unfold lowerField, js_or. destruct (truthy v) eqn:Ht; [rewrite Ht; reflexivity|].
  reflexivity.
Qed.

(** X7.  [matchesFilters] throws exactly when a query is stored and one of
    the five searched fields of the product (its localized name, [id],
    [modelNumber], [grade], [series]) is a truthy value that is not a
    string, such as a number: that value has no [toLowerCase]. *)
Theorem matchesFilters_throws (currentLang : string) (st : state)
    (product : gmap string jsval) :
  matchesFilters currentLang st product = None <->
  searchQuery st <> "" /\
  exists v,
    v ∈ [ I18n.getName currentLang (get_prop (VObj product) "name");
          get_prop (VObj product) "id";
          get_prop (VObj product) "modelNumber";
          get_prop (VObj product) "grade";
          get_prop (VObj product) "series" ] /\
    truthy v = true /\ forall s, v <> VPrim (PStr s).
Proof.
  unfold matchesFilters.
  destruct (String.eqb_spec (searchQuery st) "") as [E|E]; simpl.
  { split; [discriminate|]. intros [H _]. contradiction. }
  assert (Hf : searchFields currentLang product = None <->
               exists v,
                 v ∈ [ I18n.getName currentLang (get_prop (VObj product) "name");
                       get_prop (VObj product) "id";
                       get_prop (VObj product) "modelNumber";
                       get_prop (VObj product) "grade";
                       get_prop (VObj product) "series" ] /\
                 truthy v = true /\ forall s, v <> VPrim (PStr s)).
  { unfold searchFields. rewrite mapM_None. split.
    - intros (x & Hx & Hn).
      repeat (apply elem_of_cons in Hx as [->|Hx]);
        try (eexists; split; [|apply lowerField_None; exact Hn]; set_solver).
      rewrite js_or_empty_twice in Hn.
      eexists; split; [|apply lowerField_None; exact Hn]; set_solver.
    - intros (v & Hv & Hn). apply lowerField_None in Hn.
      repeat (apply elem_of_cons in Hv as [->|Hv]);
        try (eexists; split; [|exact Hn]; set_solver).
      exists (js_or (get_prop (VObj product) "modelNumber") (VPrim (PStr ""))).
      split; [set_solver|]. rewrite js_or_empty_twice. exact Hn. }
  destruct (searchFields currentLang product) as [fields|].
  - split.
    + destruct (existsb _ fields); discriminate.
    + intros [_ H]. apply Hf in H. discriminate.
  - split; [|reflexivity]. intros _. split; [exact E|]. apply Hf. reflexivity.
Qed.

End MatchMore.

(** ** More on the filter state *)

Section StateMore.
Import JS Filter Session Selections Examples.

(** *** Equality of primitives *)

Lemma Qeq_bool_sym (x y : Q) : Qeq_bool x y = Qeq_bool y x.
Proof.
  destruct (Qeq_bool x y) eqn:E.
  - symmetry. apply Qeq_bool_iff. symmetry. apply Qeq_bool_iff, E.
  - destruct (Qeq_bool y x) eqn:E'; [|reflexivity].
    apply Qeq_bool_iff in E'. symmetry in E'. apply Qeq_bool_iff in E'. congruence.
Qed.

Lemma prim_same_value_zero_sym (x y : prim) :
  prim_same_value_zero x y = prim_same_value_zero y x.
Proof.
  destruct x as [| |a|a|a], y as [| |b|b|b]; try reflexivity; simpl.
  - destruct a, b; reflexivity.
  - destruct a as [|p|s], b as [|q|t]; try reflexivity; simpl.
    + apply Qeq_bool_sym.
    + destruct s, t; reflexivity.
  - apply String.eqb_sym.
Qed.


Lemma prim_same_value_strict (x y : prim) :
  prim_strict_eq x x = true -> prim_same_value_zero x y = prim_strict_eq x y.
Proof.
  destruct x as [| |a|a|a], y as [| |b|b|b]; try reflexivity; simpl.
  destruct a, b; simpl; try discriminate; reflexivity.
Qed.

Lemma array_includes_app (l1 l2 : list prim) (v : jsval) :
  array_includes (l1 ++ l2) v = array_includes l1 v || array_includes l2 v.
Proof. unfold array_includes. apply List.existsb_app. Qed.






(** Under the name of a member of [Object.prototype] that has no entry,
    [toggleFilter] and [setFilter] throw and leave the state as it is. *)
Lemma inherited_name_throws (categoryId : string) (value : prim) (isActive : bool)
    (st : state) :
  inherited categoryId = true ->
  activeFilters st !! categoryId = None ->
  toggleFilter categoryId value st = None /\
  setFilter categoryId value isActive st = None.
Proof.
  intros Hin Hk. unfold toggleFilter, setFilter. rewrite Hk, Hin, Hk. split; reflexivity.
Qed.

(** *** Distinct values *)

Lemma distinct_values_snoc (l : list prim) (v : prim) :
  distinct_values l = true -> array_includes l (VPrim v) = false ->
  distinct_values (l ++ [v]) = true.
Proof.
  induction l as [|x l IH]; simpl; [reflexivity|].
  intros Hd Hn. apply andb_true_iff in Hd as [Hx Hl].
  unfold array_includes in Hn. simpl in Hn. apply orb_false_iff in Hn as [Hxv Hlv].
  rewrite array_includes_app, (IH Hl Hlv).
  apply negb_true_iff in Hx. rewrite Hx. unfold array_includes at 1. simpl.
  rewrite prim_same_value_zero_sym, Hxv. reflexivity.
Qed.

Lemma array_includes_filter (f : prim -> bool) (l : list prim) (v : jsval) :
  array_includes l v = false -> array_includes (List.filter f l) v = false.
Proof.
  unfold array_includes. induction l as [|x l IH]; simpl; [reflexivity|].
  intros H. apply orb_false_iff in H as [Hx Hl].
  destruct (f x); simpl; [rewrite Hx|]; apply IH, Hl.
Qed.

Lemma distinct_values_filter (f : prim -> bool) (l : list prim) :
  distinct_values l = true -> distinct_values (List.filter f l) = true.
Proof.
  induction l as [|x l IH]; simpl; [reflexivity|].
  intros Hd. apply andb_true_iff in Hd as [Hx Hl].
  destruct (f x); simpl; [|apply IH, Hl].
  apply negb_true_iff in Hx. rewrite (array_includes_filter f l _ Hx). apply IH, Hl.
Qed.

Lemma distinct_insert (filters : gmap string selection) (k : string) (values : selection) :
  distinct_selections filters ->
  (forall l, values = SArr l -> distinct_values l = true) ->
  distinct_selections (<[k := values]> filters).
Proof.
  intros Hd Hv k' l Hl. destruct (decide (k = k')) as [->|Hne].
  - rewrite lookup_insert_eq in Hl. injection Hl as ->. apply Hv. reflexivity.
  - rewrite lookup_insert_ne in Hl by exact Hne. exact (Hd k' l Hl).
Qed.

Lemma distinct_delete (filters : gmap string selection) (k : string) :
  distinct_selections filters -> distinct_selections (delete k filters).
Proof.
  intros Hd k' l Hl. apply lookup_delete_Some in Hl as [_ Hl]. exact (Hd k' l Hl).
Qed.

Lemma setFilter_distinct categoryId value isActive st st' :
  distinct_selections (activeFilters st) ->
  setFilter categoryId value isActive st = Some st' ->
  distinct_selections (activeFilters st').
Proof.
  unfold setFilter. intros Hinv.
  destruct (activeFilters st !! categoryId) as [[l|lo hi]|] eqn:Hk.
  - rewrite Hk. pose proof (Hinv _ _ Hk) as Hl. destruct isActive.
    + destruct (array_includes l (VPrim value)) eqn:Hin; intros [= <-]; simpl; [exact Hinv|].
      apply distinct_insert; [exact Hinv|]. intros l' [= <-].
      apply distinct_values_snoc; assumption.
    + destruct (List.length _ =? 0)%nat; intros [= <-]; simpl.
      * apply distinct_delete, Hinv.
      * apply distinct_insert; [exact Hinv|]. intros l' [= <-].
        apply distinct_values_filter, Hl.
  - rewrite Hk. discriminate.
  - destruct (inherited categoryId); [rewrite Hk; discriminate|].
    rewrite lookup_insert_eq. destruct isActive; simpl.
    + intros [= <-]. simpl. rewrite insert_insert_eq.
      apply distinct_insert; [exact Hinv|]. intros l' [= <-]. reflexivity.
    + intros [= <-]. simpl. rewrite delete_insert_eq.
      apply distinct_delete, Hinv.
Qed.

Lemma exec_distinct (o : op) (st : state) :
  is_setter o = true ->
  distinct_selections (activeFilters st) ->
  distinct_selections (activeFilters (exec o st)).
Proof.
  intros Hs Hinv. destruct o as [q|c v a|c v|c lo hi|c v| |params]; simpl.
  - exact Hinv.
  - destruct (setFilter c v a st) eqn:E; simpl; [|exact Hinv].
    exact (setFilter_distinct _ _ _ _ _ Hinv E).
  - unfold toggleFilter.
    destruct (activeFilters st !! c) as [[l|? ?]|]; [| |destruct (inherited c)];
      try (destruct (setFilter c v _ st) eqn:E; simpl; [|exact Hinv];
           exact (setFilter_distinct _ _ _ _ _ Hinv E));
      exact Hinv.
  - apply distinct_insert; [exact Hinv|]. discriminate.
  - unfold removeFilter. destruct (negb _).
    + destruct (setFilter c v false st) eqn:E; simpl; [|exact Hinv].
      exact (setFilter_distinct _ _ _ _ _ Hinv E).
    + simpl. apply distinct_delete, Hinv.
  - intros k l Hl. rewrite lookup_empty in Hl. discriminate.
  - discriminate.
Qed.

(** X9.  The setters never store a value twice: after any sequence of
    calls of [setSearchQuery], [setFilter], [toggleFilter],
    [setRangeFilter], [removeFilter] and [clearAllFilters], no array of
    [activeFilters] holds a value that [includes] finds again later in the
    same array.  ([restoreFromURL] stores what the URL lists, repeated or
    not.) *)
Theorem setters_store_distinct_values (tax : option (list category)) (ops : list op) :
  forallb is_setter ops = true ->
  distinct_selections (activeFilters (run tax ops)).
Proof.
  unfold run.
  assert (H0 : distinct_selections (activeFilters (initial tax))).
  { intros k l Hl. simpl in Hl. rewrite lookup_empty in Hl. discriminate. }
  revert H0. generalize (initial tax) as st.
  induction ops as [|o ops IH]; intros st Hinv Hall; simpl; [exact Hinv|].
  simpl in Hall. apply andb_true_iff in Hall as [Ho Hops].
  apply IH; [apply exec_distinct; assumption|exact Hops].
Qed.

(** The theorem above, at a concrete input. *)
Lemma setters_store_distinct_values_witness :
  distinct_selections
    (activeFilters (run tax [OpSetFilter "grade" (PStr "HG") true;
                             OpToggleFilter "grade" (PStr "MG");
                             OpSetFilter "grade" (PStr "HG") true;
                             OpSetRangeFilter "mobility" (PNum (Fin 3)) (PNum (Fin 5))])).
Proof.
  apply (setters_store_distinct_values tax
           [OpSetFilter "grade" (PStr "HG") true;
            OpToggleFilter "grade" (PStr "MG");
            OpSetFilter "grade" (PStr "HG") true;
            OpSetRangeFilter "mobility" (PNum (Fin 3)) (PNum (Fin 5))]).
  reflexivity.
Defined.

(** *** The count of active filters *)

Lemma foldl_count_shift (l : list (string * selection)) :
  forall a : nat,
  foldl (fun count kv => (count + activeCount kv.2)%nat) a l
  = (a + foldl (fun count kv => (count + activeCount kv.2)%nat) 0%nat l)%nat.
Proof.
  induction l as [|kv l IH]; intros a; simpl; [lia|].
  rewrite (IH (a + _)%nat), (IH (activeCount kv.2)). lia.
Qed.

Lemma count_at_least_length (l : list (string * selection)) :
  List.Forall (fun kv => (1 <= activeCount kv.2)%nat) l ->
  (List.length l <= foldl (fun count kv => (count + activeCount kv.2)%nat) 0%nat l)%nat.
Proof.
  induction 1 as [|kv l Hkv _ IH]; simpl; [lia|].
  rewrite foldl_count_shift. lia.
Qed.

(** X10.  After any sequence of the public operations the count of
    [getActiveFilterCount] is at least the number of active categories, and
    it is 0 exactly when no category is active. *)
Theorem count_covers_categories (tax : option (list category)) (ops : list op) :
  (size (activeFilters (run tax ops)) <= getActiveFilterCount (run tax ops))%nat /\
  (getActiveFilterCount (run tax ops) = 0%nat <-> activeFilters (run tax ops) = ∅).
Proof.
  pose proof (run_nonempty tax ops) as Hne.
  set (st := run tax ops) in *. clearbody st.
  assert (Hle : (size (activeFilters st) <= getActiveFilterCount st)%nat).
  { unfold getActiveFilterCount. rewrite <- length_map_to_list.
    apply count_at_least_length, List.Forall_forall. intros [k values] Hin.
    apply list_elem_of_In, elem_of_map_to_list in Hin. exact (Hne k values Hin). }
  split; [exact Hle|]. split.
  - intros H0. apply map_size_empty_iff. lia.
  - intros H. unfold getActiveFilterCount. rewrite H, map_to_list_empty. reflexivity.
Qed.

(** *** The names of the URL parameters *)

Lemma filter_names (name : string) (r : list (string * string)) (k : string) :
  k ∈ (List.filter (fun p : string * string => negb (String.eqb p.1 name)) r).*1
  <-> k <> name /\ k ∈ r.*1.
Proof.
  induction r as [|[n v] r IH]; simpl.
  - split; [intros H; inversion H|intros [_ H]; inversion H].
  - destruct (String.eqb_spec n name) as [->|Hne]; simpl.
    + rewrite IH, elem_of_cons. split; [intros [H1 H2]; auto|].
      intros [H1 [H2|H2]]; [contradiction|auto].
    + rewrite !elem_of_cons, IH. split.
      * intros [->|[H1 H2]]; auto.
      * intros [H1 [->|H2]]; auto.
Qed.

Lemma params_set_names (name value : string) (params : list (string * string)) (k : string) :
  k ∈ (params_set name value params).*1 <-> k = name \/ k ∈ params.*1.
Proof.
  induction params as [|[n v] r IH]; simpl.
  - rewrite list_elem_of_singleton. split; [auto|]. intros [H|H]; [exact H|inversion H].
  - destruct (String.eqb_spec n name) as [->|Hne]; simpl.
    + rewrite !elem_of_cons, filter_names. split.
      * intros [H|[_ H]]; auto.
      * intros [H|[H|H]]; auto. destruct (decide (k = name)); auto.
    + rewrite !elem_of_cons, IH. tauto.
Qed.

Lemma filter_fresh (name : string) (r : list (string * string)) :
  name ∉ r.*1 ->
  List.filter (fun p : string * string => negb (String.eqb p.1 name)) r = r.
Proof.
  induction r as [|[n v] r IH]; [reflexivity|]. simpl.
  rewrite not_elem_of_cons. intros [Hn Hr].
  destruct (String.eqb_spec n name) as [->|_]; [contradiction|].
  simpl. rewrite (IH Hr). reflexivity.
Qed.

Lemma params_set_NoDup (name value : string) (params : list (string * string)) :
  NoDup params.*1 -> NoDup (params_set name value params).*1.
Proof.
  induction params as [|[n v] r IH]; simpl; intros Hnd.
  - apply NoDup_singleton.
  - apply NoDup_cons in Hnd as [Hn Hr].
    destruct (String.eqb_spec n name) as [->|Hne]; simpl.
    + rewrite (filter_fresh name r Hn). apply NoDup_cons. split; assumption.
    + apply NoDup_cons. split; [|apply IH, Hr].
      rewrite params_set_names. intros [->|H]; [apply Hne; reflexivity|apply Hn, H].
Qed.

Lemma params_set_length (name value : string) (params : list (string * string)) :
  (List.length (params_set name value params) <= S (List.length params))%nat.
Proof.
  induction params as [|[n v] r IH]; simpl; [lia|].
  destruct (String.eqb n name); simpl; [|lia].
  pose proof (List.filter_length_le (fun p : string * string => negb (String.eqb p.1 name)) r).
  lia.
Qed.

Lemma written_params (l : list (string * selection)) :
  forall params : list (string * string),
  let r := foldl (fun params kv =>
                    match serialize kv.2 with
                    | Some s => params_set kv.1 s params
                    | None => params
                    end) params l in
  (NoDup params.*1 -> NoDup r.*1) /\
  (forall name, name ∈ r.*1 <->
     name ∈ params.*1 \/ exists values, (name, values) ∈ l /\ serialize values <> None) /\
  (List.length r <= List.length params + List.length l)%nat.
Proof.
  induction l as [|[k v] l IH]; intros params; simpl.
  - split; [exact id|]. split; [|lia]. intros name. split; [auto|].
    intros [H|(values & H & _)]; [exact H|inversion H].
  - set (params' := match serialize v with
                    | Some s => params_set k s params
                    | None => params
                    end).
    destruct (IH params') as (A & B & C). split; [|split].
    + intros Hnd. apply A. unfold params'. destruct (serialize v); [|exact Hnd].
      apply params_set_NoDup, Hnd.
    + intros name. rewrite B. unfold params'. split.
      * intros [H|(values & H & Hs)].
        -- destruct (serialize v) as [s|] eqn:Hv; [|auto].
           apply params_set_names in H as [->|H]; [|auto].
           right. exists v. split; [left|congruence].
        -- right. exists values. split; [right; exact H|exact Hs].
      * intros [H|(values & H & Hs)].
        -- left. destruct (serialize v); [|exact H]. apply params_set_names. auto.
        -- apply elem_of_cons in H as [[= -> ->]|H].
           ++ left. destruct (serialize v); [|contradiction]. apply params_set_names. auto.
           ++ right. exists values. split; assumption.
    + assert (H : (List.length params' <= S (List.length params))%nat).
      { unfold params'. destruct (serialize v); [apply params_set_length|lia]. }
      lia.
Qed.

(** X11.  [updateURL] writes no parameter name twice.  The names it writes
    are exactly [q], when the query is not empty, and the ids of the
    categories whose selection is a non-empty array or an object with a
    [min]; so there are at most one more than active categories. *)
Theorem updateURL_names (st : state) :
  NoDup (updateURL st).*1 /\
  (forall name, name ∈ (updateURL st).*1 <->
     (name = "q" /\ searchQuery st <> "") \/
     exists values, activeFilters st !! name = Some values /\ serialize values <> None) /\
  (List.length (updateURL st) <= S (size (activeFilters st)))%nat.
Proof.
  unfold updateURL. rewrite <- length_map_to_list.
  set (start := if negb (String.eqb (searchQuery st) "") then [("q", searchQuery st)] else []).
  destruct (written_params (map_to_list (activeFilters st)) start) as (A & B & C).
  assert (H0 : NoDup start.*1 /\
               (forall name, name ∈ start.*1 <-> name = "q" /\ searchQuery st <> "") /\
               (List.length start <= 1)%nat).
  { unfold start. destruct (String.eqb_spec (searchQuery st) ""); simpl.
    - split; [apply NoDup_nil_2|]. split; [|lia]. intros name. split.
      + intros H. inversion H.
      + intros [_ H]. contradiction.
    - split; [apply NoDup_singleton|]. split; [|lia]. intros name.
      rewrite list_elem_of_singleton. tauto. }
  destruct H0 as (A0 & B0 & C0).
  split; [apply A, A0|]. split; [|lia].
  intros name. rewrite B, B0. 
  assert (E : (exists values, (name, values) ∈ map_to_list (activeFilters st) /\ serialize values <> None)
              <-> (exists values, activeFilters st !! name = Some values /\ serialize values <> None)).
  { split; intros (values & H & Hs); exists values; (split; [|exact Hs]);
      apply elem_of_map_to_list; exact H. }
  rewrite E. reflexivity.
Qed.

(** *** Repeated parameters *)

Lemma restoreFromURL_lookup (st : state) (params : list (string * string)) (k : string) :
  activeFilters (restoreFromURL params st) !! k
  = match List.find (fun p : string * string => String.eqb p.1 k) (rev params),
          find_category (taxonomy st) k with
    | Some p, Some category =>
        if String.eqb k "q" then activeFilters st !! k
        else Some (parse_value category p.2)
    | _, _ => activeFilters st !! k
    end.
Proof.
  unfold restoreFromURL. simpl.
  induction params as [|[n v] params IH] using rev_ind; [reflexivity|].
  rewrite foldl_app, rev_app_distr. simpl.
  unfold restoreParam at 1. simpl.
  destruct (String.eqb_spec n k) as [E|Hne].
  - subst n. destruct (String.eqb k "q") eqn:Hq.
    + rewrite IH. destruct (List.find _ (rev params)) as [p|];
        destruct (find_category (taxonomy st) k); reflexivity.
    + destruct (find_category (taxonomy st) k) as [category|] eqn:Hc.
      * apply lookup_insert_eq.
      * rewrite IH. destruct (List.find _ (rev params)); reflexivity.
  - destruct (String.eqb n "q"); [exact IH|].
    destruct (find_category (taxonomy st) n); [|exact IH].
    rewrite lookup_insert_ne by exact Hne. exact IH.
Qed.



(** X13.  Restoring the same parameters a second time changes nothing. *)
Theorem restoreFromURL_idempotent (st : state) (params : list (string * string)) :
  restoreFromURL params (restoreFromURL params st) = restoreFromURL params st.
Proof.
  assert (Hq : searchQuery (restoreFromURL params (restoreFromURL params st))
               = searchQuery (restoreFromURL params st)).
  { unfold restoreFromURL. simpl. destruct (List.find _ params); reflexivity. }
  assert (Ha : activeFilters (restoreFromURL params (restoreFromURL params st))
               = activeFilters (restoreFromURL params st)).
  { apply map_eq. intros k. rewrite (restoreFromURL_lookup (restoreFromURL params st)).
    change (taxonomy (restoreFromURL params st)) with (taxonomy st).
    rewrite (restoreFromURL_lookup st).
    destruct (List.find _ (rev params)) as [p|]; [|reflexivity].
    destruct (find_category (taxonomy st) k); [|reflexivity].
    destruct (String.eqb k "q"); reflexivity. }
  destruct (restoreFromURL params (restoreFromURL params st)) as [t a q] eqn:E1.
  destruct (restoreFromURL params st) as [t' a' q'] eqn:E2.
  simpl in *. subst. f_equal.
  change t with (taxonomy (State t a' q')). rewrite <- E1.
  change t' with (taxonomy (State t' a' q')) at 2. rewrite <- E2. reflexivity.
Qed.

End StateMore.

(** ** More on the match score *)

Section ScoreMore.
Import JS Filter Recommendation Session Selections Ranking Examples.

(** The bound of the score of the first part, at a concrete input. *)
Lemma score_bounded_witness :
  ((forall k,
      is_Some ((<["weaponCount" := SArr [PStr "standard"; PStr "few"]]> ∅
                : gmap string selection) !! k) ->
      inherited k = false) ->
   exists z : Z,
     calculateMatchScore (weapons ["many"; "standard"])
       (<["weaponCount" := SArr [PStr "standard"; PStr "few"]]> ∅)
     = Fin (inject_Z z) /\ (0 <= z <= 100)%Z) /\
  ((exists k,
      is_Some ((<["weaponCount" := SArr [PStr "standard"; PStr "few"]]> ∅
                : gmap string selection) !! k) /\
      inherited k = true) ->
   calculateMatchScore (weapons ["many"; "standard"])
     (<["weaponCount" := SArr [PStr "standard"; PStr "few"]]> ∅) = NaN).
Proof.
  apply (score_bounded (weapons ["many"; "standard"])
           (<["weaponCount" := SArr [PStr "standard"; PStr "few"]]> ∅)).
  - apply map_Forall_insert_2; [simpl; lia|apply map_Forall_empty].
  - intros k values Hk. apply lookup_insert_Some in Hk as [[<- _]|[_ Hk]].
    + exists ["many"; "standard"]. split; [reflexivity|].
      apply NoDup_cons. split; [|apply NoDup_singleton].
      intros H. apply list_elem_of_singleton in H. discriminate.
    + rewrite lookup_empty in Hk. discriminate.
Defined.

Lemma matchesFilters_true (currentLang : string) (st : state) (product : gmap string jsval) :
  matchesFilters currentLang st product = Some true ->
  forall k values, activeFilters st !! k = Some values ->
    matchesCategory (taxonomy st) product k values = true.
Proof.
  unfold matchesFilters. intros H k values Hk.
  assert (Hall : forallb (fun kv => matchesCategory (taxonomy st) product kv.1 kv.2)
                   (map_to_list (activeFilters st)) = true).
  { destruct (negb _); [|congruence].
    destruct (searchFields currentLang product); [|discriminate].
    destruct (existsb _ _); congruence. }
  rewrite List.forallb_forall in Hall.
  apply (Hall (k, values)), list_elem_of_In, elem_of_map_to_list, Hk.
Qed.

Lemma strict_eq_includes (l : list prim) (p : prim) :
  prim_strict_eq p (List.hd PUndef l) = true -> l <> [] -> array_includes l (VPrim p) = true.
Proof.
  destruct l as [|x l]; [contradiction|]. simpl. intros H _.
  unfold array_includes. simpl.
  destruct p as [| |a|a|a], x as [| |b|b|b]; try discriminate; simpl in *; try (rewrite H; reflexivity); try reflexivity.
  destruct a, b; simpl in *; try discriminate; rewrite H; reflexivity.
Qed.

Lemma full_credit tax product k values (tw mw : Q) :
  typed_entry tax product k values ->
  matchesCategory tax product k values = true ->
  exists w : Q, (0 < w)%Q /\
    scoreStep product (Fin tw, Fin mw) (k, values) = (Fin (tw + w), Fin (mw + w)).
Proof.
  intros (Hown & category & Hc & Ht) Hm.
  destruct (weightOf_positive k Hown) as (w & Hw & Hpos).
  exists w. split; [exact Hpos|].
  unfold matchesCategory in Hm. rewrite Hc in Hm.
  unfold scoreStep. cbn [fst snd]. rewrite Hw.
  destruct values as [l|lo hi].
  - destruct Ht as (Hr & (fs & -> & Hne) & p & Hp & Hu).
    apply String.eqb_neq in Hr. rewrite Hr, Hp in Hm. rewrite Hp.
    assert (Hnu : strict_eq (VPrim p) PUndef = false).
    { destruct p; try reflexivity. contradiction. }
    rewrite Hnu.
    assert (Hin : array_includes (List.map PStr fs) (VPrim p) = true).
    { destruct fs as [|f fs]; [contradiction|].
      destruct (String.eqb (cat_type category) "boolean").
      - simpl in Hm. apply negb_true_iff, negb_false_iff in Hm.
        apply (strict_eq_includes (List.map PStr (f :: fs))); [exact Hm|discriminate].
      - exact Hm. }
    rewrite Hin. reflexivity.
  - destruct Ht as (Hr & a & b & x & -> & -> & Hp).
    rewrite Hr, Hp in Hm. rewrite Hp. simpl in Hm. simpl.
    unfold js_lt, js_gt in Hm. unfold js_ge, js_le. simpl in *.
    apply negb_true_iff, orb_false_iff in Hm as [H1 H2].
    destruct (Qlt_bool x a), (Qlt_bool b x); try discriminate. reflexivity.
Qed.

Lemma full_credit_fold tax product (l : list (string * selection)) :
  forall tw mw : Q,
  List.Forall (fun e => typed_entry tax product e.1 e.2 /\
                        matchesCategory tax product e.1 e.2 = true) l ->
  exists tw' mw' : Q,
    foldl (scoreStep product) (Fin tw, Fin mw) l = (Fin tw', Fin mw') /\
    (tw' - tw == mw' - mw)%Q /\ (tw <= tw')%Q /\ (l <> [] -> (tw < tw')%Q).
Proof.
  induction l as [|[k values] l IH]; intros tw mw Hall; simpl.
  - exists tw, mw. split; [reflexivity|]. repeat split; try lra. congruence.
  - inversion Hall as [|e l' [Ht Hm] Hrest]; subst. simpl in Ht, Hm.
    destruct (full_credit tax product k values tw mw Ht Hm) as (w & Hpos & ->).
    destruct (IH (tw + w)%Q (mw + w)%Q Hrest) as (tw' & mw' & -> & Hd & Hle & _).
    exists tw', mw'. split; [reflexivity|]. repeat split; try lra.
Qed.

(** X16.  Where every active entry is of the kind the page builds for its
    category (under an id that names no member of [Object.prototype]) and
    the product has a single value for it, a product that passes
    [matchesFilters] has the score 100: among such products [sortByScore]
    has nothing to rank. *)
Theorem passing_product_scores_100 (currentLang : string) (st : state)
    (product : gmap string jsval) :
  activeFilters st <> ∅ ->
  (forall k values, activeFilters st !! k = Some values ->
     typed_entry (taxonomy st) product k values) ->
  matchesFilters currentLang st product = Some true ->
  calculateMatchScore product (activeFilters st) = Fin 100.
Proof.
  intros Hne Htyped Hpass.
  pose proof (matchesFilters_true _ _ _ Hpass) as Hall.
  unfold calculateMatchScore.
  assert (Hl : map_to_list (activeFilters st) <> []).
  { intros E. apply map_to_list_empty_iff in E. contradiction. }
  destruct (List.length (map_to_list (activeFilters st)) =? 0)%nat eqn:Hlen.
  { apply Nat.eqb_eq in Hlen. destruct (map_to_list (activeFilters st)); [contradiction|discriminate]. }
  destruct (full_credit_fold (taxonomy st) product (map_to_list (activeFilters st)) 0 0)
    as (tw & mw & Hfold & Hd & _ & Hpos).
  { apply List.Forall_forall. intros [k values] Hin.
    apply list_elem_of_In, elem_of_map_to_list in Hin. split.
    - exact (Htyped k values Hin).
    - exact (Hall k values Hin). }
  specialize (Hpos Hl).
  unfold weights. rewrite Hfold.
  cbv [percentage num_strict_eq num_div num_mul Math_round].
  rewrite (Qeq_bool_0_pos tw Hpos).
  assert (E : (mw / tw * 100 + (1 # 2) == 201 # 2)%Q).
  { assert (Hm : (mw == tw)%Q) by lra. rewrite Hm. field. lra. }
  rewrite (Qfloor_comp _ _ E). reflexivity.
Qed.

(** The theorem above, at a concrete input. *)
Lemma passing_product_scores_100_witness :
  calculateMatchScore productA (activeFilters (with_filters (initial tax) Examples.filters))
  = Fin 100.
Proof.
  apply (passing_product_scores_100 "en" (with_filters (initial tax) Examples.filters) productA).
  - intros E. apply (f_equal (fun m : gmap string selection => m !! "difficulty")) in E.
    vm_compute in E. discriminate.
  - intros k values Hk. apply elem_of_list_to_map_2 in Hk.
    apply elem_of_cons in Hk as [[= -> ->]|Hk].
    { split; [reflexivity|].
      exists (Category "difficulty" "single"). split; [reflexivity|].
      split; [discriminate|]. split.
      - exists ["beginner"]. split; [reflexivity|discriminate].
      - exists (PStr "beginner"). split; [reflexivity|discriminate]. }
    apply elem_of_cons in Hk as [[= -> ->]|Hk]; [|inversion Hk].
    split; [reflexivity|].
    exists (Category "mobility" "range"). split; [reflexivity|].
    split; [reflexivity|]. exists 3%Q, 5%Q, (inject_Z 4). repeat split; reflexivity.
  - vm_compute. reflexivity.
Defined.

Section Sort.
Context {A : Type} (compareFn : A -> A -> num) (key : A -> Q).

Lemma keyed_incl (l1 l2 : list A) :
  (forall a, a ∈ l1 -> a ∈ l2) -> keyed compareFn key l2 -> keyed compareFn key l1.
Proof. intros Hi Hk x y Hx Hy. apply Hk; apply Hi; assumption. Qed.

Lemma sort_insert_perm (x : A) (l : list A) : sort_insert compareFn x l ≡ₚ x :: l.
Proof.
  induction l as [|y l IH]; simpl; [reflexivity|].
  destruct (positive _); [|reflexivity].
  rewrite IH. apply Permutation_swap.
Qed.

Lemma Array_sort_perm (l : list A) : Array_sort compareFn l ≡ₚ l.
Proof.
  induction l as [|x l IH]; simpl; [reflexivity|].
  rewrite sort_insert_perm, IH. reflexivity.
Qed.

Lemma sort_insert_sorted (x : A) (l : list A) :
  keyed compareFn key (x :: l) ->
  StronglySorted (fun a b => (key b <= key a)%Q) l ->
  StronglySorted (fun a b => (key b <= key a)%Q) (sort_insert compareFn x l).
Proof.
  intros Hk Hs. induction Hs as [|y l Hs IH Hy]; simpl.
  - repeat constructor.
  - rewrite (Hk x y) by (try left; right; left). unfold Qlt_bool.
    destruct (Qle_bool (key y) (key x)) eqn:E; simpl.
    + apply Qle_bool_iff in E. constructor; [constructor; assumption|].
      constructor; [exact E|]. rewrite List.Forall_forall in Hy |- *.
      intros z Hz. specialize (Hy z Hz). lra.
    + assert (Hlt : (key x < key y)%Q).
      { apply Qnot_le_lt. intros H. apply Qle_bool_iff in H. congruence. }
      constructor.
      * apply IH. apply (keyed_incl _ (x :: y :: l)); [|exact Hk].
        intros a Ha. apply elem_of_cons in Ha as [->|Ha]; [left|right; right; exact Ha].
      * apply List.Forall_forall. intros z Hz.
        apply list_elem_of_In in Hz. rewrite sort_insert_perm in Hz.
        apply elem_of_cons in Hz as [->|Hz]; [lra|].
        rewrite List.Forall_forall in Hy. apply Hy, list_elem_of_In, Hz.
Qed.

Lemma keyed_perm (l1 l2 : list A) : l1 ≡ₚ l2 -> keyed compareFn key l1 -> keyed compareFn key l2.
Proof. intros Hp Hk x y Hx Hy. apply Hk; rewrite Hp; assumption. Qed.

Lemma Array_sort_sorted (l : list A) :
  keyed compareFn key l -> StronglySorted (fun a b => (key b <= key a)%Q) (Array_sort compareFn l).
Proof.
  induction l as [|x l IH]; intros Hk; simpl; [constructor|].
  apply sort_insert_sorted.
  - apply (keyed_perm (x :: l)); [|exact Hk]. rewrite Array_sort_perm. reflexivity.
  - apply IH. apply (keyed_incl _ _ (fun a Ha => proj2 (elem_of_cons l a x) (or_intror Ha)) Hk).
Qed.

Lemma sort_insert_filter (P : A -> bool) (x : A) (l : list A) :
  keyed compareFn key (x :: l) ->
  (forall a b, P a = true -> P b = true -> (key a == key b)%Q) ->
  StronglySorted (fun a b => (key b <= key a)%Q) l ->
  List.filter P (sort_insert compareFn x l) = List.filter P (x :: l).
Proof.
  intros Hk HP Hs. induction Hs as [|y l Hs IH Hy]; [reflexivity|].
  cbn [sort_insert].
  rewrite (Hk x y) by (try left; right; left). unfold Qlt_bool.
  destruct (Qle_bool (key y) (key x)) eqn:E; cbn [negb]; [reflexivity|].
  assert (Hlt : (key x < key y)%Q).
  { apply Qnot_le_lt. intros H. apply Qle_bool_iff in H. congruence. }
  cbn [List.filter]. rewrite IH.
  2:{ apply (keyed_incl _ (x :: y :: l)); [|exact Hk].
      intros a Ha. apply elem_of_cons in Ha as [->|Ha]; [left|right; right; exact Ha]. }
  cbn [List.filter].
  destruct (P x) eqn:Px; [|reflexivity].
  destruct (P y) eqn:Py; [|reflexivity].
  pose proof (HP x y Px Py). lra.
Qed.

Lemma Array_sort_stable (P : A -> bool) (l : list A) :
  keyed compareFn key l ->
  (forall a b, P a = true -> P b = true -> (key a == key b)%Q) ->
  List.filter P (Array_sort compareFn l) = List.filter P l.
Proof.
  intros Hk HP. induction l as [|x l IH]; [reflexivity|].
  cbn [Array_sort foldr].
  assert (Hk' : keyed compareFn key l).
  { apply (keyed_incl _ _ (fun a Ha => proj2 (elem_of_cons l a x) (or_intror Ha)) Hk). }
  change (foldr (sort_insert compareFn) [] l) with (Array_sort compareFn l).
  rewrite sort_insert_filter.
  - cbn [List.filter]. rewrite (IH Hk'). reflexivity.
  - apply (keyed_perm (x :: l)); [|exact Hk]. rewrite Array_sort_perm. reflexivity.
  - exact HP.
  - apply Array_sort_sorted, Hk'.
Qed.

End Sort.

Lemma scoreStep_finite product (tw mw : Q) (k : string) (values : selection) :
  inherited k = false ->
  (1 <= activeCount values)%nat ->
  exists tw' mw' : Q,
    scoreStep product (Fin tw, Fin mw) (k, values) = (Fin tw', Fin mw') /\ (tw < tw')%Q.
Proof.
  intros Hown Hne.
  destruct (weightOf_positive k Hown) as (w & Hw & Hpos).
  unfold scoreStep. cbn [fst snd]. rewrite Hw.
  destruct (strict_eq _ _).
  { exists (tw + w)%Q, mw. split; [reflexivity|lra]. }
  destruct values as [fl|lo hi].
  - destruct (Filter.productValue product k) as [p|pl|o].
    + destruct (array_includes fl (VPrim p)); eexists _, _; (split; [reflexivity|lra]).
    + unfold num_of_nat. cbn [num_div].
      assert (Hz : Qeq_bool (inject_Z (Z.of_nat (List.length fl))) 0 = false).
      { apply Qeq_bool_0_pos. simpl in Hne.
        change 0%Q with (inject_Z 0). rewrite <- Zlt_Qlt. lia. }
      rewrite Hz. eexists _, _; (split; [reflexivity|lra]).
    + destruct (array_includes fl (VObj o)); eexists _, _; (split; [reflexivity|lra]).
  - destruct (negb _); [|eexists _, _; (split; [reflexivity|lra])].
    destruct (_ && _); eexists _, _; (split; [reflexivity|lra]).
Qed.

Lemma weights_finite product (l : list (string * selection)) :
  forall tw mw : Q,
  List.Forall (fun e => inherited e.1 = false /\ (1 <= activeCount e.2)%nat) l ->
  exists tw' mw' : Q,
    foldl (scoreStep product) (Fin tw, Fin mw) l = (Fin tw', Fin mw') /\
    (tw <= tw')%Q /\ (l <> [] -> (tw < tw')%Q).
Proof.
  induction l as [|[k values] l IH]; intros tw mw Hall; simpl.
  - exists tw, mw. split; [reflexivity|]. split; [lra|congruence].
  - inversion Hall as [|e l' [Hown Hne] Hrest]; subst.
    destruct (scoreStep_finite product tw mw k values Hown Hne) as (tw1 & mw1 & -> & Hlt).
    destruct (IH tw1 mw1 Hrest) as (tw' & mw' & -> & Hle & _).
    exists tw', mw'. split; [reflexivity|]. split; [lra|]. intros _. lra.
Qed.

Lemma score_finite (product : gmap string jsval) (filters : gmap string selection) :
  nonempty_selections filters ->
  (forall k, is_Some (filters !! k) -> inherited k = false) ->
  exists q : Q, calculateMatchScore product filters = Fin q.
Proof.
  intros Hne Hown. unfold calculateMatchScore.
  destruct (List.length (map_to_list filters) =? 0)%nat eqn:Hlen; [exists 0%Q; reflexivity|].
  destruct (weights_finite product (map_to_list filters) 0 0) as (tw & mw & Hfold & _ & Hpos).
  { apply List.Forall_forall. intros [k values] Hin.
    apply list_elem_of_In, elem_of_map_to_list in Hin. split.
    - apply Hown. exists values. exact Hin.
    - exact (Hne k values Hin). }
  assert (Htw : (0 < tw)%Q).
  { apply Hpos. intros E. rewrite E in Hlen. discriminate. }
  unfold weights. rewrite Hfold.
  cbv [percentage num_strict_eq num_div num_mul Math_round].
  rewrite (Qeq_bool_0_pos tw Htw). eexists. reflexivity.
Qed.

Lemma matchScore_withScore (filters : gmap string selection) (product : gmap string jsval) :
  matchScore (withScore filters product) = calculateMatchScore product filters.
Proof. unfold matchScore, withScore. simpl. rewrite lookup_insert_eq. reflexivity. Qed.

(** A comparator that is never positive leaves the array as it is. *)
Lemma Array_sort_id {A} (compareFn : A -> A -> num) (l : list A) :
  (forall x y, x ∈ l -> y ∈ l -> positive (compareFn x y) = false) ->
  Array_sort compareFn l = l.
Proof.
  induction l as [|x l IH]; intros H; [reflexivity|].
  cbn [Array_sort foldr]. change (foldr (sort_insert compareFn) [] l) with (Array_sort compareFn l).
  rewrite IH by (intros a b Ha Hb; apply H; right; assumption).
  destruct l as [|y r]; [reflexivity|]. cbn [sort_insert].
  rewrite (H x y) by (try left; right; left). reflexivity.
Qed.

(** X17.  [sortByScore] returns the products it is given, each with its
    score, in the order of decreasing scores, and products with the same
    score in the order they had.  (No selection is an empty array: the
    score is then a number, unless the id of an active category names a
    member of [Object.prototype]; every score is then [NaN] and the
    products keep their order.) *)
Theorem sortByScore_descending_stable (products : list (gmap string jsval))
    (filters : gmap string selection) :
  nonempty_selections filters ->
  sortByScore products filters ≡ₚ List.map (withScore filters) products /\
  ((forall k, is_Some (filters !! k) -> inherited k = false) ->
   StronglySorted (fun a b => num_lt (matchScore a) (matchScore b) = Some false)
     (sortByScore products filters)) /\
  (forall score : num,
     List.filter (fun p => num_strict_eq (matchScore p) score) (sortByScore products filters)
     = List.filter (fun p => num_strict_eq (matchScore p) score)
         (List.map (withScore filters) products)) /\
  ((exists k, is_Some (filters !! k) /\ inherited k = true) ->
   sortByScore products filters = List.map (withScore filters) products).
Proof.
  intros Hne. unfold sortByScore.
  set (compareFn := fun a b : gmap string jsval => num_sub (matchScore b) (matchScore a)).
  set (l := List.map (withScore filters) products).
  assert (Hnan : (exists k, is_Some (filters !! k) /\ inherited k = true) ->
                 Array_sort compareFn l = l).
  { intros (k & Hk & Hin). apply Array_sort_id. intros x y Hx Hy.
    apply list_elem_of_In, List.in_map_iff in Hx as (x0 & <- & _).
    unfold compareFn. rewrite !matchScore_withScore.
    rewrite (inherited_name_scores_NaN x0 filters k Hk Hin).
    destruct (matchScore y); reflexivity. }
  destruct (existsb (fun kv : string * selection => inherited kv.1) (map_to_list filters))
    eqn:Hex.
  { (* an inherited name is active: the order is kept *)
    apply List.existsb_exists in Hex as ([k values] & Hkv & Hin).
    apply list_elem_of_In, elem_of_map_to_list in Hkv.
    assert (Hsome : exists k, is_Some (filters !! k) /\ inherited k = true).
    { exists k. split; [exists values; exact Hkv|exact Hin]. }
    rewrite (Hnan Hsome). split; [reflexivity|]. split; [|split; [reflexivity|reflexivity]].
    intros Hown. simpl in Hin. rewrite (Hown k) in Hin by (exists values; exact Hkv).
    discriminate. }
  assert (Hown : forall k, is_Some (filters !! k) -> inherited k = false).
  { intros k [values Hk].
    destruct (inherited k) eqn:Hin; [|reflexivity].
    assert (Ht : existsb (fun kv : string * selection => inherited kv.1) (map_to_list filters)
                 = true).
    { apply List.existsb_exists. exists (k, values). split; [|exact Hin].
      apply list_elem_of_In, elem_of_map_to_list, Hk. }
    congruence. }
  set (key := fun p : gmap string jsval =>
                match matchScore p with Fin q => q | _ => 0%Q end).
  assert (Hfin : forall p, p ∈ l -> matchScore p = Fin (key p)).
  { intros p Hp. apply list_elem_of_In, List.in_map_iff in Hp as (p0 & <- & _).
    unfold key. rewrite matchScore_withScore.
    destruct (score_finite p0 filters Hne Hown) as [q ->]. reflexivity. }
  assert (Hk : keyed compareFn key l).
  { intros x y Hx Hy. unfold compareFn. rewrite (Hfin x Hx), (Hfin y Hy). simpl.
    unfold Qlt_bool. f_equal.
    destruct (Qle_bool (key y + - key x) 0) eqn:E1, (Qle_bool (key y) (key x)) eqn:E2;
      try reflexivity.
    - apply Qle_bool_iff in E1.
      assert (H : (key y <= key x)%Q) by lra. apply Qle_bool_iff in H. congruence.
    - apply Qle_bool_iff in E2.
      assert (H : (key y + - key x <= 0)%Q) by lra. apply Qle_bool_iff in H. congruence. }
  split; [apply Array_sort_perm|]. split; [|split].
  - intros _.
    pose proof (Array_sort_sorted compareFn key l Hk) as Hs.
    pose proof (Array_sort_perm compareFn l) as Hp.
    assert (Hin : forall p, p ∈ Array_sort compareFn l -> matchScore p = Fin (key p)).
    { intros p H. apply Hfin. rewrite <- Hp. exact H. }
    revert Hs Hin. generalize (Array_sort compareFn l) as r. clear.
    induction 1 as [|a r Hs IH Ha]; intros Hin; constructor.
    + apply IH. intros p Hp. apply Hin. right. exact Hp.
    + rewrite List.Forall_forall in Ha |- *. intros b Hb.
      rewrite (Hin a) by left.
      rewrite (Hin b) by (right; apply list_elem_of_In, Hb).
      simpl. unfold Qlt_bool. f_equal.
      pose proof (Ha b Hb) as Hle. apply Qle_bool_iff in Hle. rewrite Hle. reflexivity.
  - intros score.
    assert (Hsame : List.filter (fun p => num_strict_eq (matchScore p) score) l =
                    List.filter (fun p => num_strict_eq (matchScore p) score &&
                                   match matchScore p with Fin _ => true | _ => false end) l).
    { apply List.filter_ext_in. intros p Hp. apply list_elem_of_In in Hp.
      rewrite (Hfin p Hp). rewrite andb_true_r. reflexivity. }
    assert (Hsame' : List.filter (fun p => num_strict_eq (matchScore p) score)
                       (Array_sort compareFn l) =
                     List.filter (fun p => num_strict_eq (matchScore p) score &&
                                    match matchScore p with Fin _ => true | _ => false end)
                       (Array_sort compareFn l)).
    { apply List.filter_ext_in. intros p Hp. apply list_elem_of_In in Hp.
      rewrite (Array_sort_perm compareFn l) in Hp.
      rewrite (Hfin p Hp). rewrite andb_true_r. reflexivity. }
    rewrite Hsame, Hsame'.
    apply (Array_sort_stable compareFn key); [exact Hk|].
    intros a b Ha Hb. unfold key.
    apply andb_true_iff in Ha as [Ha Ha'], Hb as [Hb Hb'].
    destruct (matchScore a) as [|qa|], (matchScore b) as [|qb|]; try discriminate.
    destruct score as [|qs|]; try discriminate. simpl in Ha, Hb.
    apply Qeq_bool_iff in Ha, Hb. rewrite Ha, Hb. reflexivity.
  - exact Hnan.
Qed.

(** The theorem above, at a concrete input. *)
Lemma sortByScore_descending_stable_witness :
  sortByScore [productB; productA; productC] Examples.filters
    ≡ₚ List.map (withScore Examples.filters) [productB; productA; productC] /\
  ((forall k, is_Some (Examples.filters !! k) -> inherited k = false) ->
   StronglySorted (fun a b => num_lt (matchScore a) (matchScore b) = Some false)
     (sortByScore [productB; productA; productC] Examples.filters)) /\
  (forall score : num,
     List.filter (fun p => num_strict_eq (matchScore p) score)
       (sortByScore [productB; productA; productC] Examples.filters)
     = List.filter (fun p => num_strict_eq (matchScore p) score)
         (List.map (withScore Examples.filters) [productB; productA; productC])) /\
  ((exists k, is_Some (Examples.filters !! k) /\ inherited k = true) ->
   sortByScore [productB; productA; productC] Examples.filters
   = List.map (withScore Examples.filters) [productB; productA; productC]).
Proof.
  apply (sortByScore_descending_stable [productB; productA; productC] Examples.filters).
  intros k values Hk. apply elem_of_list_to_map_2 in Hk.
  apply elem_of_cons in Hk as [[= -> ->]|Hk]; [simpl; lia|].
  apply elem_of_cons in Hk as [[= -> ->]|Hk]; [simpl; lia|inversion Hk].
Defined.



End ScoreMore.

(** ** The page: listing, favourites, compare list, recently viewed *)

Section Page.
Import JS Filter Recommendation Session Ranking Examples App.

Lemma indexOf_None (arr : list string) (x : string) :
  indexOf arr x = None <-> x ∉ arr.
Proof.
  induction arr as [|y r IH]; simpl.
  - split; [intros _ H; inversion H|reflexivity].
  - rewrite not_elem_of_cons. destruct (String.eqb_spec y x) as [->|Hne].
    + split; [discriminate|]. intros [H _]. contradiction.
    + destruct (indexOf r x); simpl.
      * split; [discriminate|]. intros [_ H]. apply IH in H. discriminate.
      * split; [|reflexivity]. intros _. split; [congruence|]. apply IH. reflexivity.
Qed.

Lemma indexOf_Some (arr : list string) (x : string) (i : nat) :
  indexOf arr x = Some i -> arr !! i = Some x /\ x ∉ take i arr.
Proof.
  revert i. induction arr as [|y r IH]; intros i; simpl; [discriminate|].
  destruct (String.eqb_spec y x) as [->|Hne].
  - intros [= <-]. split; [reflexivity|]. simpl. intros H. inversion H.
  - destruct (indexOf r x) as [j|]; simpl; [|discriminate].
    intros [= <-]. destruct (IH j eq_refl) as [Hl Hn]. split; [exact Hl|].
    simpl. rewrite not_elem_of_cons. split; [congruence|exact Hn].
Qed.

(** Removing the element at the first index of [x] from a list without
    repetition removes [x] and nothing else. *)
Lemma delete_first (arr : list string) (x : string) (i : nat) :
  NoDup arr -> indexOf arr x = Some i ->
  NoDup (delete i arr) /\
  (x ∉ delete i arr) /\
  (forall y, y <> x -> (y ∈ delete i arr <-> y ∈ arr)) /\
  S (List.length (delete i arr)) = List.length arr.
Proof.
  intros Hnd Hi. destruct (indexOf_Some arr x i Hi) as [Hl _].
  pose proof (take_drop_middle arr i x Hl) as E.
  assert (Hd : delete i arr = (take i arr ++ drop (S i) arr)%list) by apply delete_take_drop.
  rewrite Hd. rewrite <- E in Hnd.
  apply NoDup_app in Hnd as (H1 & H2 & H3).
  apply NoDup_cons in H3 as [H3 H4].
  split; [|split; [|split]].
  - apply NoDup_app. split; [exact H1|]. split; [|exact H4].
    intros y Hy Hy'. apply (H2 y Hy). right. exact Hy'.
  - rewrite not_elem_of_app. split; [|exact H3].
    intros H. apply (H2 x H). left.
  - intros y Hy.
    assert (Hm : y ∈ arr <-> y ∈ take i arr \/ y = x \/ y ∈ drop (S i) arr).
    { rewrite <- E at 1. rewrite elem_of_app, elem_of_cons. reflexivity. }
    rewrite elem_of_app. tauto.
  - assert (Hm : List.length arr
                 = (List.length (take i arr) + S (List.length (drop (S i) arr)))%nat).
    { rewrite <- E at 1. rewrite length_app. reflexivity. }
    rewrite length_app. lia.
Qed.

(** X18.  On a list of favourites without repetition, [toggleFavorite]
    keeps the list without repetition, makes the product a favourite
    exactly when it was none, and leaves the other products as they are. *)
Theorem toggleFavorite_flips (productId : string) (favorites : list string) :
  NoDup favorites ->
  NoDup (toggleFavorite productId favorites) /\
  (productId ∈ toggleFavorite productId favorites <-> productId ∉ favorites) /\
  (forall id, id <> productId ->
     (id ∈ toggleFavorite productId favorites <-> id ∈ favorites)).
Proof.
  intros Hnd. unfold toggleFavorite.
  destruct (indexOf favorites productId) as [i|] eqn:Hi.
  - destruct (delete_first favorites productId i Hnd Hi) as (A & B & C & _).
    assert (Hin : productId ∈ favorites).
    { destruct (indexOf_Some _ _ _ Hi) as [Hl _]. apply list_elem_of_lookup. eauto. }
    split; [exact A|]. split; [tauto|exact C].
  - apply indexOf_None in Hi. split; [|split].
    + apply NoDup_app. split; [exact Hnd|]. split; [|apply NoDup_singleton].
      intros y Hy Hy'. apply list_elem_of_singleton in Hy'. subst y. contradiction.
    + rewrite elem_of_app, list_elem_of_singleton. tauto.
    + intros id Hid. rewrite elem_of_app, list_elem_of_singleton. tauto.
Qed.

(** The theorem above, at a concrete input. *)
Lemma toggleFavorite_flips_witness :
  NoDup (toggleFavorite "hg-zaku" ["hg-gouf"; "hg-zaku"; "mg-dom"]) /\
  (("hg-zaku" ∈ toggleFavorite "hg-zaku" ["hg-gouf"; "hg-zaku"; "mg-dom"])
   <-> "hg-zaku" ∉ ["hg-gouf"; "hg-zaku"; "mg-dom"]) /\
  (forall id, id <> "hg-zaku" ->
     (id ∈ toggleFavorite "hg-zaku" ["hg-gouf"; "hg-zaku"; "mg-dom"]
      <-> id ∈ ["hg-gouf"; "hg-zaku"; "mg-dom"])).
Proof.
  apply (toggleFavorite_flips "hg-zaku" ["hg-gouf"; "hg-zaku"; "mg-dom"]).
  refine (bool_decide_unpack _ _). vm_compute. reflexivity.
Defined.

(** X19.  A compare list without repetition and of at most [MAX_COMPARE]
    products stays so under [toggleCompare].  The product is on the list
    afterwards exactly when it was not and the list had room; the other
    products stay as they are, so a product can always be taken off. *)
Theorem toggleCompare_keeps_limit (productId : string) (compareList : list string) :
  NoDup compareList ->
  (List.length compareList <= MAX_COMPARE)%nat ->
  NoDup (toggleCompare productId compareList) /\
  (List.length (toggleCompare productId compareList) <= MAX_COMPARE)%nat /\
  (productId ∈ toggleCompare productId compareList <->
   (productId ∉ compareList) /\ (List.length compareList < MAX_COMPARE)%nat) /\
  (forall id, id <> productId ->
     (id ∈ toggleCompare productId compareList <-> id ∈ compareList)).
Proof.
  intros Hnd Hlen. unfold toggleCompare.
  destruct (indexOf compareList productId) as [i|] eqn:Hi.
  - destruct (delete_first compareList productId i Hnd Hi) as (A & B & C & D).
    assert (Hin : productId ∈ compareList).
    { destruct (indexOf_Some _ _ _ Hi) as [Hl _]. apply list_elem_of_lookup. eauto. }
    split; [exact A|]. split; [lia|]. split; [tauto|exact C].
  - apply indexOf_None in Hi.
    destruct (Nat.leb_spec MAX_COMPARE (List.length compareList)) as [Hfull|Hroom].
    + split; [exact Hnd|]. split; [exact Hlen|]. split; [|tauto].
      split; [contradiction|]. intros [_ H]. lia.
    + split; [|split; [|split]].
      * apply NoDup_app. split; [exact Hnd|]. split; [|apply NoDup_singleton].
        intros y Hy Hy'. apply list_elem_of_singleton in Hy'. subst y. contradiction.
      * rewrite length_app. simpl. lia.
      * rewrite elem_of_app, list_elem_of_singleton. tauto.
      * intros id Hid. rewrite elem_of_app, list_elem_of_singleton. tauto.
Qed.

(** The theorem above, at a concrete input. *)
Lemma toggleCompare_keeps_limit_witness :
  NoDup (toggleCompare "pg-unicorn" ["hg-gouf"; "hg-zaku"; "mg-dom"; "rg-nu"]) /\
  (List.length (toggleCompare "pg-unicorn" ["hg-gouf"; "hg-zaku"; "mg-dom"; "rg-nu"])
   <= MAX_COMPARE)%nat /\
  (("pg-unicorn" ∈ toggleCompare "pg-unicorn" ["hg-gouf"; "hg-zaku"; "mg-dom"; "rg-nu"]) <->
   ("pg-unicorn" ∉ ["hg-gouf"; "hg-zaku"; "mg-dom"; "rg-nu"]) /\
   (List.length ["hg-gouf"; "hg-zaku"; "mg-dom"; "rg-nu"] < MAX_COMPARE)%nat) /\
  (forall id, id <> "pg-unicorn" ->
     (id ∈ toggleCompare "pg-unicorn" ["hg-gouf"; "hg-zaku"; "mg-dom"; "rg-nu"]
      <-> id ∈ ["hg-gouf"; "hg-zaku"; "mg-dom"; "rg-nu"])).
Proof.
  apply (toggleCompare_keeps_limit "pg-unicorn" ["hg-gouf"; "hg-zaku"; "mg-dom"; "rg-nu"]).
  - refine (bool_decide_unpack _ _). vm_compute. reflexivity.
  - vm_compute. lia.
Defined.

Lemma filter_sublist {A} (f : A -> bool) (l : list A) : sublist (List.filter f l) l.
Proof.
  induction l as [|x l IH]; simpl; [constructor|].
  destruct (f x); [apply sublist_skip|apply sublist_cons]; exact IH.
Qed.

(** X20.  [addToRecent] puts the product first and nowhere else, keeps
    at most [MAX_RECENT] ids, and keeps the ids that were stored in their
    order: from a list without repetition it stores one, and from a list
    that is not full it drops nothing. *)
Theorem addToRecent_moves_to_front (productId : string) (recent : list string) :
  head (addToRecent productId recent) = Some productId /\
  (List.length (addToRecent productId recent) <= MAX_RECENT)%nat /\
  (productId ∉ tail (addToRecent productId recent)) /\
  sublist (tail (addToRecent productId recent)) recent /\
  (NoDup recent -> NoDup (addToRecent productId recent)) /\
  ((List.length recent < MAX_RECENT)%nat ->
   forall id, id ∈ recent -> id ∈ addToRecent productId recent).
Proof.
  unfold addToRecent, MAX_RECENT.
  set (others := List.filter (fun id => negb (String.eqb id productId)) recent).
  assert (Hsub : sublist others recent) by apply filter_sublist.
  assert (Hnot : productId ∉ others).
  { intros H. apply list_elem_of_In, List.filter_In in H as [_ H].
    rewrite String.eqb_refl in H. discriminate. }
  change (take 10 (productId :: others)) with (productId :: take 9 others).
  cbn [head tail].
  split; [reflexivity|]. split; [simpl; rewrite length_take; lia|].
  split; [intros H; apply Hnot; exact (elem_of_sublist _ _ _ H (sublist_take _ _))|].
  split; [etransitivity; [apply sublist_take|exact Hsub]|].
  split.
  - intros Hnd. apply NoDup_cons. split.
    + intros H. apply Hnot. exact (elem_of_sublist _ _ _ H (sublist_take _ _)).
    + apply (sublist_NoDup _ recent); [exact Hnd|]. etransitivity; [apply sublist_take|exact Hsub].
  - intros Hlen id Hid.
    assert (Hlo : (List.length others <= List.length recent)%nat) by apply List.filter_length_le.
    rewrite take_ge by lia.
    destruct (String.eqb_spec id productId) as [->|Hne]; [left|].
    right. apply list_elem_of_In, List.filter_In. split; [apply list_elem_of_In, Hid|].
    apply negb_true_iff, String.eqb_neq, Hne.
Qed.

End Page.

(** *** Pages of the listing *)

Section Cards.
Import JS Filter Recommendation Session Ranking Examples App.

Context {card : Type} (createProductCard : gmap string jsval -> option card).


(** The loop returns exactly when every item has a card, with the cards
    appended in order. *)
Lemma appendCards_Returned (items : list (gmap string jsval)) (cards r : list card) :
  appendCards createProductCard items cards = Returned r
  <-> exists cs, r = (cards ++ cs)%list /\ Forall2 (fun product c => createProductCard product = Some c) items cs.
Proof.
  revert cards. induction items as [|p items IH]; intros cards; simpl.
  - split.
    + intros [= <-]. exists []. rewrite app_nil_r. split; [reflexivity|constructor].
    + intros (cs & -> & H). inversion H. rewrite app_nil_r. reflexivity.
  - destruct (createProductCard p) as [c|] eqn:Hc.
    + rewrite IH. split.
      * intros (cs & -> & H). exists (c :: cs). rewrite <- app_assoc. split; [reflexivity|].
        constructor; assumption.
      * intros (cs & -> & H). inversion H as [|? c' ? cs' Hc' Hrest]; subst.
        assert (c' = c) by congruence. subst c'.
        exists cs'. rewrite <- app_assoc. split; [reflexivity|exact Hrest].
    + split; [discriminate|]. intros (cs & _ & H). inversion H; congruence.
Qed.

Lemma appendCards_returns (items : list (gmap string jsval)) (cards : list card) :
  (forall p, p ∈ items -> is_Some (createProductCard p)) ->
  exists cs, appendCards createProductCard items cards = Returned (cards ++ cs)%list /\ Forall2 (fun product c => createProductCard product = Some c) items cs.
Proof.
  revert cards. induction items as [|p items IH]; intros cards Hall; simpl.
  - exists []. rewrite app_nil_r. split; [reflexivity|constructor].
  - destruct (Hall p) as [c Hc]; [left|]. rewrite Hc.
    destruct (IH (cards ++ [c])%list) as (cs & -> & H).
    { intros q Hq. apply Hall. right. exact Hq. }
    exists (c :: cs). rewrite <- app_assoc. split; [reflexivity|]. constructor; assumption.
Qed.

(** The loop stops at the first item that has no card. *)
Lemma appendCards_throws (pre post : list (gmap string jsval)) (p : gmap string jsval)
    (cards : list card) :
  (forall q, q ∈ pre -> is_Some (createProductCard q)) ->
  createProductCard p = None ->
  exists cs, appendCards createProductCard (pre ++ p :: post) cards = Thrown (cards ++ cs)%list /\
             Forall2 (fun product c => createProductCard product = Some c) pre cs.
Proof.
  revert cards. induction pre as [|q pre IH]; intros cards Hall Hp; simpl.
  - rewrite Hp. exists []. rewrite app_nil_r. split; [reflexivity|constructor].
  - destruct (Hall q) as [c Hc]; [left|]. rewrite Hc.
    destruct (IH (cards ++ [c])%list) as (cs & -> & H); [|exact Hp|].
    { intros x Hx. apply Hall. right. exact Hx. }
    exists (c :: cs). rewrite <- app_assoc. split; [reflexivity|]. constructor; assumption.
Qed.

(** The cards that the grid keeps and the items of the next page are the
    products up to the end of that page. *)
Lemma page_items (l : list (gmap string jsval)) (n : nat) :
  (take (Nat.min n (List.length l)) l
   ++ slice (Nat.min n (List.length l))
        (Nat.min (Nat.min n (List.length l) + ITEMS_PER_PAGE) (List.length l)) l)%list
  = take (n + ITEMS_PER_PAGE) l.
Proof.
  unfold slice. set (len := List.length l).
  destruct (Nat.le_gt_cases len n) as [Hge|Hlt].
  - replace (Nat.min n len) with len by lia.
    replace (Nat.min (len + ITEMS_PER_PAGE) len - len)%nat with 0%nat by lia.
    rewrite take_0, app_nil_r. rewrite !take_ge; [reflexivity|fold len; lia|fold len; lia].
  - replace (Nat.min n len) with n by lia.
    destruct (Nat.le_gt_cases len (n + ITEMS_PER_PAGE)) as [Hlast|Hmore].
    + replace (Nat.min (n + ITEMS_PER_PAGE) len - n)%nat with (len - n)%nat by lia.
      rewrite (take_ge (drop n l)) by (rewrite length_drop; fold len; lia).
      rewrite take_drop. rewrite take_ge; [reflexivity|fold len; lia].
    + replace (Nat.min (n + ITEMS_PER_PAGE) len - n)%nat with ITEMS_PER_PAGE by lia.
      rewrite <- take_take_drop. reflexivity.
Qed.

(** The cards that a call starts from. *)
Lemma kept_cards (pg : page) (n : nat) :
  displayedCount pg = Nat.min n (List.length (filteredProducts pg)) ->
  (n = 0%nat \/ Forall2 (fun product c => createProductCard product = Some c)
      (take n (filteredProducts pg)) (grid pg)) ->
  Forall2 (fun product c => createProductCard product = Some c)
      (take (displayedCount pg) (filteredProducts pg))
    (if (displayedCount pg =? 0)%nat then [] else grid pg).
Proof.
  intros Hd Hg. destruct (Nat.eqb_spec (displayedCount pg) 0) as [E|E].
  - rewrite E, take_0. constructor.
  - destruct Hg as [->|Hg]; [simpl in Hd; contradiction|].
    rewrite Hd. destruct (Nat.le_gt_cases (List.length (filteredProducts pg)) n).
    + replace (Nat.min n _) with (List.length (filteredProducts pg)) by lia.
      rewrite take_ge in Hg by lia. rewrite take_ge by lia. exact Hg.
    + replace (Nat.min n _) with n by lia. exact Hg.
Qed.

(** One call shows the next page after the prefix that is shown. *)
Lemma renderProducts_next (pg : page) (n : nat) :
  displayedCount pg = Nat.min n (List.length (filteredProducts pg)) ->
  (n = 0%nat \/ Forall2 (fun product c => createProductCard product = Some c)
      (take n (filteredProducts pg)) (grid pg)) ->
  (forall p, p ∈ take (n + ITEMS_PER_PAGE) (filteredProducts pg) ->
             is_Some (createProductCard p)) ->
  exists pg',
    renderProducts createProductCard pg = Returned pg' /\
    products pg' = products pg /\
    filteredProducts pg' = filteredProducts pg /\
    displayedCount pg' = Nat.min (n + ITEMS_PER_PAGE) (List.length (filteredProducts pg)) /\
    Forall2 (fun product c => createProductCard product = Some c)
      (take (n + ITEMS_PER_PAGE) (filteredProducts pg)) (grid pg').
Proof.
  intros Hd Hg Hall. pose proof (kept_cards pg n Hd Hg) as Hkept.
  unfold App.renderProducts.
  destruct (List.length (filteredProducts pg) =? 0)%nat eqn:Hlen.
  - apply Nat.eqb_eq in Hlen. eexists. split; [reflexivity|]. cbn [products filteredProducts
      displayedCount grid]. rewrite Hd, Hlen.
    destruct (filteredProducts pg); [|discriminate].
    repeat split; [lia|]. rewrite take_nil. constructor.
  - pose proof (page_items (filteredProducts pg) n) as Hitems. rewrite <- Hd in Hitems.
    set (items := slice _ _ _) in *.
    destruct (appendCards_returns items
                (if (displayedCount pg =? 0)%nat then [] else grid pg)) as (cs & -> & Hcs).
    { intros p Hp. apply Hall. rewrite <- Hitems. apply elem_of_app. right. exact Hp. }
    eexists. split; [reflexivity|]. cbn [products filteredProducts displayedCount grid].
    repeat split.
    + rewrite Hd. unfold ITEMS_PER_PAGE. lia.
    + rewrite <- Hitems. apply Forall2_app; assumption.
Qed.

(** A call on a page that holds a product without a card throws at that
    product. *)
Lemma renderProducts_throws (pg : page) (i : nat) (p : gmap string jsval) :
  (displayedCount pg = 0%nat \/
   Forall2 (fun product c => createProductCard product = Some c)
      (take (displayedCount pg) (filteredProducts pg)) (grid pg)) ->
  filteredProducts pg !! i = Some p ->
  createProductCard p = None ->
  (forall q, q ∈ take i (filteredProducts pg) -> is_Some (createProductCard q)) ->
  (displayedCount pg <= i < displayedCount pg + ITEMS_PER_PAGE)%nat ->
  exists pg',
    renderProducts createProductCard pg = Thrown pg' /\
    products pg' = products pg /\
    filteredProducts pg' = filteredProducts pg /\
    displayedCount pg' = displayedCount pg /\
    Forall2 (fun product c => createProductCard product = Some c)
      (take i (filteredProducts pg)) (grid pg').
Proof.
  intros Hg Hi Hp Hall Hrange.
  pose proof (lookup_lt_Some _ _ _ Hi) as Hlt.
  set (l := filteredProducts pg) in *. set (n := displayedCount pg) in *.
  assert (Hkept : Forall2 (fun product c => createProductCard product = Some c)
      (take n l) (if (n =? 0)%nat then [] else grid pg)).
  { destruct (Nat.eqb_spec n 0) as [E|E]; [rewrite E, take_0; constructor|].
    destruct Hg as [Hg|Hg]; [contradiction|exact Hg]. }
  unfold App.renderProducts. fold l n.
  destruct (Nat.eqb_spec (List.length l) 0) as [E|E]; [lia|].
  set (items := slice n (Nat.min (n + ITEMS_PER_PAGE) (List.length l)) l).
  assert (Hitem : items !! (i - n)%nat = Some p).
  { unfold items, slice. rewrite lookup_take_lt by lia. rewrite lookup_drop.
    replace (n + (i - n))%nat with i by lia. exact Hi. }
  assert (Hpre : (take n l ++ take (i - n) items)%list = take i l).
  { unfold items, slice. rewrite take_take. replace (Nat.min (i - n) _) with (i - n)%nat by lia.
    rewrite take_take_drop. f_equal. lia. }
  rewrite <- (take_drop_middle items (i - n) p Hitem).
  destruct (appendCards_throws (take (i - n) items) (drop (S (i - n)) items) p
              (if (n =? 0)%nat then [] else grid pg)) as (cs & -> & Hcs); [|exact Hp|].
  { intros q Hq. apply Hall. rewrite <- Hpre. apply elem_of_app. right. exact Hq. }
  eexists. split; [reflexivity|]. cbn [products filteredProducts displayedCount grid].
  repeat split. rewrite <- Hpre. apply Forall2_app; assumption.
Qed.

Lemma elem_of_take_le {A} (l : list A) (n m : nat) (x : A) :
  (n <= m)%nat -> x ∈ take n l -> x ∈ take m l.
Proof.
  intros Hle Hx. apply elem_of_take in Hx as (i & Hi & Hlt).
  apply elem_of_take. exists i. split; [exact Hi|lia].
Qed.

(** The calls return while the products they show have cards. *)
Lemma afterCalls_prefix (pg : page) (n : nat) :
  displayedCount pg = 0%nat ->
  (forall p, p ∈ take (n * ITEMS_PER_PAGE) (filteredProducts pg) ->
             is_Some (createProductCard p)) ->
  products (afterCalls createProductCard n pg) = products pg /\
  filteredProducts (afterCalls createProductCard n pg) = filteredProducts pg /\
  displayedCount (afterCalls createProductCard n pg)
  = Nat.min (n * ITEMS_PER_PAGE) (List.length (filteredProducts pg)) /\
  (n = 0%nat \/
   Forall2 (fun product c => createProductCard product = Some c)
      (take (n * ITEMS_PER_PAGE) (filteredProducts pg)) (grid (afterCalls createProductCard n pg))).
Proof.
  intros H0. induction n as [|n IH]; intros Hall.
  - unfold App.afterCalls. simpl Nat.iter.
    split; [reflexivity|]. split; [reflexivity|].
    split; [rewrite H0; simpl; lia|left; reflexivity].
  - destruct IH as (IHp & IHf & IHd & IHg).
    { intros p Hp. apply Hall.
      apply (elem_of_take_le _ (n * ITEMS_PER_PAGE)); [lia|exact Hp]. }
    change (afterCalls createProductCard (S n) pg) with (variables (renderProducts createProductCard (afterCalls createProductCard n pg))).
    destruct (renderProducts_next (afterCalls createProductCard n pg) (n * ITEMS_PER_PAGE))
      as (pg' & -> & Hp' & Hf' & Hd' & Hg').
    + rewrite IHf. exact IHd.
    + destruct IHg as [E|IHg]; [left; rewrite E; reflexivity|right; rewrite IHf; exact IHg].
    + rewrite IHf. replace (n * ITEMS_PER_PAGE + ITEMS_PER_PAGE)%nat
        with (S n * ITEMS_PER_PAGE)%nat by lia. exact Hall.
    + cbn [variables]. rewrite IHf in *.
      replace (n * ITEMS_PER_PAGE + ITEMS_PER_PAGE)%nat
        with (S n * ITEMS_PER_PAGE)%nat in * by lia.
      repeat split; [congruence|exact Hf'|exact Hd'|right; exact Hg'].
Qed.

(** X21.  After the count of displayed products is reset, the first call
    of [renderProducts] and every click on the button that loads more show
    the next [ITEMS_PER_PAGE] products, as long as [createProductCard]
    returns a card for each of them: the grid holds the cards of the first
    products of the list, none skipped and none twice, and the button is
    shown while products are left.  At the first product on which
    [createProductCard] throws the call of its page throws: the grid
    holds the cards of the products before it and the count of displayed
    products stays at the start of the page. *)
Theorem load_more_shows_prefix (pg : page) (clicks : nat) :
  displayedCount pg = 0%nat ->
  ((forall p, p ∈ take (S clicks * ITEMS_PER_PAGE) (filteredProducts pg) ->
              is_Some (createProductCard p)) ->
   exists pg',
     renderProducts createProductCard (afterCalls createProductCard clicks pg) = Returned pg' /\
     filteredProducts pg' = filteredProducts pg /\
     displayedCount pg'
     = Nat.min (S clicks * ITEMS_PER_PAGE) (List.length (filteredProducts pg)) /\
     Forall2 (fun product c => createProductCard product = Some c)
      (take (S clicks * ITEMS_PER_PAGE) (filteredProducts pg)) (grid pg') /\
     loadMoreShown pg'
     = (S clicks * ITEMS_PER_PAGE <? List.length (filteredProducts pg))%nat) /\
  (forall i p,
     filteredProducts pg !! i = Some p ->
     createProductCard p = None ->
     (forall q, q ∈ take i (filteredProducts pg) -> is_Some (createProductCard q)) ->
     (clicks * ITEMS_PER_PAGE <= i < S clicks * ITEMS_PER_PAGE)%nat ->
     exists pg',
       renderProducts createProductCard (afterCalls createProductCard clicks pg) = Thrown pg' /\
       filteredProducts pg' = filteredProducts pg /\
       displayedCount pg' = (clicks * ITEMS_PER_PAGE)%nat /\
       Forall2 (fun product c => createProductCard product = Some c)
      (take i (filteredProducts pg)) (grid pg')).
Proof.
  intros H0. split.
  - intros Hall.
    destruct (afterCalls_prefix pg clicks H0) as (Hp & Hf & Hd & Hg).
    { intros p Hp. apply Hall.
      apply (elem_of_take_le _ (clicks * ITEMS_PER_PAGE)); [lia|exact Hp]. }
    destruct (renderProducts_next (afterCalls createProductCard clicks pg) (clicks * ITEMS_PER_PAGE))
      as (pg' & Hr & _ & Hf' & Hd' & Hg').
    + rewrite Hf. exact Hd.
    + destruct Hg as [E|Hg]; [left; rewrite E; reflexivity|right; rewrite Hf; exact Hg].
    + rewrite Hf. replace (clicks * ITEMS_PER_PAGE + ITEMS_PER_PAGE)%nat
        with (S clicks * ITEMS_PER_PAGE)%nat by lia. exact Hall.
    + rewrite Hf in *.
      replace (clicks * ITEMS_PER_PAGE + ITEMS_PER_PAGE)%nat
        with (S clicks * ITEMS_PER_PAGE)%nat in * by lia.
      exists pg'. split; [exact Hr|]. split; [exact Hf'|]. split; [exact Hd'|].
      split; [exact Hg'|].
      unfold loadMoreShown. rewrite Hd', Hf'.
      generalize (S clicks * ITEMS_PER_PAGE)%nat as m. intros m.
      generalize (List.length (filteredProducts pg)) as len. intros len.
      destruct (Nat.eqb_spec len 0) as [E|E]; cbn [negb andb].
      * symmetry. apply Nat.ltb_ge. lia.
      * destruct (Nat.ltb_spec m len) as [Hlt|Hge].
        -- apply Nat.ltb_lt. lia.
        -- apply Nat.ltb_ge. lia.
  - intros i p Hi Hp Hall Hrange.
    pose proof (lookup_lt_Some _ _ _ Hi) as Hlt.
    destruct (afterCalls_prefix pg clicks H0) as (_ & Hf & Hd & Hg).
    { intros q Hq. apply Hall.
      apply (elem_of_take_le _ (clicks * ITEMS_PER_PAGE)); [lia|exact Hq]. }
    assert (Hd0 : displayedCount (afterCalls createProductCard clicks pg) = (clicks * ITEMS_PER_PAGE)%nat)
      by (rewrite Hd; lia).
    destruct (renderProducts_throws (afterCalls createProductCard clicks pg) i p)
      as (pg' & Hr & _ & Hf' & Hd' & Hg').
    + destruct Hg as [E|Hg]; [left; rewrite Hd0, E; reflexivity|].
      right. rewrite Hd0, Hf. exact Hg.
    + rewrite Hf. exact Hi.
    + exact Hp.
    + rewrite Hf. exact Hall.
    + rewrite Hd0. unfold ITEMS_PER_PAGE in *. lia.
    + exists pg'. rewrite Hf in *. split; [exact Hr|]. split; [exact Hf'|].
      split; [congruence|exact Hg'].
Qed.

(** *** The listing *)

Lemma filterProducts_None currentLang st (l : list (gmap string jsval)) :
  filterProducts currentLang st l = None
  <-> exists p, p ∈ l /\ matchesFilters currentLang st p = None.
Proof.
  induction l as [|p l IH]; simpl.
  - split; [discriminate|]. intros (p & H & _). inversion H.
  - destruct (matchesFilters currentLang st p) as [b|] eqn:Hp.
    + destruct (filterProducts currentLang st l) as [r|].
      * split; [discriminate|]. intros (q & Hq & Hn).
        apply elem_of_cons in Hq as [->|Hq]; [congruence|].
        assert (H : Some r = None) by (apply IH; eauto). discriminate.
      * split; [|reflexivity]. intros _. destruct (proj1 IH eq_refl) as (q & Hq & Hn).
        exists q. split; [right; exact Hq|exact Hn].
    + split; [|reflexivity]. intros _. exists p. split; [left|exact Hp].
Qed.

Lemma filterProducts_Some currentLang st (l r : list (gmap string jsval)) :
  filterProducts currentLang st l = Some r ->
  r = List.filter (fun p => bool_decide (matchesFilters currentLang st p = Some true)) l.
Proof.
  revert r. induction l as [|p l IH]; intros r; simpl; [intros [= <-]; reflexivity|].
  destruct (matchesFilters currentLang st p) as [b|]; [|discriminate].
  destruct (filterProducts currentLang st l) as [r'|]; [|discriminate].
  intros [= <-]. rewrite (IH r' eq_refl). destruct b; reflexivity.
Qed.

Lemma filterProducts_total currentLang st (l : list (gmap string jsval)) :
  (forall p, p ∈ l -> is_Some (matchesFilters currentLang st p)) ->
  filterProducts currentLang st l
  = Some (List.filter (fun p => bool_decide (matchesFilters currentLang st p = Some true)) l).
Proof.
  intros Hall. destruct (filterProducts currentLang st l) as [r|] eqn:E.
  - f_equal. apply filterProducts_Some, E.
  - apply filterProducts_None in E as (p & Hp & Hn). destruct (Hall p Hp) as [b Hb]. congruence.
Qed.

(** What the first call after the count is reset leaves when it returns. *)
Lemma renderProducts_first (pg pg' : page) :
  displayedCount pg = 0%nat ->
  renderProducts createProductCard pg = Returned pg' ->
  products pg' = products pg /\
  filteredProducts pg' = filteredProducts pg /\
  displayedCount pg' = Nat.min ITEMS_PER_PAGE (List.length (filteredProducts pg)) /\
  Forall2 (fun product c => createProductCard product = Some c)
      (take ITEMS_PER_PAGE (filteredProducts pg)) (grid pg').
Proof.
  intros H0. unfold App.renderProducts. rewrite H0.
  destruct (List.length (filteredProducts pg) =? 0)%nat eqn:Hlen.
  - apply Nat.eqb_eq in Hlen. intros [= <-]. cbn [products filteredProducts displayedCount grid].
    rewrite Hlen. destruct (filteredProducts pg); [|discriminate].
    repeat split. rewrite take_nil. constructor.
  - cbn [Nat.eqb]. destruct (appendCards createProductCard _ _) as [cards|cards] eqn:Ha; [|discriminate].
    intros [= <-]. cbn [products filteredProducts displayedCount grid].
    repeat split. apply appendCards_Returned in Ha as (cs & -> & Hcs).
    unfold slice in Hcs. rewrite drop_0, Nat.sub_0_r in Hcs.
    cbn [app].
    destruct (Nat.le_gt_cases (List.length (filteredProducts pg)) ITEMS_PER_PAGE).
    + replace (Nat.min _ _) with (List.length (filteredProducts pg)) in Hcs
        by (unfold ITEMS_PER_PAGE in *; lia).
      rewrite take_ge in Hcs by lia. rewrite take_ge by lia. exact Hcs.
    + replace (Nat.min _ _) with ITEMS_PER_PAGE in Hcs by (unfold ITEMS_PER_PAGE in *; lia).
      exact Hcs.
Qed.

(** X22.  [applyFiltersAndRender] lists the products that pass
    [matchesFilters], ranked by [sortByScore] when a category is active
    and sorted by [sortProducts] when none is, and shows the cards of the
    first [ITEMS_PER_PAGE] of them.  It throws, with no variable
    assigned, when [matchesFilters] throws on a product of the catalogue;
    it returns exactly when [matchesFilters] throws on no product,
    [updateRecommendationPanel] or [sortProducts], the one that is
    called, returns, and [createProductCard] returns a card for each
    product of the first page. *)
Theorem applyFiltersAndRender_lists_passing
    (sortProducts : list (gmap string jsval) -> outcome (list (gmap string jsval)))
    (updateRecommendationPanel : gmap string selection -> option unit)
    (currentLang : string) (st : Filter.state) (pg : page) :
  ((exists p, p ∈ products pg /\ matchesFilters currentLang st p = None) ->
   applyFiltersAndRender createProductCard sortProducts updateRecommendationPanel
     currentLang st pg = Thrown pg) /\
  (forall pg',
     applyFiltersAndRender createProductCard sortProducts updateRecommendationPanel
       currentLang st pg = Returned pg' ->
     products pg' = products pg /\
     displayedCount pg' = Nat.min ITEMS_PER_PAGE (List.length (filteredProducts pg')) /\
     Forall2 (fun product c => createProductCard product = Some c)
       (take ITEMS_PER_PAGE (filteredProducts pg')) (grid pg') /\
     (activeFilters st <> ∅ ->
      filteredProducts pg'
      = sortByScore
          (List.filter (fun p => bool_decide (matchesFilters currentLang st p = Some true))
                       (products pg))
          (activeFilters st)) /\
     (activeFilters st = ∅ ->
      sortProducts
        (List.filter (fun p => bool_decide (matchesFilters currentLang st p = Some true))
                     (products pg))
      = Returned (filteredProducts pg'))) /\
  ((exists pg',
      applyFiltersAndRender createProductCard sortProducts updateRecommendationPanel
        currentLang st pg = Returned pg')
   <-> (forall p, p ∈ products pg -> is_Some (matchesFilters currentLang st p)) /\
       exists sorted,
         (if bool_decide (activeFilters st = ∅)
          then sortProducts
                 (List.filter
                    (fun p => bool_decide (matchesFilters currentLang st p = Some true))
                    (products pg))
               = Returned sorted
          else is_Some (updateRecommendationPanel (activeFilters st)) /\
               sorted
               = sortByScore
                   (List.filter
                      (fun p => bool_decide (matchesFilters currentLang st p = Some true))
                      (products pg))
                   (activeFilters st)) /\
         forall p, p ∈ take ITEMS_PER_PAGE sorted -> is_Some (createProductCard p)).
Proof.
  set (passing := List.filter _ (products pg)).
  assert (Hkeys : (0 <? List.length (map_to_list (activeFilters st)))%nat
                  = negb (bool_decide (activeFilters st = ∅))).
  { destruct (map_to_list (activeFilters st)) eqn:E.
    - apply map_to_list_empty_iff in E. rewrite bool_decide_eq_true_2 by exact E. reflexivity.
    - rewrite bool_decide_eq_false_2; [reflexivity|].
      intros H. rewrite H, map_to_list_empty in E. discriminate. }
  assert (Hcards : forall (l : list (gmap string jsval)) (cards : list card),
            Forall2 (fun product c => createProductCard product = Some c) l cards ->
            forall p, p ∈ l -> is_Some (createProductCard p)).
  { intros l cards Hg p Hp. apply list_elem_of_lookup in Hp as [i Hi].
    destruct (Forall2_lookup_l _ _ _ _ _ Hg Hi) as (c & _ & Hc). exists c. exact Hc. }
  unfold applyFiltersAndRender. rewrite Hkeys. split; [|split].
  - intros Hex. apply filterProducts_None in Hex. rewrite Hex. reflexivity.
  - intros pg'.
    destruct (filterProducts currentLang st (products pg)) as [r|] eqn:Hf; [|discriminate].
    apply filterProducts_Some in Hf. fold passing in Hf. subst r.
    destruct (bool_decide_reflect (activeFilters st = ∅)) as [E|E]; cbn [negb].
    + destruct (sortProducts passing) as [sorted|unsorted] eqn:Hs; [|discriminate].
      intros Hr. apply renderProducts_first in Hr as (Hp & Hfp & Hd & Hg); [|reflexivity].
      cbn [products filteredProducts] in Hp, Hfp, Hd, Hg. rewrite Hfp.
      split; [exact Hp|]. split; [exact Hd|]. split; [exact Hg|].
      split; [intros Hne; contradiction|intros _; reflexivity].
    + destruct (updateRecommendationPanel (activeFilters st)); [|discriminate].
      intros Hr. apply renderProducts_first in Hr as (Hp & Hfp & Hd & Hg); [|reflexivity].
      cbn [products filteredProducts] in Hp, Hfp, Hd, Hg. rewrite Hfp.
      split; [exact Hp|]. split; [exact Hd|]. split; [exact Hg|].
      split; [intros _; reflexivity|intros He; contradiction].
  - split.
    + intros [pg' Hr].
      destruct (filterProducts currentLang st (products pg)) as [r|] eqn:Hf; [|discriminate].
      split.
      { intros p Hp. destruct (matchesFilters currentLang st p) eqn:Hm; [eexists; reflexivity|].
        assert (Hn : filterProducts currentLang st (products pg) = None)
          by (apply filterProducts_None; eauto).
        congruence. }
      apply filterProducts_Some in Hf. fold passing in Hf. subst r.
      destruct (bool_decide (activeFilters st = ∅)); cbn [negb] in Hr.
      * destruct (sortProducts passing) as [sorted|unsorted] eqn:Hs; [|discriminate].
        exists sorted. split; [reflexivity|].
        apply renderProducts_first in Hr as (_ & _ & _ & Hg); [|reflexivity].
        exact (Hcards _ _ Hg).
      * destruct (updateRecommendationPanel (activeFilters st)) eqn:Hu; [|discriminate].
        exists (sortByScore passing (activeFilters st)).
        split; [split; [eexists; reflexivity|reflexivity]|].
        apply renderProducts_first in Hr as (_ & _ & _ & Hg); [|reflexivity].
        exact (Hcards _ _ Hg).
    + intros (Hall & sorted & Hsorted & Hc).
      rewrite (filterProducts_total _ _ _ Hall). fold passing.
      destruct (bool_decide (activeFilters st = ∅)); cbn [negb].
      * rewrite Hsorted.
        destruct (renderProducts_next
                    {| products := products pg; filteredProducts := sorted;
                       displayedCount := 0; grid := grid pg |} 0)
          as (pg' & Hr & _); [simpl; lia|left; reflexivity|exact Hc|].
        exists pg'. exact Hr.
      * destruct Hsorted as [[u Hu] ->]. rewrite Hu.
        destruct (renderProducts_next
                    {| products := products pg;
                       filteredProducts := sortByScore passing (activeFilters st);
                       displayedCount := 0; grid := grid pg |} 0)
          as (pg' & Hr & _); [simpl; lia|left; reflexivity|exact Hc|].
        exists pg'. exact Hr.
Qed.

End Cards.

(** The theorem on the pages, at a concrete input. *)
Lemma load_more_shows_prefix_witness :
  ((forall p, p ∈ take (2 * App.ITEMS_PER_PAGE) (App.filteredProducts ExamplePage.fifty) ->
              is_Some (ExamplePage.idCard p)) ->
   exists pg',
     App.renderProducts ExamplePage.idCard (App.afterCalls ExamplePage.idCard 1 ExamplePage.fifty)
     = App.Returned pg' /\
     App.filteredProducts pg' = App.filteredProducts ExamplePage.fifty /\
     App.displayedCount pg'
     = Nat.min (2 * App.ITEMS_PER_PAGE)
         (List.length (App.filteredProducts ExamplePage.fifty)) /\
     Forall2 (fun product c => ExamplePage.idCard product = Some c)
       (take (2 * App.ITEMS_PER_PAGE) (App.filteredProducts ExamplePage.fifty))
       (App.grid pg') /\
     App.loadMoreShown pg'
     = (2 * App.ITEMS_PER_PAGE <? List.length (App.filteredProducts ExamplePage.fifty))%nat) /\
  (forall i p,
     App.filteredProducts ExamplePage.fifty !! i = Some p ->
     ExamplePage.idCard p = None ->
     (forall q, q ∈ take i (App.filteredProducts ExamplePage.fifty) ->
                is_Some (ExamplePage.idCard q)) ->
     (1 * App.ITEMS_PER_PAGE <= i < 2 * App.ITEMS_PER_PAGE)%nat ->
     exists pg',
       App.renderProducts ExamplePage.idCard
         (App.afterCalls ExamplePage.idCard 1 ExamplePage.fifty)
       = App.Thrown pg' /\
       App.filteredProducts pg' = App.filteredProducts ExamplePage.fifty /\
       App.displayedCount pg' = (1 * App.ITEMS_PER_PAGE)%nat /\
       Forall2 (fun product c => ExamplePage.idCard product = Some c)
         (take i (App.filteredProducts ExamplePage.fifty)) (App.grid pg')).
Proof.
  apply (load_more_shows_prefix ExamplePage.idCard ExamplePage.fifty 1).
  reflexivity.
Defined.

(** ** The language and the theme *)

Section Lang.
Import JS Language Examples.

Lemma exec_valid (o : op) (st : state) :
  (currentLang st = "ko" \/ currentLang st = "en") /\ valid_stored (savedLang st) ->
  (currentLang (exec o st) = "ko" \/ currentLang (exec o st) = "en") /\
  valid_stored (savedLang (exec o st)).
Proof.
  intros [Hc Hs]. destruct o as [language|storageThrows lang|storageThrows]; simpl.
  - unfold init. simpl. split; [|exact Hs].
    destruct (savedLang st) as [s|] eqn:E.
    + destruct (Hs s eq_refl) as [-> | ->]; simpl; auto.
    + destruct (String.prefix "ko" language); auto.
  - unfold setLang.
    destruct (String.eqb_spec lang "ko") as [->|H1]; simpl.
    { split; [auto|]. destruct storageThrows; [exact Hs|]. intros s [= <-]. auto. }
    destruct (String.eqb_spec lang "en") as [->|H2]; simpl; [|auto].
    split; [auto|]. destruct storageThrows; [exact Hs|]. intros s [= <-]. auto.
  - unfold toggleLang, setLang. destruct (String.eqb (currentLang st) "ko"); simpl.
    + split; [auto|]. destruct storageThrows; [exact Hs|]. intros s [= <-]. auto.
    + split; [auto|]. destruct storageThrows; [exact Hs|]. intros s [= <-]. auto.
Qed.

Lemma run_valid (stored : option string) (ops : list op) :
  valid_stored stored ->
  (currentLang (run stored ops) = "ko" \/ currentLang (run stored ops) = "en") /\
  valid_stored (savedLang (run stored ops)).
Proof.
  intros Hv. unfold run.
  assert (H0 : (currentLang (initial stored) = "ko" \/ currentLang (initial stored) = "en") /\
               valid_stored (savedLang (initial stored))).
  { split; [left; reflexivity|exact Hv]. }
  revert H0. generalize (initial stored) as st.
  induction ops as [|o ops IH]; intros st H; simpl; [exact H|].
  apply IH, exec_valid, H.
Qed.

(** Without a call of [init] the stored value is never read. *)
Lemma run_without_init (stored : option string) (ops : list op) :
  (forall language, OpInit language ∉ ops) ->
  currentLang (run stored ops) = "ko" \/ currentLang (run stored ops) = "en".
Proof.
  intros Hno. unfold run.
  assert (H0 : currentLang (initial stored) = "ko" \/ currentLang (initial stored) = "en")
    by (left; reflexivity).
  revert H0 Hno. generalize (initial stored) as st.
  induction ops as [|o ops IH]; intros st H Hno; simpl; [exact H|].
  apply IH; [|intros language Hin; apply (Hno language); right; exact Hin].
  destruct o as [language|storageThrows lang|storageThrows]; simpl.
  - exfalso. apply (Hno language). left.
  - unfold setLang.
    destruct (String.eqb_spec lang "ko") as [->|H1]; simpl; [auto|].
    destruct (String.eqb_spec lang "en") as [->|H2]; simpl; auto.
  - unfold toggleLang, setLang. destruct (String.eqb (currentLang st) "ko"); simpl; auto.
Qed.

(** X23.  In a browser whose storage holds no language, or [ko] or [en]
    as [setLang] writes them, the current language is [ko] or [en]
    whatever calls of [init], [setLang] and [toggleLang] are made, and the
    stored language stays one of the two; [toggleLang] then changes the
    language and a second call changes it back.  The same holds of the
    current language over any stored value as long as [init] is not
    called: [init] adopts a stored string that is not empty as it is.
    [setLang] ignores any language other than [ko] and [en], and where it
    returns the stored language is the current one. *)
Theorem language_stays_valid (stored : option string) (ops : list op) :
  (valid_stored stored ->
   (currentLang (run stored ops) = "ko" \/ currentLang (run stored ops) = "en") /\
   valid_stored (savedLang (run stored ops)) /\
   (forall storageThrows,
      currentLang (toggleLang storageThrows (run stored ops)) <> currentLang (run stored ops)) /\
   (forall storageThrows storageThrows',
      currentLang (toggleLang storageThrows' (toggleLang storageThrows (run stored ops)))
      = currentLang (run stored ops))) /\
  ((forall language, OpInit language ∉ ops) ->
   currentLang (run stored ops) = "ko" \/ currentLang (run stored ops) = "en") /\
  (forall s language, s <> "" -> currentLang (run (Some s) [OpInit language]) = s) /\
  (forall storageThrows lang,
     lang <> "ko" -> lang <> "en" ->
     setLang storageThrows lang (run stored ops) = run stored ops) /\
  (forall lang,
     lang = "ko" \/ lang = "en" ->
     currentLang (setLang false lang (run stored ops)) = lang /\
     savedLang (setLang false lang (run stored ops)) = Some lang).
Proof.
  split; [|split; [|split; [|split]]].
  - intros Hv. destruct (run_valid stored ops Hv) as [Hc Hs].
    split; [exact Hc|]. split; [exact Hs|]. split.
    + intros storageThrows. unfold toggleLang, setLang.
      destruct Hc as [-> | ->]; simpl; discriminate.
    + intros storageThrows storageThrows'. unfold toggleLang, setLang.
      destruct Hc as [-> | ->]; simpl; reflexivity.
  - apply run_without_init.
  - intros s language Hs. unfold run, init. simpl.
    apply String.eqb_neq in Hs. rewrite Hs. reflexivity.
  - intros storageThrows lang H1 H2. unfold setLang.
    apply String.eqb_neq in H1, H2. rewrite H1, H2. reflexivity.
  - intros lang [-> | ->]; split; reflexivity.
Qed.



End Lang.

Section Themes.
Import Theme.

Lemma valid_elem (t : string) : valid (Some t) = true <-> t ∈ VALID_THEMES.
Proof.
  unfold valid. rewrite List.existsb_exists. split.
  - intros (x & Hx & E). apply String.eqb_eq in E. subst x. apply list_elem_of_In, Hx.
  - intros H. exists t. split; [apply list_elem_of_In, H|apply String.eqb_refl].
Qed.

(** X25.  [getTheme] returns one of [VALID_THEMES] whatever the storage
    holds.  After [setTheme], with a storage that works, [getTheme]
    returns the theme that was set, or [dark] for one that is not valid;
    the attribute [data-theme] is absent exactly for [dark] and otherwise
    holds that theme.  A second [initTheme] changes nothing. *)
Theorem theme_is_always_valid (storageThrows : bool) (theme : option string) (st : state) :
  getTheme storageThrows st ∈ VALID_THEMES /\
  getTheme false (setTheme false theme st)
  = (if valid theme then default DEFAULT_THEME theme else DEFAULT_THEME) /\
  (attribute (setTheme storageThrows theme st) = None
   <-> getTheme false (setTheme false theme st) = "dark") /\
  (forall t, attribute (setTheme storageThrows theme st) = Some t ->
     t ∈ VALID_THEMES /\ t = getTheme false (setTheme false theme st)) /\
  initTheme false (initTheme false st) = initTheme false st.
Proof.
  assert (Hget : forall f s, getTheme f s ∈ VALID_THEMES).
  { intros f s. unfold getTheme. destruct f; [apply valid_elem; reflexivity|].
    destruct (valid (saved s)) eqn:Hv; [|apply valid_elem; reflexivity].
    destruct (saved s) as [t|]; [|discriminate]. apply valid_elem, Hv. }
  assert (Hnorm : forall th : option string,
            valid (Some (if negb (valid th) then DEFAULT_THEME else default DEFAULT_THEME th))
            = true).
  { intros [t|]; [|reflexivity]. destruct (valid (Some t)) eqn:Hv; [exact Hv|reflexivity]. }
  assert (Hset : forall th s, getTheme false (setTheme false th s)
                 = (if valid th then default DEFAULT_THEME th else DEFAULT_THEME)).
  { intros th s. unfold getTheme, setTheme. cbn [saved]. rewrite Hnorm.
    destruct (valid th); reflexivity. }
  split; [apply Hget|]. split; [apply Hset|]. split; [|split].
  - rewrite Hset. unfold setTheme. cbn [attribute].
    destruct (valid theme); cbn [negb].
    + destruct (String.eqb_spec (default DEFAULT_THEME theme) "dark"); split; congruence.
    + split; reflexivity.
  - intros t. rewrite Hset. unfold setTheme. cbn [attribute].
    destruct (valid theme) eqn:Hv; cbn [negb].
    + destruct (String.eqb (default DEFAULT_THEME theme) "dark"); [discriminate|].
      intros [= <-]. split; [|reflexivity].
      destruct theme as [t|]; [apply valid_elem, Hv|discriminate].
    + discriminate.
  - unfold initTheme.
    assert (E : getTheme false (setTheme false (Some (getTheme false st)) st) = getTheme false st).
    { rewrite Hset. pose proof (Hget false st) as H. apply valid_elem in H. rewrite H. reflexivity. }
    rewrite E. unfold setTheme. reflexivity.
Qed.

End Themes.

(** ** The later search: initial consonants and history *)

Section Search.
Import JS Hangul History.

Lemma isSyllable_range (code : N) :
  isSyllable code = true <-> (44032 <= code <= 55203)%N.
Proof.
  unfold isSyllable, HANGUL_START, HANGUL_END.
  rewrite andb_true_iff, !N.leb_le. reflexivity.
Qed.

Lemma isChoseong_range (char : N) :
  isChoseong char = true -> (12593 <= char <= 12622)%N.
Proof.
  unfold isChoseong. rewrite List.existsb_exists. intros (c & Hc & E).
  apply N.eqb_eq in E. subst c.
  repeat (destruct Hc as [<-|Hc]; [lia|]). destruct Hc.
Qed.

Lemma choseong_is_no_syllable (char : N) :
  isChoseong char = true -> isSyllable char = false.
Proof.
  intros H. apply isChoseong_range in H.
  destruct (isSyllable char) eqn:E; [|reflexivity].
  apply isSyllable_range in E. lia.
Qed.

Lemma getChoseong_syllable (char : N) :
  isSyllable char = true ->
  exists c, getChoseong char = Some c /\ isChoseong c = true.
Proof.
  intros H. unfold getChoseong. rewrite H. apply isSyllable_range in H.
  unfold HANGUL_START, CHOSEONG_BASE.
  assert (Hi : (N.to_nat ((char - 44032) / 588) < 19)%nat).
  { assert (((char - 44032) / 588 < 19)%N) by (apply N.Div0.div_lt_upper_bound; lia). lia. }
  set (i := N.to_nat ((char - 44032) / 588)) in *. clearbody i.
  do 19 (destruct i as [|i]; [eexists; split; reflexivity|]). lia.
Qed.

Lemma extract_unit (char : N) :
  exists c,
    (if isSyllable char
     then match getChoseong char with Some c => [c] | None => [] end
     else [char]) = [c] /\
    isSyllable c = false /\
    (isSyllable char = true ->
     isChoseong c = true /\
     CHOSEONG !! N.to_nat ((char - HANGUL_START) / CHOSEONG_BASE) = Some c) /\
    (isSyllable char = false -> c = char).
Proof.
  destruct (isSyllable char) eqn:E.
  - destruct (getChoseong_syllable char E) as (c & Hg & Hc). rewrite Hg.
    exists c. split; [reflexivity|]. split; [apply choseong_is_no_syllable, Hc|].
    split; [|discriminate]. intros _. split; [exact Hc|].
    unfold getChoseong in Hg. rewrite E in Hg. exact Hg.
  - exists char. split; [reflexivity|]. split; [exact E|]. split; [discriminate|reflexivity].
Qed.

(** X26.  [extractChoseong] keeps the length of the string: it replaces
    every Hangul syllable by a consonant of the table [CHOSEONG] (the index
    is always within the table) and leaves every other character.  Applied
    again it changes nothing, and its result is a consonant-only query
    exactly when the string is made of syllables, consonants and spaces. *)
Theorem extractChoseong_spec (str : list N) :
  List.length (extractChoseong str) = List.length str /\
  (forall i char, str !! i = Some char ->
     exists c, extractChoseong str !! i = Some c /\
       (if isSyllable char
        then isChoseong c = true /\
             CHOSEONG !! N.to_nat ((char - HANGUL_START) / CHOSEONG_BASE) = Some c
        else c = char)) /\
  extractChoseong (extractChoseong str) = extractChoseong str /\
  (isChoseongQuery (extractChoseong str) = true <->
   forall char, char ∈ str ->
     isSyllable char = true \/ isChoseong char = true \/ char = 32%N).
Proof.
  unfold extractChoseong, isChoseongQuery.
  induction str as [|char str (IH1 & IH2 & IH3 & IH4)]; simpl.
  - split; [reflexivity|]. split; [intros i c H; discriminate|].
    split; [reflexivity|]. split; [intros _ c H; inversion H|reflexivity].
  - destruct (extract_unit char) as (c & -> & Hc1 & Hc2 & Hc3). simpl.
    split; [rewrite IH1; reflexivity|]. split; [|split].
    + intros [|i] x; simpl.
      * intros [= <-]. exists c. split; [reflexivity|].
        destruct (isSyllable char) eqn:E.
        -- apply Hc2. reflexivity.
        -- apply Hc3. reflexivity.
      * apply IH2.
    + rewrite Hc1. simpl. rewrite IH3. reflexivity.
    + rewrite andb_true_iff, IH4. split.
      * intros [Hc H] x Hx. apply elem_of_cons in Hx as [->|Hx]; [|apply H, Hx].
        destruct (isSyllable char) eqn:E; [left; reflexivity|right].
        rewrite (Hc3 eq_refl) in Hc. apply orb_true_iff in Hc as [Hc|Hc]; [left; exact Hc|].
        right. apply N.eqb_eq, Hc.
      * intros H. split; [|intros x Hx; apply H; right; exact Hx].
        destruct (H char) as [E|[E|E]]; [left| | |].
        -- rewrite (proj1 (Hc2 E)). reflexivity.
        -- rewrite (Hc3 (choseong_is_no_syllable _ E)), E. reflexivity.
        -- assert (Es : isSyllable char = false) by (subst char; reflexivity).
           rewrite (Hc3 Es). subst char. reflexivity.
Qed.



End Search.

(** ** The mapping script *)

Section CSV.
Import JS Mapping.




End CSV.
